(** * Guitar tuner: pitch detection and tuning analysis

    A shallow embedding of [PitchDetector.ts] and [TunerEngine.ts] (with the
    constants of [types.ts]) and the properties of the design document that
    were checked against them; then the parts of [AudioManager.ts],
    [main.ts] and [UIController.ts] that feed the detector and show its
    results, with further properties of the code.

    JavaScript numbers are IEEE-754 binary64 values; they are modelled by
    Rocq's primitive [float], so every arithmetic operation of the source is
    the bit-exact operation here.  A [Float32Array] is a [list float] whose
    stores round to binary32 ([JS.fround]).  Integer-valued numbers that are
    used as array indices and loop counters are kept in [Z]. *)

From Stdlib Require Import ZArith List Bool Lia String Floats Uint63.
Import ListNotations.
Set Warnings "-inexact-float".

Local Open Scope float_scope.

(* ================================================================= *)
(** ** The JavaScript number operations used by the sources *)

Module JS.

(** [ToNumber(undefined)]: what an out-of-range read of a typed array
    becomes as soon as it is compared or used in arithmetic. *)
Definition undefined : float := nan.

(** The number of an integer (array lengths, indices, loop counters). *)
Definition of_Z (z : Z) : float :=
  if (z <? 0)%Z then - of_uint63 (Uint63.of_Z (- z))
  else of_uint63 (Uint63.of_Z z).

(** [Math.fround]: the rounding of a store into a [Float32Array]
    (binary32: 24 bits of precision, exponents below 128). *)
Definition fround (x : float) : float :=
  match Prim2SF x with
  | S754_finite s m e =>
      SF2Prim (binary_normalize 24 128 (cond_Zopp s (Zpos m)) e s)
  | _ => x
  end.

(** [a > b] and [a >= b]. *)
Definition gtb (a b : float) : bool := b <? a.
Definition geb (a b : float) : bool := b <=? a.

Definition Math_abs (x : float) : float := abs x.

(** [Math.min] of two numbers: NaN if either is NaN, and -0 below +0. *)
Definition Math_min (a b : float) : float :=
  if is_nan a || is_nan b then nan
  else if a <? b then a
  else if b <? a then b
  else if get_sign a then a else b.

(** An integral number: the results of [Math.floor], kept apart from the
    fractional numbers because they serve as indices and counters. *)
Inductive integral : Type :=
| INaN
| IPosInf
| INegInf
| IInt (z : Z).

(** [Math.floor].  (The sign of a zero result is not kept.) *)
Definition Math_floor (x : float) : integral :=
  match Prim2SF x with
  | S754_nan => INaN
  | S754_infinity s => if s then INegInf else IPosInf
  | S754_zero _ => IInt 0
  | S754_finite s m e => IInt (Z.shiftl (cond_Zopp s (Zpos m)) e)
  end.

(** [Math.min] and [<] on integral numbers. *)
Definition imin (a b : integral) : integral :=
  match a, b with
  | INaN, _ | _, INaN => INaN
  | INegInf, _ | _, INegInf => INegInf
  | IPosInf, y => y
  | x, IPosInf => x
  | IInt x, IInt y => IInt (Z.min x y)
  end.

Definition iltb (a b : integral) : bool :=
  match a, b with
  | INaN, _ | _, INaN => false
  | _, INegInf => false
  | INegInf, _ => true
  | IPosInf, _ => false
  | IInt _, IPosInf => true
  | IInt x, IInt y => (x <? y)%Z
  end.

(** [x >= n] and [x < n] for an integral [x] and an integer [n]. *)
Definition igeb_Z (a : integral) (n : Z) : bool :=
  match a with
  | IPosInf => true
  | IInt x => (n <=? x)%Z
  | _ => false
  end.

Definition iltb_Z (a : integral) (n : Z) : bool := iltb a (IInt n).

(** [Math.round]: the nearest integer, a tie going to the integer closer
    to +infinity (ECMA-262, 21.3.2.28); a result that is zero keeps the
    sign of the argument. *)
Definition Math_round (x : float) : float :=
  match Prim2SF x with
  | S754_finite s m e =>
      if (0 <=? e)%Z then x
      else
        let r := Z.shiftl (2 * cond_Zopp s (Zpos m) + Z.shiftl 1 (- e)) (e - 1) in
        if (r =? 0)%Z then (if s then neg_zero else zero) else of_Z r
  | _ => x
  end.

(** Reading [a[i]] from a typed array: [undefined] outside the bounds. *)
Definition get (a : list float) (i : Z) : float :=
  if ((0 <=? i) && (i <? Z.of_nat (List.length a)))%Z
  then nth (Z.to_nat i) a undefined
  else undefined.

(** [a.reduce((sum, val) => sum + val, 0)]. *)
Definition sum (a : list float) : float :=
  fold_left (fun s v => s + v) a 0.

(** The outcome of running a function of the source: it returns a value,
    or its loop never ends. *)
Inductive outcome (A : Type) : Type :=
| Returns (a : A)
| Loops.
Arguments Returns {A} a.
Arguments Loops {A}.

(** The integers [a, a+1, ..., b-1]. *)
Definition zrange (a b : Z) : list Z :=
  map (fun k => (a + Z.of_nat k)%Z) (seq 0 (Z.to_nat (b - a))).

(** The counter values visited by
    [for (let p = start; p < bound; p++)].
    Below -2^53 the increment [p + 1] rounds back to [p] and the loop
    never ends, except at -(2^53 + 2), where it rounds to -2^53; a counter
    that starts at -infinity never moves, and an infinite bound is never
    reached.  (Array lengths are below 2^53.) *)
Definition for_range (start bound : integral) : outcome (list Z) :=
  if iltb start bound then
    match start, bound with
    | IInt a, IInt b =>
        if (-9007199254740992 <=? a)%Z then Returns (zrange a b)
        else if (a =? -9007199254740994)%Z
             then Returns (a :: zrange (-9007199254740992) b)
             else Loops
    | _, _ => Loops
    end
  else Returns [].

End JS.

Import JS.

(* ================================================================= *)
(** ** [types.ts] *)

Record NoteData : Type := {
  nd_frequency : float;
  nd_note : string;
  nd_cents : float;
  nd_isInTune : bool;
  nd_confidence : float
}.

Definition GUITAR_TUNING : list (string * float) :=
  [ ("E2", 82.41); ("A2", 110.00); ("D3", 146.83);
    ("G3", 196.00); ("B3", 246.94); ("E4", 329.63) ]%string.

Record AudioConfig : Type := {
  cfg_sampleRate : float;
  cfg_bufferSize : Z;
  cfg_minVolumeThreshold : float;
  maxFrequency : float;
  minFrequency : float
}.

Definition DEFAULT_AUDIO_CONFIG : AudioConfig := {|
  cfg_sampleRate := 44100;
  cfg_bufferSize := 4096;
  cfg_minVolumeThreshold := 0.01;
  maxFrequency := 400;
  minFrequency := 70
|}.

Definition TUNING_TOLERANCE_CENTS : float := 5.

(* ================================================================= *)
(** ** [PitchDetector.ts] *)

Module PitchDetector.

(** The fields of the class: [sampleRate] and [config]. *)
Record t : Type := {
  sampleRate : float;
  config : AudioConfig
}.

(** [constructor(sampleRate, config = DEFAULT_AUDIO_CONFIG)]. *)
Definition new (sampleRate : float) (config : AudioConfig) : t :=
  {| sampleRate := sampleRate; config := config |}.

(** [updateSampleRate]. *)
Definition updateSampleRate (d : t) (sampleRate : float) : t :=
  {| sampleRate := sampleRate; config := config d |}.

(** *** [applyGuitarFrequencyFilter] *)

Definition alpha : float := 0.8.

(** The loop [filtered[i] = alpha * filtered[i - 1] + (1 - alpha) * buffer[i]]
    from index 1 on; [prev] is [filtered[i - 1]]. *)
Fixpoint lowpass_from (prev : float) (rest : list float) : list float :=
  match rest with
  | [] => []
  | x :: rest' =>
      let y := fround (alpha * prev + (1 - alpha) * x) in
      y :: lowpass_from y rest'
  end.

(** [filtered[0] = buffer[0]] followed by the loop (on an empty buffer the
    store is out of range and does nothing). *)
Definition lowpass (buffer : list float) : list float :=
  match buffer with
  | [] => []
  | x0 :: rest => fround x0 :: lowpass_from (fround x0) rest
  end.

(** The mean of a buffer: [reduce(...) / length]. *)
Definition mean (a : list float) : float :=
  sum a / of_Z (Z.of_nat (List.length a)).

Definition applyGuitarFrequencyFilter (buffer : list float) : list float :=
  let filtered := lowpass buffer in
  let mean := mean filtered in
  map (fun v => fround (v - mean)) filtered.

(** *** [autocorrelate] *)

(** The inner loop over [i < samplesUsed], accumulating
    [centeredBuffer[i] * centeredBuffer[i + lag]]. *)
Definition lagSum (centeredBuffer : list float) (lag : nat) : float :=
  fold_left
    (fun sum i =>
       sum + nth i centeredBuffer undefined * nth (i + lag) centeredBuffer undefined)
    (seq 0 (List.length centeredBuffer - lag)) 0.

Definition autocorrelate (buffer : list float) : list float :=
  let bufferLength := List.length buffer in
  let size := Nat.div bufferLength 2 in
  let mean := mean buffer in
  let centeredBuffer := map (fun v => fround (v - mean)) buffer in
  let sumSquares := fold_left (fun s c => s + c * c) centeredBuffer 0 in
  if sumSquares =? 0 then repeat 0 size
  else map (fun lag => fround (lagSum centeredBuffer lag / sumSquares)) (seq 0 size).

(** *** [calculateConsistencyBonus] *)

Definition windowSize : Z := 3.

(** One round of the loop over [harmonic]; the state is
    [(consistentPeaks, totalChecked)]. *)
Definition harmonic_step (correlations : list float) (bestPeriod : Z)
    (st : Z * Z) (harmonic : Z) : Z * Z :=
  let '(consistentPeaks, totalChecked) := st in
  let harmonicPeriod := Math_floor (of_Z bestPeriod / of_Z harmonic) in
  if igeb_Z harmonicPeriod windowSize
     && iltb_Z harmonicPeriod (Z.of_nat (List.length correlations) - windowSize)
  then
    match harmonicPeriod with
    | IInt hp =>
        let harmonicCorrelation := get correlations hp in
        let avgNeighbor := (get correlations (hp - 1) + get correlations (hp + 1)) / 2 in
        ((if gtb harmonicCorrelation (avgNeighbor * 1.1)
          then consistentPeaks + 1 else consistentPeaks)%Z,
         (totalChecked + 1)%Z)
    | _ => st
    end
  else st.

Definition calculateConsistencyBonus (correlations : list float) (bestPeriod : Z) : float :=
  let '(consistentPeaks, totalChecked) :=
    fold_left (harmonic_step correlations bestPeriod) [2; 3; 4]%Z (0, 0)%Z in
  if (0 <? totalChecked)%Z then of_Z consistentPeaks / of_Z totalChecked else 0.

(** *** [calculateConfidence] *)

Definition calculateConfidence (d : t) (maxCorrelation secondBestCorrelation : float)
    (correlations : list float) (bestPeriod : Z) : float :=
  let confidence := maxCorrelation in
  let correlationRatio :=
    if gtb secondBestCorrelation 0 then maxCorrelation / secondBestCorrelation
    else maxCorrelation in
  let confidence := confidence * Math_min (correlationRatio / 2) 1 in
  let frequency := sampleRate d / of_Z bestPeriod in
  let confidence := if frequency <? 150 then confidence * 1.1 else confidence in
  let consistencyBonus := calculateConsistencyBonus correlations bestPeriod in
  let confidence := confidence * (1 + consistencyBonus * 0.2) in
  Math_min confidence 1.

(** *** [parabolicInterpolation] *)

Definition parabolicInterpolation (d : t) (correlations : list float) (peakIndex : Z) : float :=
  if ((peakIndex <=? 0) || (Z.of_nat (List.length correlations) - 1 <=? peakIndex))%Z
  then sampleRate d / of_Z peakIndex
  else
    let y1 := get correlations (peakIndex - 1) in
    let y2 := get correlations peakIndex in
    let y3 := get correlations (peakIndex + 1) in
    let a := (y1 - 2 * y2 + y3) / 2 in
    let b := (y3 - y1) / 2 in
    if a =? 0 then sampleRate d / of_Z peakIndex
    else
      let xOffset := - b / (2 * a) in
      let interpolatedPeriod := of_Z peakIndex + xOffset in
      sampleRate d / interpolatedPeriod.

(** *** [findFundamentalFrequencyWithConfidence] *)

(** The three variables of the peak search. *)
Record peaks : Type := {
  maxCorrelation : float;
  bestPeriod : Z;
  secondBestCorrelation : float
}.

Definition no_peak : peaks :=
  {| maxCorrelation := 0; bestPeriod := 0; secondBestCorrelation := 0 |}.

Definition isLocalMax (correlations : list float) (period : Z) : bool :=
  gtb (get correlations period) (get correlations (period - 1))
  && gtb (get correlations period) (get correlations (period + 1)).

(** The body of the loop over [period]. *)
Definition peak_step (correlations : list float) (st : peaks) (period : Z) : peaks :=
  let correlation := get correlations period in
  if isLocalMax correlations period then
    if gtb correlation (maxCorrelation st) then
      {| maxCorrelation := correlation;
         bestPeriod := period;
         secondBestCorrelation := maxCorrelation st |}
    else if gtb correlation (secondBestCorrelation st) then
      {| maxCorrelation := maxCorrelation st;
         bestPeriod := bestPeriod st;
         secondBestCorrelation := correlation |}
    else st
  else st.

Definition minPeriod (d : t) : integral :=
  Math_floor (sampleRate d / maxFrequency (config d)).

Definition maxPeriod (d : t) : integral :=
  Math_floor (sampleRate d / minFrequency (config d)).

(** The bound of the loop: [Math.min(maxPeriod, correlations.length - 1)]. *)
Definition periodBound (d : t) (correlations : list float) : integral :=
  imin (maxPeriod d) (IInt (Z.of_nat (List.length correlations) - 1)).

Definition threshold : float := 0.15.

(** The result is the pair [(frequency, confidence)]. *)
Definition findFundamentalFrequencyWithConfidence (d : t) (correlations : list float)
  : outcome (option (float * float)) :=
  match for_range (minPeriod d) (periodBound d correlations) with
  | Loops => Loops
  | Returns periods =>
      let st := fold_left (peak_step correlations) periods no_peak in
      if (maxCorrelation st <? threshold) || (bestPeriod st =? 0)%Z then Returns None
      else
        let confidence :=
          calculateConfidence d (maxCorrelation st) (secondBestCorrelation st)
            correlations (bestPeriod st) in
        let frequency := parabolicInterpolation d correlations (bestPeriod st) in
        Returns (Some (frequency, confidence))
  end.

(** *** [detectPitch] and [detectPitchWithConfidence] *)

Definition detectPitch (d : t) (audioBuffer : list float) : outcome (option float) :=
  match audioBuffer with
  | [] => Returns None
  | _ =>
      let filteredBuffer := applyGuitarFrequencyFilter audioBuffer in
      let correlations := autocorrelate filteredBuffer in
      match findFundamentalFrequencyWithConfidence d correlations with
      | Loops => Loops
      | Returns None => Returns None
      | Returns (Some (frequency, confidence)) =>
          if (frequency <? minFrequency (config d))
             || gtb frequency (maxFrequency (config d))
          then Returns None
          else if confidence <? 0.3 then Returns None
          else Returns (Some frequency)
      end
  end.

Definition detectPitchWithConfidence (d : t) (audioBuffer : list float)
  : outcome (option (float * float)) :=
  match audioBuffer with
  | [] => Returns None
  | _ =>
      let filteredBuffer := applyGuitarFrequencyFilter audioBuffer in
      let correlations := autocorrelate filteredBuffer in
      match findFundamentalFrequencyWithConfidence d correlations with
      | Loops => Loops
      | Returns None => Returns None
      | Returns (Some (frequency, confidence)) =>
          if (frequency <? minFrequency (config d))
             || gtb frequency (maxFrequency (config d))
          then Returns None
          else Returns (Some (frequency, confidence))
      end
  end.

End PitchDetector.

(* ================================================================= *)
(** ** [TunerEngine.ts] *)

Module TunerEngine.

(** [Array.prototype.sort] with the comparator
    [(a, b) => a.frequency - b.frequency]: a stable insertion sort. *)
Fixpoint insert_by_frequency (x : string * float) (l : list (string * float))
  : list (string * float) :=
  match l with
  | [] => [x]
  | y :: l' =>
      if snd x - snd y <? 0 then x :: y :: l'
      else y :: insert_by_frequency x l'
  end.

Definition sort_by_frequency (l : list (string * float)) : list (string * float) :=
  fold_left (fun acc x => insert_by_frequency x acc) (rev l) [].

(** The field built by the constructor:
    [Object.entries(GUITAR_TUNING).map(...).sort(...)]. *)
Definition guitarNotes : list (string * float) :=
  sort_by_frequency GUITAR_TUNING.

(** [GUITAR_TUNING[note]]. *)
Fixpoint lookup (note : string) (table : list (string * float)) : float :=
  match table with
  | [] => undefined
  | (k, v) :: table' => if String.eqb k note then v else lookup note table'
  end.

(** The body of the loop of [getClosestGuitarNote]; the state is
    [(closestNote, minDifference)]. *)
Definition closest_step (frequency : float)
    (st : (string * float) * float) (noteData : string * float)
  : (string * float) * float :=
  let difference := Math_abs (frequency - snd noteData) in
  if difference <? snd st then (noteData, difference) else st.

Definition closestFrom (notes : list (string * float)) (frequency : float) : string :=
  match notes with
  | [] => EmptyString
  | first :: _ =>
      let minDifference := Math_abs (frequency - snd first) in
      fst (fst (fold_left (closest_step frequency) notes (first, minDifference)))
  end.

Definition getClosestGuitarNote (frequency : float) : string :=
  closestFrom guitarNotes frequency.

Section WithLog2.

(** [Math.log2] is a builtin whose values are implementation-approximated
    (ECMA-262, 21.3.2.22); the engine is embedded for any such function. *)
Variable Math_log2 : float -> float.

Definition calculateCentsDifference (frequency targetFrequency : float) : float :=
  Math_round (1200 * Math_log2 (frequency / targetFrequency)).

Definition analyzeNote (frequency confidence : float) : NoteData :=
  let closestNote := getClosestGuitarNote frequency in
  let targetFrequency := lookup closestNote GUITAR_TUNING in
  let cents := calculateCentsDifference frequency targetFrequency in
  let isInTune := Math_abs cents <=? TUNING_TOLERANCE_CENTS in
  {| nd_frequency := frequency;
     nd_note := closestNote;
     nd_cents := cents;
     nd_isInTune := isInTune;
     nd_confidence := confidence |}.

End WithLog2.

(** *** A reference [Math.log2]

    The base-2 logarithm of a positive number [m * 2^e] is
    [e + d - 1 + log2 (m / 2^(d-1))] for [d] the number of bits of [m]; the
    fraction is developed bit by bit, by repeated squaring in fixed point
    with 160 fractional bits, to 128 bits, and the sum is rounded to the
    nearest binary64 number.  The special cases are those of ECMA-262. *)

Definition log2_fixed : Z := 160.

(** [bits] rounds of squaring [y] (a number of [[1, 2)] scaled by
    [2^log2_fixed]); [acc] collects the bits found so far. *)
Fixpoint log2_fraction (bits : nat) (y acc : Z) : Z :=
  match bits with
  | O => acc
  | S bits' =>
      let y2 := Z.shiftr (y * y)%Z log2_fixed in
      if (Z.shiftl 2 log2_fixed <=? y2)%Z
      then log2_fraction bits' (Z.shiftr y2 1) (2 * acc + 1)%Z
      else log2_fraction bits' y2 (2 * acc)%Z
  end.

Definition log2_reference (x : float) : float :=
  match Prim2SF x with
  | S754_nan => nan
  | S754_zero _ => neg_infinity
  | S754_infinity s => if s then nan else infinity
  | S754_finite true _ _ => nan
  | S754_finite false m e =>
      let d := (Z.log2 (Zpos m) + 1)%Z in
      let y := Z.shiftl (Zpos m) (log2_fixed - (d - 1))%Z in
      let fraction := log2_fraction 128 y 0%Z in
      SF2Prim (binary_normalize prec emax
                 ((e + d - 1) * Z.shiftl 1 128 + fraction)%Z (-128)%Z false)
  end.

(** [round] as the design document words it: the nearest integer, a tie
    going away from zero. *)
Definition round_half_away (x : float) : float :=
  match Prim2SF x with
  | S754_finite s m e =>
      if (0 <=? e)%Z then x
      else
        let r := Z.shiftl (2 * Zpos m + Z.shiftl 1 (- e))%Z (e - 1)%Z in
        if (r =? 0)%Z then (if s then neg_zero else zero)
        else of_Z (cond_Zopp s r)
  | _ => x
  end.

End TunerEngine.

(* ================================================================= *)
(** ** The formulas of the design document *)

Module Design.

Import PitchDetector.

(** [sigma f n] is the sum of [f 0], ..., [f (n - 1)], accumulated from the
    left starting at 0, as a loop with an accumulator does. *)
Fixpoint sigma (f : nat -> float) (n : nat) : float :=
  match n with
  | O => 0
  | S n' => sigma f n' + f n'
  end.

(** The arithmetic mean of the [n] first values of [f]. *)
Definition average (f : nat -> float) (n : nat) : float :=
  sigma f n / of_Z (Z.of_nat n).

(** *** Preprocessor

    [y[0] = x[0]; y[i] = alpha * y[i-1] + (1 - alpha) * x[i]], every value
    being stored as a binary32 number. *)
Fixpoint iir (x : list float) (i : nat) : float :=
  match i with
  | O => fround (nth 0 x undefined)
  | S i' => fround (alpha * iir x i' + (1 - alpha) * nth i x undefined)
  end.

(** The filtered signal with its arithmetic mean removed. *)
Definition filtered (x : list float) (i : nat) : float :=
  fround (iir x i - average (iir x) (List.length x)).

(** *** Autocorrelator *)

Definition centered (frame : list float) (i : nat) : float :=
  fround (nth i frame undefined
          - average (fun k => nth k frame undefined) (List.length frame)).

Definition sumSquares (frame : list float) : float :=
  sigma (fun i => centered frame i * centered frame i) (List.length frame).

Definition correlation (frame : list float) (L : nat) : float :=
  fround (sigma (fun i => centered frame i * centered frame (i + L))
                (List.length frame - L)
          / sumSquares frame).

(** *** Peak selector *)

(** A lag is a candidate when it is a strict local maximum. *)
Definition strictLocalMax (c : list float) (L : Z) : Prop :=
  gtb (get c L) (get c (L - 1)) = true /\ gtb (get c L) (get c (L + 1)) = true.

(** The state of the peak search after the scan of the lags
    [a, ..., b - 1], and the candidates among these lags. *)
Definition peakSearch (c : list float) (a b : Z) : peaks :=
  fold_left (peak_step c) (zrange a b) no_peak.

Definition candidate (c : list float) (a b L : Z) : Prop :=
  (a <= L < b)%Z /\ strictLocalMax c L.

(** What the scan has established once it has visited the lags [seen]:
    either no candidate had a positive correlation, or [bestPeriod] is a
    candidate whose correlation no other candidate exceeds. *)
Definition peak_inv (c : list float) (seen : list Z) (st : peaks) : Prop :=
  (bestPeriod st = 0%Z /\ maxCorrelation st = 0
   /\ forall L, In L seen -> strictLocalMax c L -> (0 <? get c L) = false)
  \/
  (In (bestPeriod st) seen /\ strictLocalMax c (bestPeriod st)
   /\ maxCorrelation st = get c (bestPeriod st)
   /\ (0 <? maxCorrelation st) = true
   /\ forall L, In L seen -> strictLocalMax c L ->
        (maxCorrelation st <? get c L) = false).

(** Two arrays of correlations with a single peak: at lag 300 and at lag
    630 (the period of [minFrequency] at 44100 Hz). *)
Definition lone_peak_300 : list float :=
  repeat 0 299 ++ [0.5; 0.75; 0.5] ++ repeat 0 398.

Definition lone_peak_630 : list float :=
  repeat 0 630 ++ [0.75] ++ repeat 0 9.

(** The confidence of the design document: the dominance factor is 1 when
    there is no runner-up. *)
Definition confidence_as_designed (d : t) (maxCorrelation secondBestCorrelation : float)
    (correlations : list float) (bestPeriod : Z) : float :=
  let dominance :=
    if secondBestCorrelation =? 0 then 1
    else Math_min ((maxCorrelation / secondBestCorrelation) / 2) 1 in
  let c := maxCorrelation * dominance in
  let c := if sampleRate d / of_Z bestPeriod <? 150 then c * 1.1 else c in
  let c := c * (1 + 0.2 * calculateConsistencyBonus correlations bestPeriod) in
  Math_min c 1.

(** The confidence that the code computes: without a runner-up the ratio
    is the best correlation itself. *)
Definition dominance (maxCorrelation secondBestCorrelation : float) : float :=
  Math_min
    ((if 0 <? secondBestCorrelation
      then maxCorrelation / secondBestCorrelation
      else maxCorrelation) / 2) 1.

Definition lowStringBoost (d : t) (bestPeriod : Z) : float :=
  if sampleRate d / of_Z bestPeriod <? 150 then 1.1 else 1.

(** *** The indices that the peak selector reads *)

(** The reads of one round of the scan: [correlations[period]],
    [correlations[period - 1]] and, when the first comparison holds,
    [correlations[period + 1]]. *)
Definition scan_reads (correlations : list float) (period : Z) : list Z :=
  period :: (period - 1)%Z ::
  (if gtb (get correlations period) (get correlations (period - 1))
   then [(period + 1)%Z] else []).

(** The reads of one round of the loop over the harmonics. *)
Definition harmonic_reads (correlations : list float) (bestPeriod harmonic : Z) : list Z :=
  let harmonicPeriod := Math_floor (of_Z bestPeriod / of_Z harmonic) in
  if igeb_Z harmonicPeriod windowSize
     && iltb_Z harmonicPeriod (Z.of_nat (List.length correlations) - windowSize)
  then
    match harmonicPeriod with
    | IInt hp => [hp; (hp - 1)%Z; (hp + 1)%Z]
    | _ => []
    end
  else [].

(** The reads of [parabolicInterpolation]. *)
Definition interpolation_reads (correlations : list float) (peakIndex : Z) : list Z :=
  if ((peakIndex <=? 0) || (Z.of_nat (List.length correlations) - 1 <=? peakIndex))%Z
  then []
  else [(peakIndex - 1)%Z; peakIndex; (peakIndex + 1)%Z].

(** All the reads of [findFundamentalFrequencyWithConfidence] when the scan
    visits [periods]. *)
Definition selector_reads (correlations : list float) (periods : list Z) : list Z :=
  let st := fold_left (peak_step correlations) periods no_peak in
  flat_map (scan_reads correlations) periods
  ++ (if (maxCorrelation st <? threshold) || (bestPeriod st =? 0)%Z then []
      else flat_map (harmonic_reads correlations (bestPeriod st)) [2; 3; 4]%Z
           ++ interpolation_reads correlations (bestPeriod st)).

Definition in_bounds (correlations : list float) (i : Z) : Prop :=
  (0 <= i < Z.of_nat (List.length correlations))%Z.

(** *** Detector configuration

    The invariant of the configuration:
    [0 < minFrequency < maxFrequency < sampleRate / 2]. *)
Definition valid_config (d : t) : Prop :=
  (0 <? minFrequency (config d)) = true
  /\ (minFrequency (config d) <? maxFrequency (config d)) = true
  /\ (maxFrequency (config d) <? sampleRate d / 2) = true.

Definition default_detector : t := new 44100 DEFAULT_AUDIO_CONFIG.

(** *** Hostile frames *)

(** A number that is NaN or an infinity. *)
Definition nonfinite (x : float) : bool :=
  match Prim2SF x with
  | S754_nan | S754_infinity _ => true
  | _ => false
  end.

End Design.


(* ================================================================= *)
(** ** Rounding, on integers

    The rounding of IEEE-754 arithmetic ([binary_round_aux] of the
    specification of the floating-point numbers) works on a mantissa and a
    location of the exact value between that mantissa and the next one.
    The two are here one integer, the code [4 * m + c]: [c] is 0 when the
    value is the mantissa, 2 when it is half-way to the next one, and 1 or
    3 when it is below or above that. *)

Local Open Scope Z_scope.

Definition loc_code (l : location) : Z :=
  match l with
  | loc_Exact => 0
  | loc_Inexact Lt => 1
  | loc_Inexact Eq => 2
  | loc_Inexact Gt => 3
  end.

Definition code (m : Z) (l : location) : Z := 4 * m + loc_code l.

Definition rcode (mrs : shr_record) : Z :=
  4 * shr_m mrs + (if shr_r mrs then 2 else 0) + (if shr_s mrs then 1 else 0).

(** one shift to the right, on codes *)
Definition halve (C : Z) : Z := 2 * (C / 4) + (if C mod 4 =? 0 then 0 else 1).

Definition rne (C : Z) : Z :=
  C / 4 + (if (C mod 4 =? 3) || ((C mod 4 =? 2) && Z.odd (C / 4)) then 1 else 0).

Definition pack (prec emax : Z) (sx : bool) (m e : Z) : spec_float :=
  match m with
  | 0 => S754_zero sx
  | Zpos p => if e <=? emax - prec then S754_finite sx p e else S754_infinity sx
  | Zneg _ => S754_nan
  end.

Definition canon (prec emax m e : Z) : Prop :=
  0 <= m < 2 ^ prec /\ SpecFloat.emin prec emax <= e
  /\ (2 ^ (prec - 1) <= m \/ e = SpecFloat.emin prec emax).

(** [A * 2^a <= B * 2^b], for exponents of any sign. *)
Definition dle (A a B b : Z) : Prop :=
  A * 2 ^ (a - Z.min a b) <= B * 2 ^ (b - Z.min a b).

(** The number 2. *)
Definition SF_two : spec_float := S754_finite false 4503599627370496 (-51).

Local Close Scope Z_scope.

(* ================================================================= *)
(** ** [AudioManager.ts] *)

Module AudioManager.

(** The fields that [getAudioData] tests: the configuration, the two flags,
    and whether the analyser node and the buffer exist. *)
Record t : Type := {
  config : AudioConfig;
  isInitialized : bool;
  isRecording : bool;
  analyser : bool;
  audioBuffer : bool
}.

(** [hasMinimumVolume]: the root of the mean of the squares of the samples
    is above the threshold of the configuration. *)
Definition hasMinimumVolume (m : t) (buffer : list float) : bool :=
  let sum := fold_left (fun sum b => sum + b * b) buffer 0 in
  let rms := PrimFloat.sqrt (sum / of_Z (Z.of_nat (List.length buffer))) in
  gtb rms (cfg_minVolumeThreshold (config m)).

(** [getAudioData]; [timeDomainData] is what
    [analyser.getFloatTimeDomainData] writes into the buffer. *)
Definition getAudioData (m : t) (timeDomainData : list float) : list float :=
  if negb (isInitialized m) || negb (isRecording m) || negb (analyser m)
     || negb (audioBuffer m)
  then []
  else if negb (hasMinimumVolume m timeDomainData) then []
  else timeDomainData.

End AudioManager.

(* ================================================================= *)
(** ** [main.ts] *)

Module GuitarTunerApp.

(** [calculateRMS]. *)
Definition calculateRMS (buffer : list float) : float :=
  let sum := fold_left (fun sum b => sum + b * b) buffer 0 in
  PrimFloat.sqrt (sum / of_Z (Z.of_nat (List.length buffer))).

(** The volume below which the processing loop warns instead of
    detecting: [rms < 0.005]. *)
Definition lowVolume (audioData : list float) : bool :=
  calculateRMS audioData <? 0.005.

(** The two fields behind [shouldUpdateUI]. *)
Record stability : Type := {
  lastStableNote : string;
  stableNoteCount : Z
}.

Definition stableNoteThreshold : Z := 10.

(** [n++] on a count: exact below 2^53, where the numbers end to be
    consecutive. *)
Definition increment (n : Z) : Z :=
  if (n <? 9007199254740992)%Z then (n + 1)%Z else n.

(** [shouldUpdateUI]; [currentNote] is the key of the reading, the string
    [`${noteData.note}_${Math.round(noteData.cents / 2) * 2}`].  The result
    is the new state and the returned flag. *)
Definition shouldUpdateUI (st : stability) (currentNote : string) : stability * bool :=
  if String.eqb (lastStableNote st) currentNote then
    let st' := {| lastStableNote := lastStableNote st;
                  stableNoteCount := increment (stableNoteCount st) |} in
    if (stableNoteThreshold <? stableNoteCount st')%Z
    then (st', (Z.rem (stableNoteCount st') 5 =? 0)%Z)
    else (st', true)
  else
    ({| lastStableNote := currentNote; stableNoteCount := 1 |}, true).

(** [n] readings in a row with the key [currentNote]: the final state and
    the flags returned, the last one first. *)
Fixpoint readings (st : stability) (currentNote : string) (n : nat)
  : stability * list bool :=
  match n with
  | O => (st, [])
  | S n' =>
      let '(st1, flags) := readings st currentNote n' in
      let '(st2, flag) := shouldUpdateUI st1 currentNote in
      (st2, flag :: flags)
  end.

End GuitarTunerApp.

(* ================================================================= *)
(** ** [UIController.ts] *)

Module UIController.

(** [Math.max] of two numbers: NaN if either is NaN, and +0 above -0. *)
Definition Math_max (a b : float) : float :=
  if is_nan a || is_nan b then nan
  else if a <? b then b
  else if b <? a then a
  else if get_sign a then b else a.

(** [updateMeter]: the cents clamped to [-50, 50], and the position of the
    needle in percent of the width of the meter. *)
Definition clampedCents (cents : float) : float :=
  Math_max (-50) (Math_min 50 cents).

Definition percentage (cents : float) : float :=
  ((clampedCents cents + 50) / 100) * 100.

(** The three colours of the needle. *)
Inductive needle : Type :=
| tuning_perfect
| tuning_off
| tuning_very_off.

Definition needleColor (cents : float) : needle :=
  if Math_abs (clampedCents cents) <=? 5 then tuning_perfect
  else if Math_abs (clampedCents cents) <=? 15 then tuning_off
  else tuning_very_off.

(** [updateTuningState]: the class that the display is given. *)
Inductive tuningState : Type :=
| in_tune
| flat
| sharp.

Definition tuningStateOf (noteData : NoteData) : tuningState :=
  if nd_isInTune noteData then in_tune
  else if nd_cents noteData <? 0 then flat
  else sharp.

End UIController.

(* ================================================================= *)
(** ** Frames of zeros *)

(** A number that is a zero or NaN. *)
Definition zero_or_nan (x : float) : bool :=
  match Prim2SF x with
  | S754_zero _ | S754_nan => true
  | _ => false
  end.

(* ================================================================= *)
(** ** A test signal *)

(** A frame of [n] samples of a square wave with a period of 128 samples
    (344.5 Hz at 44100 Hz). *)
Definition square_wave (n : nat) : list float :=
  map (fun k => if (Nat.modulo k 128 <? 64)%nat then 0.5 else -0.5) (seq 0 n).

(* ================================================================= *)
(** * Properties *)

Import PitchDetector TunerEngine Design.

(** ** Accumulating loops *)

Lemma fold_left_seq_sigma (f : nat -> float) (n : nat) :
  fold_left (fun s i => s + f i) (seq 0 n) 0 = sigma f n.
Proof.
  induction n as [|n IH]; [reflexivity|].
  rewrite seq_S, fold_left_app, IH. reflexivity.
Qed.

Lemma sigma_ext (f g : nat -> float) (n : nat) :
  (forall i, (i < n)%nat -> f i = g i) -> sigma f n = sigma g n.
Proof.
  induction n as [|n IH]; intros H; [reflexivity|].
  cbn [sigma]. rewrite IH by (intros; apply H; lia). now rewrite H by lia.
Qed.

Lemma fold_left_sigma (g : float -> float) (l : list float) :
  fold_left (fun s v => s + g v) l 0
  = sigma (fun i => g (nth i l undefined)) (List.length l).
Proof.
  induction l as [|x l IH] using rev_ind; [reflexivity|].
  rewrite fold_left_app, length_app, Nat.add_1_r. cbn [fold_left sigma].
  rewrite IH, app_nth2, Nat.sub_diag by lia. cbn [nth].
  f_equal. apply sigma_ext. intros i Hi. now rewrite app_nth1.
Qed.

Lemma sum_sigma (l : list float) :
  JS.sum l = sigma (fun i => nth i l undefined) (List.length l).
Proof. exact (fold_left_sigma (fun v => v) l). Qed.

Lemma mean_average (l : list float) :
  mean l = average (fun i => nth i l undefined) (List.length l).
Proof. unfold mean, average. now rewrite sum_sigma. Qed.

Lemma nth_map_in (A B : Type) (g : A -> B) (l : list A) (i : nat) (da : A) (db : B) :
  (i < List.length l)%nat -> nth i (map g l) db = g (nth i l da).
Proof.
  intros Hi. rewrite (nth_indep _ db (g da)) by now rewrite length_map.
  apply map_nth.
Qed.

(** ** Autocorrelator *)

Lemma lagSum_sigma (c : list float) (L : nat) :
  lagSum c L
  = sigma (fun i => nth i c undefined * nth (i + L) c undefined) (List.length c - L).
Proof. unfold lagSum. apply fold_left_seq_sigma. Qed.

Lemma centered_nth (frame : list float) (i : nat) :
  (i < List.length frame)%nat ->
  nth i (map (fun v => fround (v - mean frame)) frame) undefined = centered frame i.
Proof.
  intros Hi. rewrite (nth_map_in _ _ _ _ _ undefined) by exact Hi.
  unfold centered. now rewrite mean_average.
Qed.

Lemma sumSquares_code (frame : list float) :
  fold_left (fun s c => s + c * c) (map (fun v => fround (v - mean frame)) frame) 0
  = sumSquares frame.
Proof.
  rewrite (fold_left_sigma (fun c => c * c)), length_map.
  apply sigma_ext. intros i Hi. now rewrite centered_nth.
Qed.

Lemma autocorrelate_unfold (frame : list float) :
  autocorrelate frame
  = if sumSquares frame =? 0 then repeat 0 (List.length frame / 2)
    else map (fun lag => correlation frame lag) (seq 0 (List.length frame / 2)).
Proof.
  unfold autocorrelate. rewrite sumSquares_code.
  destruct (sumSquares frame =? 0); [reflexivity|].
  apply map_ext_in. intros L HL. apply in_seq in HL.
  assert (HN : (L < List.length frame)%nat).
  { pose proof (Nat.Div0.div_le_upper_bound (List.length frame) 2 (List.length frame)).
    pose proof (Nat.Div0.mul_div_le (List.length frame) 2). lia. }
  unfold correlation. f_equal. f_equal.
  rewrite lagSum_sigma, length_map. apply sigma_ext. intros i Hi.
  now rewrite !centered_nth by lia.
Qed.

(** C5. For a frame of length N, [autocorrelate] returns an array of length
    floor(N/2); when the sum of the squares of the mean-centred samples is
    zero the array is all zeros; otherwise its entry at every lag
    L < floor(N/2) is the sum over i < N - L of centered[i] * centered[i+L]
    divided by that sum of squares (sums accumulated from the left, the
    centred samples and the entries stored as binary32 numbers). *)
Theorem C5_autocorrelate (frame : list float) :
  let N := List.length frame in
  List.length (autocorrelate frame) = (N / 2)%nat
  /\ ((sumSquares frame =? 0) = true ->
      autocorrelate frame = repeat 0 (N / 2)%nat
      /\ Forall (fun v => v = 0) (autocorrelate frame))
  /\ ((sumSquares frame =? 0) = false ->
      forall L, (L < N / 2)%nat ->
        nth L (autocorrelate frame) undefined
        = fround (sigma (fun i => centered frame i * centered frame (i + L)) (N - L)
                  / sumSquares frame)).
Proof.
  intros N. rewrite autocorrelate_unfold. repeat split.
  - destruct (sumSquares frame =? 0);
      [apply repeat_length | now rewrite length_map, length_seq].
  - now rewrite H.
  - rewrite H. apply Forall_forall. intros v Hv. now apply repeat_spec in Hv.
  - intros H L HL. rewrite H.
    rewrite (nth_map_in _ _ _ _ _ 0%nat) by now rewrite length_seq.
    rewrite seq_nth by exact HL. reflexivity.
Qed.

(** ** Preprocessor *)

Lemma skipn_cons_nth (A : Type) (l : list A) (n : nat) (a d : A) (r : list A) :
  skipn n l = a :: r -> nth n l d = a /\ skipn (S n) l = r.
Proof.
  revert l. induction n as [|n IH]; intros [|x l] H; cbn in *; try discriminate.
  - now inversion H.
  - now apply IH.
Qed.

Lemma lowpass_from_nth (x rest : list float) (k : nat) :
  skipn (S k) x = rest ->
  forall j, (j < List.length rest)%nat ->
    nth j (lowpass_from (iir x k) rest) undefined = iir x (S k + j).
Proof.
  revert k. induction rest as [|a rest IH]; intros k Hk j Hj; [cbn in Hj; lia|].
  destruct (skipn_cons_nth _ _ _ _ undefined _ Hk) as [Ha Hr].
  cbn [lowpass_from].
  assert (Hy : fround (alpha * iir x k + (1 - alpha) * a) = iir x (S k))
    by (cbn [iir]; now rewrite Ha).
  rewrite Hy. destruct j as [|j]; cbn [nth].
  - now rewrite Nat.add_0_r.
  - rewrite (IH (S k) Hr j) by (cbn in Hj; lia). f_equal. lia.
Qed.

Lemma lowpass_from_length (prev : float) (rest : list float) :
  List.length (lowpass_from prev rest) = List.length rest.
Proof.
  revert prev. induction rest as [|a rest IH]; intros prev; cbn; [reflexivity|].
  now rewrite IH.
Qed.

Lemma lowpass_length (x : list float) : List.length (lowpass x) = List.length x.
Proof. destruct x; cbn; [reflexivity|]. now rewrite lowpass_from_length. Qed.

Lemma lowpass_nth (x : list float) (i : nat) :
  (i < List.length x)%nat -> nth i (lowpass x) undefined = iir x i.
Proof.
  destruct x as [|x0 rest]; intros Hi; [cbn in Hi; lia|].
  cbn [lowpass]. destruct i as [|i]; [reflexivity|]. cbn [nth].
  change (fround x0) with (iir (x0 :: rest) 0).
  rewrite (lowpass_from_nth (x0 :: rest) rest 0 eq_refl i) by (cbn in Hi; lia).
  reflexivity.
Qed.

Lemma applyGuitarFrequencyFilter_nth (x : list float) (i : nat) :
  (i < List.length x)%nat ->
  nth i (applyGuitarFrequencyFilter x) undefined = filtered x i.
Proof.
  intros Hi. unfold applyGuitarFrequencyFilter, filtered.
  rewrite (nth_map_in _ _ _ _ _ undefined) by now rewrite lowpass_length.
  rewrite lowpass_nth by exact Hi. rewrite mean_average, lowpass_length.
  unfold average. do 3 f_equal. apply sigma_ext. intros k Hk. now apply lowpass_nth.
Qed.

(** C6 (as the code has it). The preprocessing filter returns a frame of the
    same length: the low-pass y[0] = x[0],
    y[i] = 0.8 * y[i-1] + (1 - 0.8) * x[i] followed by the subtraction of the
    arithmetic mean of the filtered signal from every sample, each value
    stored as a binary32 number.  It is the identity on the empty frame; a
    frame of one sample x0 becomes the one sample x0 - x0 / 1, so [1] and
    [0.5] become [0]. *)
Theorem C6_filter (x : list float) :
  List.length (applyGuitarFrequencyFilter x) = List.length x
  /\ (forall i, (i < List.length x)%nat ->
        nth i (applyGuitarFrequencyFilter x) undefined
        = fround (iir x i - sigma (iir x) (List.length x)
                            / of_Z (Z.of_nat (List.length x))))
  /\ applyGuitarFrequencyFilter [] = []
  /\ (forall x0, applyGuitarFrequencyFilter [x0]
                 = [fround (fround x0 - (0 + fround x0) / 1)])
  /\ applyGuitarFrequencyFilter [1] = [0]
  /\ applyGuitarFrequencyFilter [0.5] = [0].
Proof.
  repeat split.
  - unfold applyGuitarFrequencyFilter. now rewrite length_map, lowpass_length.
  - intros i Hi. now rewrite applyGuitarFrequencyFilter_nth.
Qed.

(** C6, refuted as stated: the filter is not the identity on frames of
    length 1; the frame [1] is turned into [0]. *)
Lemma C6_length_one_not_identity :
  applyGuitarFrequencyFilter [1] = [0] /\ applyGuitarFrequencyFilter [1] <> [1].
Proof. split; [reflexivity|]. vm_compute. intros H. discriminate H. Qed.

(** ** Sub-sample refiner *)

Lemma get_nth (c : list float) (i : Z) :
  (0 <= i < Z.of_nat (List.length c))%Z -> get c i = nth (Z.to_nat i) c undefined.
Proof.
  intros [H0 H1]. unfold get.
  apply Z.leb_le in H0. apply Z.ltb_lt in H1. now rewrite H0, H1.
Qed.

(** C7. For every correlations array and peak index p, the refiner returns
    sampleRate / p when p is a boundary index (p <= 0 or p >= len - 1) or
    when a = (y1 - 2*y2 + y3)/2 equals 0 for the neighbours
    y1 = correlations[p-1], y2 = correlations[p], y3 = correlations[p+1];
    otherwise it returns sampleRate / (p + offset) with offset = -b/(2a) and
    b = (y3 - y1)/2. *)
Theorem C7_parabolicInterpolation (d : PitchDetector.t) (correlations : list float) (p : Z) :
  let len := Z.of_nat (List.length correlations) in
  let y1 := nth (Z.to_nat (p - 1)) correlations undefined in
  let y2 := nth (Z.to_nat p) correlations undefined in
  let y3 := nth (Z.to_nat (p + 1)) correlations undefined in
  let a := (y1 - 2 * y2 + y3) / 2 in
  let b := (y3 - y1) / 2 in
  ((p <= 0 \/ len - 1 <= p)%Z ->
     parabolicInterpolation d correlations p = sampleRate d / of_Z p)
  /\ ((0 < p < len - 1)%Z -> (a =? 0) = true ->
     parabolicInterpolation d correlations p = sampleRate d / of_Z p)
  /\ ((0 < p < len - 1)%Z -> (a =? 0) = false ->
     parabolicInterpolation d correlations p
     = sampleRate d / (of_Z p + - b / (2 * a))).
Proof.
  intros len y1 y2 y3 a b. unfold parabolicInterpolation. fold len.
  repeat split.
  - intros H.
    assert (Hb : ((p <=? 0) || (len - 1 <=? p))%Z = true).
    { apply orb_true_iff. destruct H; [left; now apply Z.leb_le | right; now apply Z.leb_le]. }
    now rewrite Hb.
  - intros H Ha.
    assert (Hb : ((p <=? 0) || (len - 1 <=? p))%Z = false).
    { apply orb_false_iff. split; apply Z.leb_gt; lia. }
    rewrite Hb, !get_nth by (fold len; lia). fold y1 y2 y3 a. now rewrite Ha.
  - intros H Ha.
    assert (Hb : ((p <=? 0) || (len - 1 <=? p))%Z = false).
    { apply orb_false_iff. split; apply Z.leb_gt; lia. }
    rewrite Hb, !get_nth by (fold len; lia). fold y1 y2 y3 a b. now rewrite Ha.
Qed.

(** C7 at work: boundary indices, a flat top and a proper parabola. *)
Lemma C7_parabolicInterpolation_witness :
  parabolicInterpolation default_detector [0; 0.5; 1; 0.5; 0] 0 = infinity
  /\ parabolicInterpolation default_detector [0; 0.5; 1; 0.5; 0] 4 = 11025
  /\ parabolicInterpolation default_detector [0; 0.5; 0.5; 0.5; 0] 2 = 22050
  /\ parabolicInterpolation default_detector [0; 0.5; 1; 0.75; 0] 2 = 44100 / (2 + 0.125 / 0.75).
Proof.
  pose proof (C7_parabolicInterpolation default_detector [0; 0.5; 1; 0.5; 0] 0) as H0.
  pose proof (C7_parabolicInterpolation default_detector [0; 0.5; 1; 0.5; 0] 4) as H4.
  pose proof (C7_parabolicInterpolation default_detector [0; 0.5; 0.5; 0.5; 0] 2) as Hf.
  pose proof (C7_parabolicInterpolation default_detector [0; 0.5; 1; 0.75; 0] 2) as Hp.
  cbv zeta in H0, H4, Hf, Hp.
  split; [|split; [|split]].
  - rewrite (proj1 H0) by (left; lia). reflexivity.
  - rewrite (proj1 H4) by (right; cbn; lia). reflexivity.
  - rewrite (proj1 (proj2 Hf)) by (cbn; first [lia | reflexivity]). reflexivity.
  - rewrite (proj2 (proj2 Hp)) by (cbn; first [lia | reflexivity]). reflexivity.
Defined.

(** ** The order of the numbers *)

Ltac cmp_cases :=
  repeat match goal with
  | |- context [Pos.compare_cont Eq ?a ?b] =>
      change (Pos.compare_cont Eq a b) with (Pos.compare a b)
  | H : context [Pos.compare_cont Eq ?a ?b] |- _ =>
      change (Pos.compare_cont Eq a b) with (Pos.compare a b) in H
  | |- context [(?a ?= ?b)%Z] => destruct (Z.compare_spec a b)
  | |- context [(?a ?= ?b)%positive] => destruct (Pos.compare_spec a b)
  | H : context [(?a ?= ?b)%Z] |- _ => destruct (Z.compare_spec a b)
  | H : context [(?a ?= ?b)%positive] |- _ => destruct (Pos.compare_spec a b)
  end.

Ltac sf_order :=
  cbn; try discriminate; try reflexivity; intros;
  cmp_cases; cbn in *; try discriminate; try reflexivity; try lia.

Lemma SFltb_trans (a b c : spec_float) :
  SFltb a b = true -> SFltb b c = true -> SFltb a c = true.
Proof.
  unfold SFltb.
  destruct a as [sa|sa| |sa ma ea], b as [sb|sb| |sb mb eb], c as [sc|sc| |sc mc ec];
    try destruct sa; try destruct sb; try destruct sc; sf_order.
Qed.

Lemma SFleb_ltb_trans (a b c : spec_float) :
  SFleb a b = true -> SFltb b c = true -> SFltb a c = true.
Proof.
  unfold SFltb, SFleb.
  destruct a as [sa|sa| |sa ma ea], b as [sb|sb| |sb mb eb], c as [sc|sc| |sc mc ec];
    try destruct sa; try destruct sb; try destruct sc; sf_order.
Qed.

Lemma SFleb_ltb_false (a b : spec_float) :
  SFleb a b = true -> SFltb b a = false.
Proof.
  unfold SFltb, SFleb.
  destruct a as [sa|sa| |sa ma ea], b as [sb|sb| |sb mb eb];
    try destruct sa; try destruct sb; sf_order.
Qed.

Lemma SFltb_irrefl (a : spec_float) : SFltb a a = false.
Proof.
  unfold SFltb. destruct a as [sa|sa| |sa ma ea]; try destruct sa; cbn; try reflexivity;
    now rewrite Z.compare_refl, Pos.compare_cont_refl.
Qed.

Lemma ltb_trans (a b c : float) :
  (a <? b) = true -> (b <? c) = true -> (a <? c) = true.
Proof. rewrite !FloatAxioms.ltb_spec. apply SFltb_trans. Qed.

Lemma leb_ltb_trans (a b c : float) :
  (a <=? b) = true -> (b <? c) = true -> (a <? c) = true.
Proof. rewrite !FloatAxioms.ltb_spec, FloatAxioms.leb_spec. apply SFleb_ltb_trans. Qed.

Lemma leb_ltb_false (a b : float) : (a <=? b) = true -> (b <? a) = false.
Proof. rewrite FloatAxioms.ltb_spec, FloatAxioms.leb_spec. apply SFleb_ltb_false. Qed.

Lemma ltb_irrefl (a : float) : (a <? a) = false.
Proof. rewrite FloatAxioms.ltb_spec. apply SFltb_irrefl. Qed.

(** Nothing above [b] is below something that is not above [a] < [b]. *)
Lemma ltb_false_trans (a b c : float) :
  (a <? c) = false -> (a <? b) = true -> (b <? c) = false.
Proof.
  intros Hac Hab. destruct (b <? c) eqn:Hbc; [|reflexivity].
  now rewrite (ltb_trans _ _ _ Hab Hbc) in Hac.
Qed.

(** ** Rounding

    [binary_round_aux] is monotone, and exact on the representable
    numbers. *)

Local Open Scope Z_scope.

Lemma iter_pos_nat (A : Type) (f : A -> A) (p : positive) (x : A) :
  iter_pos f p x = Nat.iter (Pos.to_nat p) f x.
Proof.
  revert x. induction p as [p IH|p IH|]; intros x; cbn [iter_pos].
  - rewrite !IH, Pos2Nat.inj_xI, Nat.iter_succ_r.
    replace (2 * Pos.to_nat p)%nat with (Pos.to_nat p + Pos.to_nat p)%nat by lia.
    now rewrite Nat.iter_add.
  - rewrite !IH, Pos2Nat.inj_xO.
    replace (2 * Pos.to_nat p)%nat with (Pos.to_nat p + Pos.to_nat p)%nat by lia.
    now rewrite Nat.iter_add.
  - reflexivity.
Qed.

Lemma rcode_shr_1 (mrs : shr_record) :
  0 <= shr_m mrs -> rcode (shr_1 mrs) = halve (rcode mrs) /\ 0 <= shr_m (shr_1 mrs).
Proof.
  destruct mrs as [m r s]. cbn [shr_m]. intros Hm. unfold halve, rcode.
  destruct m as [|[p|p|]|p]; try lia; destruct r, s; cbn [shr_1 shr_m shr_r shr_s orb];
    split; try lia.
  all: try (match goal with |- context [(?C / 4)] =>
         let q := fresh "q" in let r := fresh "r" in
         pose proof (Z.div_mod C 4 ltac:(lia)); pose proof (Z.mod_pos_bound C 4 ltac:(lia)) end).
  all: destruct (_ mod 4 =? 0) eqn:E; [apply Z.eqb_eq in E | apply Z.eqb_neq in E]; lia.
Qed.

Ltac zeqb :=
  repeat match goal with
  | |- context [(?a =? ?b)] =>
      let E := fresh "E" in
      destruct (a =? b) eqn:E; [apply Z.eqb_eq in E | apply Z.eqb_neq in E]
  end.

Lemma halve_mono (C D : Z) : C <= D -> halve C <= halve D.
Proof.
  intros H. unfold halve.
  pose proof (Z.div_mod C 4 ltac:(lia)). pose proof (Z.mod_pos_bound C 4 ltac:(lia)).
  pose proof (Z.div_mod D 4 ltac:(lia)). pose proof (Z.mod_pos_bound D 4 ltac:(lia)).
  zeqb; lia.
Qed.

Lemma halve_div4 (C : Z) : halve C / 4 = C / 4 / 2.
Proof.
  unfold halve. set (x := C / 4). set (b := if C mod 4 =? 0 then 0 else 1).
  assert (Hb : 0 <= b <= 1) by (unfold b; destruct (C mod 4 =? 0); lia).
  pose proof (Z.div_mod x 2 ltac:(lia)). pose proof (Z.mod_pos_bound x 2 ltac:(lia)).
  symmetry. apply Z.div_unique with (r := 2 * (x mod 2) + b); lia.
Qed.

Lemma halve_nonneg (C : Z) : 0 <= C -> 0 <= halve C.
Proof.
  intros H. unfold halve. pose proof (Z.div_pos C 4 H ltac:(lia)).
  destruct (C mod 4 =? 0); lia.
Qed.

Lemma halve_exact (x : Z) : halve (4 * (2 * x)) = 4 * x.
Proof.
  unfold halve. replace (4 * (2 * x)) with ((2 * x) * 4) by lia.
  rewrite Z.div_mul, Z.mod_mul by lia. change (0 =? 0) with true. cbv iota. lia.
Qed.

Lemma halves_mono (n : nat) (C D : Z) : C <= D -> Nat.iter n halve C <= Nat.iter n halve D.
Proof. intros H. induction n as [|n IH]; [exact H | rewrite !Nat.iter_succ; now apply halve_mono]. Qed.

Lemma halves_nonneg (n : nat) (C : Z) : 0 <= C -> 0 <= Nat.iter n halve C.
Proof. intros H. induction n as [|n IH]; [exact H | rewrite Nat.iter_succ; now apply halve_nonneg]. Qed.

Lemma halves_div4 (n : nat) (C : Z) : Nat.iter n halve C / 4 = C / 4 / 2 ^ Z.of_nat n.
Proof.
  induction n as [|n IH].
  - cbn. now rewrite Z.div_1_r.
  - rewrite Nat.iter_succ, halve_div4, IH, Nat2Z.inj_succ, Z.pow_succ_r by lia.
    rewrite Z.div_div by lia. f_equal. lia.
Qed.

Lemma halves_exact (n : nat) (x : Z) : Nat.iter n halve (4 * (x * 2 ^ Z.of_nat n)) = 4 * x.
Proof.
  revert x. induction n as [|n IH]; intros x.
  - change (Z.of_nat 0) with 0. rewrite Z.pow_0_r, Z.mul_1_r. reflexivity.
  - rewrite Nat.iter_succ_r.
    replace (4 * (x * 2 ^ Z.of_nat (S n))) with (4 * (2 * (x * 2 ^ Z.of_nat n)))
      by (rewrite Nat2Z.inj_succ, Z.pow_succ_r by lia; lia).
    now rewrite halve_exact, IH.
Qed.

Lemma rcode_iter (n : nat) (mrs : shr_record) :
  0 <= shr_m mrs ->
  rcode (Nat.iter n shr_1 mrs) = Nat.iter n halve (rcode mrs)
  /\ 0 <= shr_m (Nat.iter n shr_1 mrs).
Proof.
  intros Hm. induction n as [|n [IH1 IH2]]; [now split|]. rewrite !Nat.iter_succ.
  destruct (rcode_shr_1 _ IH2) as [H1 H2]. split; [now rewrite H1, IH1 | exact H2].
Qed.

Lemma rcode_of_loc (m : Z) (l : location) : rcode (shr_record_of_loc m l) = code m l.
Proof. destruct l as [|[]]; unfold rcode, code; cbn; lia. Qed.

Lemma shr_m_of_loc (m : Z) (l : location) : shr_m (shr_record_of_loc m l) = m.
Proof. now destruct l as [|[]]. Qed.

Lemma rcode_div4 (mrs : shr_record) : rcode mrs / 4 = shr_m mrs.
Proof.
  unfold rcode. symmetry.
  apply Z.div_unique with (r := (if shr_r mrs then 2 else 0) + (if shr_s mrs then 1 else 0)).
  - left. destruct (shr_r mrs), (shr_s mrs); lia.
  - lia.
Qed.

Lemma rne_round (mrs : shr_record) :
  round_nearest_even (shr_m mrs) (loc_of_shr_record mrs) = rne (rcode mrs).
Proof.
  unfold rne. rewrite rcode_div4.
  assert (Hmod : rcode mrs mod 4 = (if shr_r mrs then 2 else 0) + (if shr_s mrs then 1 else 0)).
  { unfold rcode. symmetry. apply Z.mod_unique with (q := shr_m mrs).
    - left. destruct (shr_r mrs), (shr_s mrs); lia.
    - lia. }
  rewrite Hmod. destruct mrs as [m [] []];
    cbv [round_nearest_even loc_of_shr_record shr_m shr_r shr_s].
  - change (2 + 1 =? 3) with true. cbv iota beta delta [orb]. reflexivity.
  - change (2 + 0 =? 3) with false. change (2 + 0 =? 2) with true.
    cbv iota beta delta [orb andb]. rewrite <- Z.negb_odd.
    destruct (Z.odd m); cbv iota beta delta [negb]; lia.
  - change (0 + 1 =? 3) with false. change (0 + 1 =? 2) with false.
    cbv iota beta delta [orb andb]. lia.
  - change (0 + 0 =? 3) with false. change (0 + 0 =? 2) with false.
    cbv iota beta delta [orb andb]. lia.
Qed.

Lemma rne_mono (C D : Z) : C <= D -> rne C <= rne D.
Proof.
  intros H. unfold rne.
  pose proof (Z.div_mod C 4 ltac:(lia)). pose proof (Z.mod_pos_bound C 4 ltac:(lia)).
  pose proof (Z.div_mod D 4 ltac:(lia)). pose proof (Z.mod_pos_bound D 4 ltac:(lia)).
  assert (Hq : C / 4 <= D / 4) by (apply Z.div_le_mono; lia).
  destruct (Z.eq_dec (C / 4) (D / 4)) as [E|E].
  - rewrite E in *.
    assert (Hr : C mod 4 <= D mod 4) by lia.
    destruct (Z.odd (D / 4)); zeqb; cbn; lia.
  - destruct ((C mod 4 =? 3) || (C mod 4 =? 2) && Z.odd (C / 4));
    destruct ((D mod 4 =? 3) || (D mod 4 =? 2) && Z.odd (D / 4)); lia.
Qed.

Lemma rne_bounds (C : Z) : C / 4 <= rne C <= C / 4 + 1.
Proof. unfold rne. destruct (_ || _); lia. Qed.

Lemma rne_exact (x : Z) : rne (4 * x) = x.
Proof.
  unfold rne. replace (4 * x) with (x * 4) by lia.
  rewrite Z.div_mul, Z.mod_mul by lia. change (0 =? 3) with false. change (0 =? 2) with false. cbv iota beta delta [orb andb]. lia.
Qed.

(* ---------- digits ---------- *)

Lemma digits2_pos_size (p : positive) : digits2_pos p = Pos.size p.
Proof. induction p; cbn; now rewrite ?IHp. Qed.

Lemma Zdigits2_bounds (m : Z) :
  0 < m -> 0 < Zdigits2 m /\ 2 ^ (Zdigits2 m - 1) <= m < 2 ^ Zdigits2 m.
Proof.
  destruct m as [|p|p]; try lia. intros _. cbn [Zdigits2]. rewrite digits2_pos_size.
  split; [lia|].
  pose proof (Pos.size_gt p) as Hgt. pose proof (Pos.size_le p) as Hle.
  apply Pos2Z.pos_lt_pos in Hgt. apply Pos2Z.pos_le_pos in Hle.
  rewrite Pos2Z.inj_pow in Hgt, Hle. change (Z.pos p~0) with (2 * Z.pos p) in Hle.
  split; [|exact Hgt].
  assert (E : 2 ^ Z.pos (Pos.size p) = 2 * 2 ^ (Z.pos (Pos.size p) - 1)).
  { rewrite <- Z.pow_succ_r by lia. f_equal. lia. }
  lia.
Qed.

Lemma pow2_lt_inv (a b : Z) : 0 <= b -> 2 ^ a < 2 ^ b -> a < b.
Proof. intros Hb H. apply (Z.pow_lt_mono_r_iff 2); lia. Qed.

Lemma Zdigits2_unique (m d : Z) : 2 ^ (d - 1) <= m < 2 ^ d -> 0 < m -> Zdigits2 m = d.
Proof.
  intros [Hlo Hhi] Hm. destruct (Zdigits2_bounds m Hm) as (Hd & Hlo' & Hhi').
  assert (Hd0 : 0 < d).
  { destruct (Z.ltb_spec 0 d); [assumption|].
    rewrite (Z.pow_neg_r 2 d) in Hhi by (destruct (Z.eq_dec d 0); [subst; cbn in Hhi|]; lia).
    lia. }
  assert (H1 : Zdigits2 m - 1 < d) by (apply pow2_lt_inv; lia).
  assert (H2 : d - 1 < Zdigits2 m) by (apply pow2_lt_inv; lia).
  lia.
Qed.

Lemma Zdigits2_mono (m1 m2 : Z) : 0 <= m1 <= m2 -> Zdigits2 m1 <= Zdigits2 m2.
Proof.
  intros [H1 H2]. destruct (Z.eq_dec m1 0) as [->|Hn].
  - destruct m2; cbn; lia.
  - destruct (Zdigits2_bounds m1 ltac:(lia)) as (Hd1 & Hlo1 & Hhi1).
    destruct (Zdigits2_bounds m2 ltac:(lia)) as (Hd2 & Hlo2 & Hhi2).
    assert (Zdigits2 m1 - 1 < Zdigits2 m2) by (apply pow2_lt_inv; lia). lia.
Qed.

Lemma Zdigits2_mul_pow (m k : Z) : 0 < m -> 0 <= k -> Zdigits2 (m * 2 ^ k) = Zdigits2 m + k.
Proof.
  intros Hm Hk. destruct (Zdigits2_bounds m Hm) as (Hd & Hlo & Hhi).
  assert (H2k : 0 < 2 ^ k) by (apply Z.pow_pos_nonneg; lia).
  apply Zdigits2_unique; [|nia].
  replace (Zdigits2 m + k - 1) with ((Zdigits2 m - 1) + k) by lia.
  rewrite !Z.pow_add_r by lia. nia.
Qed.

Lemma Zdigits2_nonneg (m : Z) : 0 <= Zdigits2 m.
Proof. destruct m; cbn; lia. Qed.

Lemma div_pow2_bounds (m d n : Z) :
  0 <= n -> n <= d - 1 -> 2 ^ (d - 1) <= m < 2 ^ d ->
  2 ^ (d - 1 - n) <= m / 2 ^ n < 2 ^ (d - n).
Proof.
  intros Hn Hd [Hlo Hhi].
  assert (H2n : 0 < 2 ^ n) by (apply Z.pow_pos_nonneg; lia).
  split.
  - apply Z.div_le_lower_bound; [lia|]. rewrite <- Z.pow_add_r by lia.
    now replace (n + (d - 1 - n)) with (d - 1) by lia.
  - apply Z.div_lt_upper_bound; [lia|]. rewrite <- Z.pow_add_r by lia.
    now replace (n + (d - n)) with d by lia.
Qed.

(* ---------- binary_round_aux ---------- *)

Lemma shr_spec (m e n : Z) (l : location) :
  0 <= m ->
  rcode (fst (shr (shr_record_of_loc m l) e n)) = Nat.iter (Z.to_nat n) halve (code m l)
  /\ snd (shr (shr_record_of_loc m l) e n) = e + Z.max 0 n
  /\ 0 <= shr_m (fst (shr (shr_record_of_loc m l) e n)).
Proof.
  intros Hm. unfold shr. destruct n as [|p|p]; cbn [fst snd Z.to_nat].
  - rewrite rcode_of_loc, shr_m_of_loc. repeat split; cbn; lia.
  - rewrite iter_pos_nat.
    destruct (rcode_iter (Pos.to_nat p) (shr_record_of_loc m l)) as [H1 H2];
      [now rewrite shr_m_of_loc|].
    rewrite H1, rcode_of_loc. split; [reflexivity|]. split; [lia | exact H2].
  - rewrite rcode_of_loc, shr_m_of_loc. repeat split; cbn; lia.
Qed.

Lemma code_div4 (m : Z) (l : location) : code m l / 4 = m.
Proof.
  unfold code. symmetry. apply Z.div_unique with (r := loc_code l); [|lia].
  left. destruct l as [|[]]; cbn; lia.
Qed.

Lemma pos_iter_xO (m d : positive) : Z.pos (Pos.iter xO m d) = Z.pos m * 2 ^ Z.pos d.
Proof.
  induction d as [|d IH] using Pos.peano_ind.
  - cbn [Pos.iter]. rewrite Z.pow_1_r. lia.
  - rewrite Pos.iter_succ, Pos2Z.inj_xO, IH, Pos2Z.inj_succ, Z.pow_succ_r by lia. lia.
Qed.

Lemma shl_align_spec (mx : positive) (ex ex' : Z) :
  snd (shl_align mx ex ex') = Z.min ex ex'
  /\ Z.pos (fst (shl_align mx ex ex')) = Z.pos mx * 2 ^ (ex - Z.min ex ex').
Proof.
  unfold shl_align. destruct (ex' - ex) as [|d|d] eqn:E; cbn [fst snd].
  - rewrite Z.min_l by lia. rewrite Z.sub_diag, Z.pow_0_r. lia.
  - rewrite Z.min_l by lia. rewrite Z.sub_diag, Z.pow_0_r. lia.
  - rewrite Z.min_r by lia. rewrite pos_iter_xO. split; [reflexivity|].
    f_equal. f_equal. lia.
Qed.

Lemma new_location_code (nb r : Z) :
  0 < nb -> 0 <= r < nb ->
  (r = 0 -> new_location nb r = loc_Exact)
  /\ (r <> 0 -> 1 <= loc_code (new_location nb r) <= 3).
Proof.
  intros Hnb Hr. unfold new_location, new_location_even, new_location_odd.
  split.
  - intros ->. now destruct (Z.even nb).
  - intros Hr0. apply Z.eqb_neq in Hr0. destruct (Z.even nb); rewrite Hr0.
    + destruct (2 * r ?= nb); cbn; lia.
    + destruct (2 * r + 1 ?= nb); cbn; lia.
Qed.

Lemma Zdigits2_pow2 (k : Z) : 0 <= k -> Zdigits2 (2 ^ k) = k + 1.
Proof.
  intros Hk. assert (0 < 2 ^ k) by (apply Z.pow_pos_nonneg; lia).
  apply Zdigits2_unique; [|lia]. replace (k + 1 - 1) with k by lia.
  rewrite Z.pow_add_r, Z.pow_1_r by lia. lia.
Qed.

Lemma Zdigits2_ge (m k : Z) : 0 <= k -> 2 ^ k <= m -> k + 1 <= Zdigits2 m.
Proof.
  intros Hk Hm. rewrite <- (Zdigits2_pow2 k Hk). apply Zdigits2_mono.
  assert (0 < 2 ^ k) by (apply Z.pow_pos_nonneg; lia). lia.
Qed.

Lemma dle_shift (A a B b c : Z) :
  c <= a -> c <= b -> (dle A a B b <-> A * 2 ^ (a - c) <= B * 2 ^ (b - c)).
Proof.
  intros Ha Hb. unfold dle. set (k := Z.min a b).
  assert (P : 0 < 2 ^ (k - c)) by (apply Z.pow_pos_nonneg; unfold k; lia).
  replace (a - c) with ((a - k) + (k - c)) by lia.
  replace (b - c) with ((b - k) + (k - c)) by lia.
  rewrite !Z.pow_add_r, !Z.mul_assoc by (unfold k; lia).
  split; intros H; [apply Z.mul_le_mono_nonneg_r; lia | nia].
Qed.

Lemma Zdigits2_mul_le (a b : Z) : 0 < a -> 0 < b -> Zdigits2 (a * b) <= Zdigits2 a + Zdigits2 b.
Proof.
  intros Ha Hb.
  destruct (Zdigits2_bounds a Ha) as (Hda & Hba).
  destruct (Zdigits2_bounds b Hb) as (Hdb & Hbb).
  destruct (Zdigits2_bounds (a * b) ltac:(nia)) as (Hdab & Hbab).
  assert (H : Zdigits2 (a * b) - 1 < Zdigits2 a + Zdigits2 b).
  { apply pow2_lt_inv; [lia|]. rewrite Z.pow_add_r by lia. nia. }
  lia.
Qed.

(** The magnitudes of two ordered dyadic numbers are ordered. *)
Lemma dle_digits (A a B b : Z) :
  0 < A -> 0 < B -> dle A a B b -> Zdigits2 A + a <= Zdigits2 B + b.
Proof.
  intros HA HB H. unfold dle in H. set (k := Z.min a b) in *.
  assert (Pa : 0 < 2 ^ (a - k)) by (apply Z.pow_pos_nonneg; unfold k; lia).
  assert (Pb : 0 < 2 ^ (b - k)) by (apply Z.pow_pos_nonneg; unfold k; lia).
  pose proof (Zdigits2_mono (A * 2 ^ (a - k)) (B * 2 ^ (b - k)) ltac:(nia)) as Hd.
  rewrite !Zdigits2_mul_pow in Hd by (unfold k; lia). lia.
Qed.

Lemma dle_total (A a B b : Z) : dle A a B b \/ dle B b A a.
Proof. unfold dle. rewrite (Z.min_comm b a). lia. Qed.


Section Rounding.

Variables prec emax : Z.
Hypothesis Hprec : 0 < prec.

Let emin := SpecFloat.emin prec emax.
Let fexp := SpecFloat.fexp prec emax.

Lemma ra_unfold (sx : bool) (m e : Z) (l : location) :
  0 <= m ->
  binary_round_aux prec emax sx m e l
  = let n1 := fexp (Zdigits2 m + e) - e in
    let m2 := rne (Nat.iter (Z.to_nat n1) halve (code m l)) in
    let e1 := e + Z.max 0 n1 in
    let n2 := fexp (Zdigits2 m2 + e1) - e1 in
    pack prec emax sx (m2 / 2 ^ Z.max 0 n2) (e1 + Z.max 0 n2).
Proof.
  intros Hm. cbv zeta. unfold binary_round_aux, shr_fexp. fold fexp.
  destruct (shr_spec m e (fexp (Zdigits2 m + e) - e) l Hm) as (H1 & H2 & H3).
  destruct (shr (shr_record_of_loc m l) e (fexp (Zdigits2 m + e) - e)) as [mrs' e'].
  cbn [fst snd] in H1, H2, H3. rewrite rne_round, H1, H2.
  set (m2 := rne _). set (e1 := e + _).
  assert (Hm2 : 0 <= m2).
  { unfold m2.
    pose proof (rne_bounds (Nat.iter (Z.to_nat (fexp (Zdigits2 m + e) - e)) halve (code m l))) as Hb.
    assert (0 <= Nat.iter (Z.to_nat (fexp (Zdigits2 m + e) - e)) halve (code m l) / 4)
      by (rewrite <- H1, rcode_div4; exact H3).
    lia. }
  destruct (shr_spec m2 e1 (fexp (Zdigits2 m2 + e1) - e1) loc_Exact Hm2) as (K1 & K2 & K3).
  destruct (shr (shr_record_of_loc m2 loc_Exact) e1 (fexp (Zdigits2 m2 + e1) - e1)) as [mrs'' e''].
  cbn [fst snd] in K1, K2, K3.
  assert (Km : shr_m mrs'' = m2 / 2 ^ Z.max 0 (fexp (Zdigits2 m2 + e1) - e1)).
  { rewrite <- rcode_div4, K1, halves_div4. unfold code. cbn [loc_code].
    rewrite Z.add_0_r, (Z.mul_comm 4), Z.div_mul by lia. f_equal. f_equal. lia. }
  rewrite K2, <- Km. unfold pack. destruct (shr_m mrs''); reflexivity.
Qed.



Lemma fexp_eq (x : Z) : fexp x = Z.max (x - prec) emin.
Proof. reflexivity. Qed.

Lemma emin_eq : emin = 3 - emax - prec.
Proof. reflexivity. Qed.

(** The mantissa and exponent that [binary_round_aux] produces: a canonical
    pair of the same value as the rounded mantissa. *)
Lemma ra_shape (sx : bool) (m e : Z) (l : location) :
  0 <= m -> 0 <= fexp (Zdigits2 m + e) - e ->
  exists m3 e3,
    binary_round_aux prec emax sx m e l = pack prec emax sx m3 e3
    /\ canon prec emax m3 e3 /\ e <= e3
    /\ m3 * 2 ^ (e3 - e)
       = rne (Nat.iter (Z.to_nat (fexp (Zdigits2 m + e) - e)) halve (code m l))
         * 2 ^ (fexp (Zdigits2 m + e) - e).
Proof.
  intros Hm Hn. rewrite (ra_unfold sx m e l Hm). cbv zeta.
  set (n := fexp (Zdigits2 m + e) - e) in *.
  set (C1 := Nat.iter (Z.to_nat n) halve (code m l)).
  set (m2 := rne C1). rewrite (Z.max_r 0 n) by lia.
  set (e1 := e + n).
  assert (Hm1 : C1 / 4 = m / 2 ^ n).
  { unfold C1. rewrite halves_div4, code_div4. f_equal. f_equal. lia. }
  pose proof (rne_bounds C1) as Hb. fold m2 in Hb. rewrite Hm1 in Hb.
  assert (H2n : 0 < 2 ^ n) by (apply Z.pow_pos_nonneg; lia).
  assert (Hp1 : 0 < 2 ^ (prec - 1)) by (apply Z.pow_pos_nonneg; lia).
  assert (Hpp : 2 ^ prec = 2 * 2 ^ (prec - 1)).
  { rewrite <- Z.pow_succ_r by lia. f_equal. lia. }
  assert (Hm1pos : 0 <= m / 2 ^ n) by (apply Z.div_pos; lia).
  unfold n in Hn. rewrite fexp_eq in Hn.
  destruct (Z.le_gt_cases emin (Zdigits2 m + e - prec)) as [Hnorm|Hsub].
  - (* normal *)
    assert (En : n = Zdigits2 m - prec) by (unfold n; rewrite fexp_eq; lia).
    assert (Hmpos : 0 < m).
    { destruct (Z.eq_dec m 0) as [->|]; [|lia]. cbn in En, Hn, Hnorm. lia. }
    destruct (Zdigits2_bounds m Hmpos) as (Hd & Hdb).
    pose proof (div_pow2_bounds m (Zdigits2 m) n ltac:(lia) ltac:(lia) Hdb) as Hq.
    replace (Zdigits2 m - 1 - n) with (prec - 1) in Hq by lia.
    replace (Zdigits2 m - n) with prec in Hq by lia.
    assert (He1 : emin <= e1) by (unfold e1; lia).
    destruct (Z.eq_dec m2 (2 ^ prec)) as [Ecarry|Ecarry].
    + (* the rounded mantissa is 2^prec *)
      assert (Hd2 : Zdigits2 m2 = prec + 1).
      { apply Zdigits2_unique; [|lia]. rewrite Ecarry.
        replace (prec + 1 - 1) with prec by lia. split; [lia|].
        rewrite Z.pow_add_r, Z.pow_1_r by lia. lia. }
      rewrite Hd2, fexp_eq.
      replace (Z.max (prec + 1 + e1 - prec) emin - e1) with 1 by lia.
      change (Z.max 0 1) with 1. rewrite Z.pow_1_r.
      exists (2 ^ (prec - 1)), (e1 + 1). split; [|split; [|split]].
      * f_equal. rewrite Ecarry, Hpp, Z.mul_comm, Z.div_mul by lia. reflexivity.
      * unfold canon. fold emin. repeat split; lia.
      * unfold e1. lia.
      * rewrite Ecarry. unfold e1. replace (e + n + 1 - e) with (Z.succ n) by lia.
        rewrite Z.pow_succ_r by lia. lia.
    + assert (Hd2 : Zdigits2 m2 = prec) by (apply Zdigits2_unique; lia).
      rewrite Hd2, fexp_eq.
      replace (Z.max (prec + e1 - prec) emin - e1) with 0 by lia.
      change (Z.max 0 0) with 0. rewrite Z.pow_0_r, Z.div_1_r, Z.add_0_r.
      exists m2, e1. split; [reflexivity|]. split; [|split].
      * unfold canon. fold emin. repeat split; lia.
      * unfold e1. lia.
      * unfold e1. now replace (e + n - e) with n by lia.
  - (* subnormal *)
    assert (En : n = emin - e) by (unfold n; rewrite fexp_eq; lia).
    assert (He1 : e1 = emin) by (unfold e1; lia).
    assert (Hq : m / 2 ^ n < 2 ^ (prec - 1)).
    { destruct (Z.eq_dec m 0) as [->|Hm0]; [rewrite Z.div_0_l; lia|].
      destruct (Zdigits2_bounds m ltac:(lia)) as (Hd & Hdb).
      apply Z.div_lt_upper_bound; [lia|]. rewrite <- Z.pow_add_r by lia.
      apply Z.lt_le_trans with (2 ^ Zdigits2 m); [lia|].
      apply Z.pow_le_mono_r; lia. }
    assert (Hd2 : Zdigits2 m2 <= prec).
    { replace prec with (Zdigits2 (2 ^ (prec - 1))).
      - apply Zdigits2_mono. lia.
      - apply Zdigits2_unique; [|lia]. replace (prec - 1) with (prec - 1) by lia. lia. }
    rewrite fexp_eq.
    replace (Z.max (Zdigits2 m2 + e1 - prec) emin - e1) with 0 by lia.
    change (Z.max 0 0) with 0. rewrite Z.pow_0_r, Z.div_1_r, Z.add_0_r.
    exists m2, e1. split; [reflexivity|]. split; [|split].
    + unfold canon. fold emin. repeat split; lia.
    + unfold e1. lia.
    + unfold e1. now replace (e + n - e) with n by lia.
Qed.


Lemma shift_mono (m1 m2 e : Z) :
  0 <= m1 <= m2 -> fexp (Zdigits2 m1 + e) - e <= fexp (Zdigits2 m2 + e) - e.
Proof.
  intros H. pose proof (Zdigits2_mono m1 m2 H). rewrite !fexp_eq. lia.
Qed.

(** The rounded value grows with the code of the input (inputs at one
    exponent [e], shifted by their own amounts). *)
Lemma rounded_value_mono (m1 m2 e : Z) (l1 l2 : location) :
  0 <= m1 -> 0 <= fexp (Zdigits2 m1 + e) - e ->
  code m1 l1 <= code m2 l2 ->
  rne (Nat.iter (Z.to_nat (fexp (Zdigits2 m1 + e) - e)) halve (code m1 l1))
  * 2 ^ (fexp (Zdigits2 m1 + e) - e)
  <= rne (Nat.iter (Z.to_nat (fexp (Zdigits2 m2 + e) - e)) halve (code m2 l2))
     * 2 ^ (fexp (Zdigits2 m2 + e) - e).
Proof.
  intros Hm1 Hn1 HC.
  assert (Hm : m1 <= m2).
  { rewrite <- (code_div4 m1 l1), <- (code_div4 m2 l2). apply Z.div_le_mono; lia. }
  pose proof (shift_mono m1 m2 e (conj Hm1 Hm)) as Hn.
  set (n1 := fexp (Zdigits2 m1 + e) - e) in *.
  set (n2 := fexp (Zdigits2 m2 + e) - e) in *.
  set (C1 := Nat.iter (Z.to_nat n1) halve (code m1 l1)).
  set (C2 := Nat.iter (Z.to_nat n2) halve (code m2 l2)).
  assert (H2n1 : 0 < 2 ^ n1) by (apply Z.pow_pos_nonneg; lia).
  assert (H2n2 : 0 < 2 ^ n2) by (apply Z.pow_pos_nonneg; lia).
  destruct (Z.eq_dec n1 n2) as [E|E].
  - unfold C2. rewrite <- E. fold n1.
    apply Z.mul_le_mono_nonneg_r; [lia|]. apply rne_mono. now apply halves_mono.
  - assert (Hlt : n1 < n2) by lia.
    assert (En2 : n2 = Zdigits2 m2 - prec).
    { unfold n1, n2 in *. rewrite !fexp_eq in *. lia. }
    assert (Hd12 : Zdigits2 m1 < Zdigits2 m2).
    { unfold n1, n2 in *. rewrite !fexp_eq in *. lia. }
    assert (Hm2pos : 0 < m2).
    { destruct (Z.eq_dec m2 0) as [->|]; [|lia]. cbn in Hd12.
      pose proof (Zdigits2_nonneg m1). lia. }
    destruct (Zdigits2_bounds m2 Hm2pos) as (Hd2 & Hdb2).
    (* a lower bound for the second value *)
    assert (HC2 : C2 / 4 = m2 / 2 ^ n2).
    { unfold C2. rewrite halves_div4, code_div4. f_equal. f_equal. lia. }
    pose proof (rne_bounds C2) as Hb2. rewrite HC2 in Hb2.
    pose proof (div_pow2_bounds m2 (Zdigits2 m2) n2 ltac:(lia) ltac:(lia) Hdb2) as Hq2.
    assert (Hlow : 2 ^ (Zdigits2 m2 - 1) <= rne C2 * 2 ^ n2).
    { replace (Zdigits2 m2 - 1) with ((Zdigits2 m2 - 1 - n2) + n2) by lia.
      rewrite Z.pow_add_r by lia. apply Z.mul_le_mono_nonneg_r; lia. }
    (* an upper bound for the first value *)
    assert (HC1 : C1 / 4 = m1 / 2 ^ n1).
    { unfold C1. rewrite halves_div4, code_div4. f_equal. f_equal. lia. }
    pose proof (rne_bounds C1) as Hb1. rewrite HC1 in Hb1.
    assert (Hm1lt : m1 < 2 ^ (Zdigits2 m2 - 1)).
    { destruct (Z.eq_dec m1 0) as [->|]; [apply Z.pow_pos_nonneg; lia|].
      destruct (Zdigits2_bounds m1 ltac:(lia)) as (Hd1 & Hdb1).
      apply Z.lt_le_trans with (2 ^ Zdigits2 m1); [lia|]. apply Z.pow_le_mono_r; lia. }
    assert (Hq1 : m1 / 2 ^ n1 < 2 ^ (Zdigits2 m2 - 1 - n1)).
    { apply Z.div_lt_upper_bound; [lia|]. rewrite <- Z.pow_add_r by lia.
      now replace (n1 + (Zdigits2 m2 - 1 - n1)) with (Zdigits2 m2 - 1) by lia. }
    assert (Hup : rne C1 * 2 ^ n1 <= 2 ^ (Zdigits2 m2 - 1)).
    { replace (Zdigits2 m2 - 1) with ((Zdigits2 m2 - 1 - n1) + n1) by lia.
      rewrite Z.pow_add_r by lia. apply Z.mul_le_mono_nonneg_r; lia. }
    lia.
Qed.

(** The order of two canonical pairs is the order of their values. *)
Lemma canon_order (m e m' e' e0 : Z) :
  canon prec emax m e -> canon prec emax m' e' -> e0 <= e -> e0 <= e' ->
  m * 2 ^ (e - e0) <= m' * 2 ^ (e' - e0) ->
  SFleb (pack prec emax false m e) (pack prec emax false m' e') = true.
Proof.
  intros (Hm & He & Hc) (Hm' & He' & Hc') H0 H0' Hv. fold emin in He, He', Hc, Hc'.
  assert (Hp1 : 0 < 2 ^ (prec - 1)) by (apply Z.pow_pos_nonneg; lia).
  assert (Hpp : 2 ^ prec = 2 * 2 ^ (prec - 1)).
  { rewrite <- Z.pow_succ_r by lia. f_equal. lia. }
  assert (Ha : 0 < 2 ^ (e - e0)) by (apply Z.pow_pos_nonneg; lia).
  assert (Ha' : 0 < 2 ^ (e' - e0)) by (apply Z.pow_pos_nonneg; lia).
  destruct (Z.eq_dec m 0) as [->|Hmz].
  { unfold pack at 1. destruct m' as [|p'|p']; [reflexivity| |lia].
    unfold pack. now destruct (e' <=? emax - prec). }
  assert (Hm'pos : 0 < m') by nia.
  assert (Hord : e < e' \/ (e = e' /\ m <= m')).
  { destruct (Z.lt_trichotomy e e') as [Hlt | [Heq | Hgt]]; [now left | right | exfalso].
    - subst e'. split; [reflexivity|]. nia.
    - assert (Hnorm : 2 ^ (prec - 1) <= m) by lia.
      assert (Hs : 2 ^ (e - e0) = 2 ^ (e - e') * 2 ^ (e' - e0)).
      { rewrite <- Z.pow_add_r by lia. f_equal. lia. }
      assert (Hd : 2 <= 2 ^ (e - e')).
      { replace 2 with (2 ^ 1) at 1 by reflexivity. apply Z.pow_le_mono_r; lia. }
      rewrite Hs in Hv. nia. }
  destruct m as [|p|p]; try lia. destruct m' as [|p'|p']; try lia.
  unfold pack.
  destruct (Z.leb_spec e (emax - prec)) as [Hb|Hb];
    destruct (Z.leb_spec e' (emax - prec)) as [Hb'|Hb']; try reflexivity.
  - unfold SFleb, SFcompare.
    destruct Hord as [Hlt | [-> Hle]].
    + apply Z.compare_lt_iff in Hlt. now rewrite Hlt.
    + rewrite Z.compare_refl. change (Pos.compare_cont Eq p p') with (Pos.compare p p').
      destruct (Pos.compare_spec p p'); try reflexivity. lia.
  - lia.
Qed.

(** [binary_round_aux] is monotone in the code of its input. *)
Lemma ra_mono (m1 m2 e : Z) (l1 l2 : location) :
  0 <= m1 -> 0 <= fexp (Zdigits2 m1 + e) - e ->
  code m1 l1 <= code m2 l2 ->
  SFleb (binary_round_aux prec emax false m1 e l1)
        (binary_round_aux prec emax false m2 e l2) = true.
Proof.
  intros Hm1 Hn1 HC.
  assert (Hm : m1 <= m2).
  { rewrite <- (code_div4 m1 l1), <- (code_div4 m2 l2). apply Z.div_le_mono; lia. }
  pose proof (shift_mono m1 m2 e (conj Hm1 Hm)) as Hn.
  destruct (ra_shape false m1 e l1 Hm1 Hn1) as (a & ea & -> & Ca & Hea & Va).
  destruct (ra_shape false m2 e l2 ltac:(lia) ltac:(lia)) as (b & eb & -> & Cb & Heb & Vb).
  apply (canon_order a ea b eb e Ca Cb Hea Heb). rewrite Va, Vb.
  now apply rounded_value_mono.
Qed.

(** A representable number is rounded to itself. *)
Lemma ra_exact (sx : bool) (mT : positive) (eT e : Z) :
  SpecFloat.valid_binary prec emax (S754_finite sx mT eT) = true -> e <= eT ->
  binary_round_aux prec emax sx (Zpos mT * 2 ^ (eT - e)) e loc_Exact
  = S754_finite sx mT eT.
Proof.
  intros Hv He. cbn [SpecFloat.valid_binary] in Hv. unfold bounded, canonical_mantissa in Hv.
  apply andb_true_iff in Hv. destruct Hv as [Hc Hb].
  apply Z.eqb_eq in Hc. apply Z.leb_le in Hb. fold fexp in Hc.
  change (Z.pos (digits2_pos mT)) with (Zdigits2 (Zpos mT)) in Hc.
  assert (H2k : 0 < 2 ^ (eT - e)) by (apply Z.pow_pos_nonneg; lia).
  rewrite ra_unfold by lia. cbv zeta.
  rewrite Zdigits2_mul_pow by lia.
  replace (Zdigits2 (Z.pos mT) + (eT - e) + e) with (Zdigits2 (Z.pos mT) + eT) by lia.
  rewrite Hc. unfold code. cbn [loc_code]. rewrite Z.add_0_r.
  assert (Hit : Nat.iter (Z.to_nat (eT - e)) halve (4 * (Z.pos mT * 2 ^ (eT - e)))
                = 4 * Z.pos mT).
  { rewrite <- (halves_exact (Z.to_nat (eT - e)) (Z.pos mT)). do 4 f_equal. lia. }
  rewrite Hit, rne_exact.
  rewrite (Z.max_r 0 (eT - e)) by lia. replace (e + (eT - e)) with eT by lia.
  rewrite Hc, Z.sub_diag. change (Z.max 0 0) with 0.
  rewrite Z.pow_0_r, Z.div_1_r, Z.add_0_r. unfold pack.
  apply Z.leb_le in Hb. now rewrite Hb.
Qed.

(** Lowering the exponent of an exact input does not change the result. *)
Lemma ra_lower (sx : bool) (m e k : Z) :
  0 < m -> 0 <= k -> 0 <= fexp (Zdigits2 m + e) - e ->
  binary_round_aux prec emax sx (m * 2 ^ k) (e - k) loc_Exact
  = binary_round_aux prec emax sx m e loc_Exact.
Proof.
  intros Hm Hk Hn.
  assert (H2k : 0 < 2 ^ k) by (apply Z.pow_pos_nonneg; lia).
  rewrite !ra_unfold by nia. cbv zeta.
  rewrite Zdigits2_mul_pow by lia.
  replace (Zdigits2 m + k + (e - k)) with (Zdigits2 m + e) by lia.
  set (n := fexp (Zdigits2 m + e) - e) in *.
  replace (fexp (Zdigits2 m + e) - (e - k)) with (n + k) by (unfold n; lia).
  replace (Z.to_nat (n + k)) with (Z.to_nat n + Z.to_nat k)%nat by lia.
  rewrite Nat.iter_add.
  assert (Hit : Nat.iter (Z.to_nat k) halve (code (m * 2 ^ k) loc_Exact) = code m loc_Exact).
  { unfold code. cbn [loc_code]. rewrite !Z.add_0_r.
    rewrite <- (halves_exact (Z.to_nat k) m). do 4 f_equal. lia. }
  rewrite Hit, (Z.max_r 0 (n + k)), (Z.max_r 0 n) by lia.
  now replace (e - k + (n + k)) with (e + n) by lia.
Qed.




(** [binary_round] is [binary_round_aux] on an exact input that is long
    enough. *)
Lemma binary_round_ra (sx : bool) (mx : positive) (ex : Z) :
  exists M e,
    binary_round prec emax sx mx ex = binary_round_aux prec emax sx M e loc_Exact
    /\ 0 < M /\ e <= ex /\ M = Z.pos mx * 2 ^ (ex - e)
    /\ 0 <= fexp (Zdigits2 M + e) - e.
Proof.
  unfold binary_round. fold fexp.
  destruct (shl_align_spec mx ex (fexp (Z.pos (digits2_pos mx) + ex))) as [H1 H2].
  destruct (shl_align mx ex (fexp (Z.pos (digits2_pos mx) + ex))) as [mz ez].
  cbn [fst snd] in H1, H2. exists (Z.pos mz), ez.
  change (Z.pos (digits2_pos mx)) with (Zdigits2 (Z.pos mx)) in *.
  split; [reflexivity|]. split; [lia|]. split; [lia|]. split; [now rewrite H2, H1|].
  rewrite H2, Zdigits2_mul_pow by lia.
  replace (Zdigits2 (Z.pos mx) + (ex - Z.min ex (fexp (Zdigits2 (Z.pos mx) + ex))) + ez)
    with (Zdigits2 (Z.pos mx) + ex) by lia.
  lia.
Qed.

Lemma binary_round_mono (m1 m2 : positive) (e1 e2 e0 : Z) :
  e0 <= e1 -> e0 <= e2 ->
  Z.pos m1 * 2 ^ (e1 - e0) <= Z.pos m2 * 2 ^ (e2 - e0) ->
  SFleb (binary_round prec emax false m1 e1) (binary_round prec emax false m2 e2) = true.
Proof.
  intros H1 H2 Hv.
  destruct (binary_round_ra false m1 e1) as (M1 & f1 & -> & HM1 & Hf1 & EM1 & Hn1).
  destruct (binary_round_ra false m2 e2) as (M2 & f2 & -> & HM2 & Hf2 & EM2 & Hn2).
  set (f := Z.min (Z.min f1 f2) e0).
  rewrite <- (ra_lower false M1 f1 (f1 - f)) by (unfold f; lia).
  rewrite <- (ra_lower false M2 f2 (f2 - f)) by (unfold f; lia).
  replace (f1 - (f1 - f)) with f by lia. replace (f2 - (f2 - f)) with f by lia.
  assert (P1 : 0 < 2 ^ (f1 - f)) by (apply Z.pow_pos_nonneg; unfold f; lia).
  assert (P2 : 0 < 2 ^ (f2 - f)) by (apply Z.pow_pos_nonneg; unfold f; lia).
  assert (P0 : 0 < 2 ^ (e0 - f)) by (apply Z.pow_pos_nonneg; unfold f; lia).
  apply ra_mono.
  - nia.
  - rewrite Zdigits2_mul_pow by (unfold f; lia).
    replace (Zdigits2 M1 + (f1 - f) + f) with (Zdigits2 M1 + f1) by lia. unfold f. lia.
  - unfold code. cbn [loc_code]. rewrite !Z.add_0_r.
    apply Z.mul_le_mono_nonneg_l; [lia|].
    rewrite EM1, EM2, <- !Z.mul_assoc, <- !Z.pow_add_r by (unfold f; lia).
    replace (e1 - f1 + (f1 - f)) with ((e1 - e0) + (e0 - f)) by lia.
    replace (e2 - f2 + (f2 - f)) with ((e2 - e0) + (e0 - f)) by lia.
    rewrite !Z.pow_add_r, !Z.mul_assoc by (unfold f; lia).
    apply Z.mul_le_mono_nonneg_r; lia.
Qed.

(** An exact input whose value is a representable number is rounded to
    that number. *)
Lemma binary_round_exact (sx : bool) (mx mT : positive) (ex eT e0 : Z) :
  SpecFloat.valid_binary prec emax (S754_finite sx mT eT) = true ->
  e0 <= ex -> e0 <= eT ->
  Z.pos mx * 2 ^ (ex - e0) = Z.pos mT * 2 ^ (eT - e0) ->
  binary_round prec emax sx mx ex = S754_finite sx mT eT.
Proof.
  intros Hv H1 H2 Hval.
  destruct (binary_round_ra sx mx ex) as (M & f & -> & HM & Hf & EM & Hn).
  set (g := Z.min (Z.min f eT) e0).
  rewrite <- (ra_lower sx M f (f - g)) by (unfold g; lia).
  replace (f - (f - g)) with g by lia.
  rewrite <- (ra_exact sx mT eT g Hv) by (unfold g; lia).
  f_equal.
  assert (P0 : 0 < 2 ^ (e0 - g)) by (apply Z.pow_pos_nonneg; unfold g; lia).
  rewrite EM, <- Z.mul_assoc, <- Z.pow_add_r by (unfold g; lia).
  replace (ex - f + (f - g)) with ((ex - e0) + (e0 - g)) by lia.
  replace (eT - g) with ((eT - e0) + (e0 - g)) by lia.
  rewrite !Z.pow_add_r, !Z.mul_assoc by (unfold g; lia).
  now rewrite Hval.
Qed.

Lemma pack_sign (sx : bool) (m e : Z) :
  pack prec emax sx m e
  = if sx then SFopp (pack prec emax false m e) else pack prec emax false m e.
Proof.
  unfold pack. destruct sx, m; try reflexivity; now destruct (e <=? emax - prec).
Qed.

Lemma ra_sign (sx : bool) (m e : Z) (l : location) :
  0 <= m ->
  binary_round_aux prec emax sx m e l
  = if sx then SFopp (binary_round_aux prec emax false m e l)
    else binary_round_aux prec emax false m e l.
Proof.
  intros Hm. rewrite !ra_unfold by exact Hm. cbv zeta. apply pack_sign.
Qed.

Lemma binary_round_sign (sx : bool) (mx : positive) (ex : Z) :
  binary_round prec emax sx mx ex
  = if sx then SFopp (binary_round prec emax false mx ex)
    else binary_round prec emax false mx ex.
Proof.
  unfold binary_round. destruct (shl_align _ _ _) as [mz ez]. apply ra_sign. lia.
Qed.





(** The quotient, exponent and location that a division hands to the
    rounding. *)
Lemma div_core_spec (mx my : positive) (ex ey : Z) :
  exists q e' l r,
    SFdiv_core_binary prec emax (Z.pos mx) ex (Z.pos my) ey = (q, e', l)
    /\ e' = Z.min (fexp (Zdigits2 (Z.pos mx) + ex - (Zdigits2 (Z.pos my) + ey))) (ex - ey)
    /\ Z.pos mx * 2 ^ (ex - ey - e') = Z.pos my * q + r
    /\ 0 <= r < Z.pos my /\ 0 <= q
    /\ (r = 0 -> l = loc_Exact) /\ (r <> 0 -> 1 <= loc_code l <= 3)
    /\ 0 <= fexp (Zdigits2 q + e') - e'
    /\ (emin < e' -> 2 ^ (prec - 1) <= q).
Proof.
  unfold SFdiv_core_binary. fold fexp.
  set (d1 := Zdigits2 (Z.pos mx)). set (d2 := Zdigits2 (Z.pos my)).
  set (e' := Z.min (fexp (d1 + ex - (d2 + ey))) (ex - ey)).
  set (s := ex - ey - e').
  assert (Hs : 0 <= s) by (unfold s, e'; lia).
  set (m' := match s with Z.pos _ => Z.shiftl (Z.pos mx) s | 0 => Z.pos mx | Z.neg _ => 0 end).
  assert (Em' : m' = Z.pos mx * 2 ^ s).
  { unfold m'. destruct s as [|p|p] eqn:Es; [rewrite Z.pow_0_r; lia | | lia].
    now rewrite Z.shiftl_mul_pow2 by lia. }
  pose proof (Z.div_eucl_eq m' (Z.pos my) ltac:(lia)) as Hdm.
  pose proof (Z.mod_pos_bound m' (Z.pos my) ltac:(lia)) as Hmod.
  unfold Z.modulo in Hmod. destruct (Z.div_eucl m' (Z.pos my)) as [q r] eqn:Ediv.
  assert (H2s : 0 < 2 ^ s) by (apply Z.pow_pos_nonneg; lia).
  assert (Hq : 0 <= q) by nia.
  destruct (new_location_code (Z.pos my) r ltac:(lia) Hmod) as [L1 L2].
  exists q, e', (new_location (Z.pos my) r), r.
  split; [reflexivity|]. split; [reflexivity|].
  split; [fold s; rewrite <- Em'; exact Hdm|].
  split; [exact Hmod|]. split; [exact Hq|]. split; [exact L1|]. split; [exact L2|].
  (* the quotient is long enough *)
  assert (Hlong : emin < e' -> 2 ^ (prec - 1) <= q); cycle 1.
  { split; [|exact Hlong]. rewrite fexp_eq.
    destruct (Z.le_gt_cases e' emin) as [Hle|Hgt]; [lia|].
    pose proof (Zdigits2_ge q (prec - 1) ltac:(lia) (Hlong ltac:(lia))). lia. }
  intros Hgt.
  assert (HF : e' <= d1 + ex - (d2 + ey) - prec) by (unfold e' in *; rewrite fexp_eq in *; lia).
  destruct (Zdigits2_bounds (Z.pos mx) ltac:(lia)) as (Hd1 & Hb1). fold d1 in Hd1, Hb1.
  destruct (Zdigits2_bounds (Z.pos my) ltac:(lia)) as (Hd2 & Hb2). fold d2 in Hd2, Hb2.
  assert (Hqlow : 2 ^ (prec - 1) <= q).
  { assert (Hp1 : 0 < 2 ^ (prec - 1)) by (apply Z.pow_pos_nonneg; lia).
    assert (Hlt : 2 ^ (prec - 1) * Z.pos my < Z.pos my * q + Z.pos my).
    { apply Z.lt_le_trans with (2 ^ (prec - 1) * 2 ^ d2); [nia|].
      rewrite <- Z.pow_add_r by lia.
      apply Z.le_trans with (2 ^ (d1 - 1) * 2 ^ s); [|nia].
      rewrite <- Z.pow_add_r by lia. apply Z.pow_le_mono_r; unfold s; lia. }
    nia. }
  exact Hqlow.
Qed.





Lemma valid_finite (s : bool) (m : positive) (e : Z) :
  SpecFloat.valid_binary prec emax (S754_finite s m e) = true ->
  fexp (Zdigits2 (Z.pos m) + e) = e /\ e <= emax - prec /\ emin <= e.
Proof.
  intros Hv. cbn [SpecFloat.valid_binary] in Hv. unfold bounded, canonical_mantissa in Hv.
  apply andb_true_iff in Hv. destruct Hv as [Hc Hb].
  apply Z.eqb_eq in Hc. apply Z.leb_le in Hb. fold fexp in Hc.
  change (Z.pos (digits2_pos m)) with (Zdigits2 (Z.pos m)) in Hc.
  split; [exact Hc|]. split; [exact Hb|]. rewrite <- Hc, fexp_eq. lia.
Qed.

(** A quotient that does not exceed a representable number is rounded to
    a number that does not exceed it. *)
Lemma SFdiv_le_repr (mx my mT : positive) (ex ey eT : Z) :
  SpecFloat.valid_binary prec emax (S754_finite false mT eT) = true ->
  dle (Z.pos mx) ex (Z.pos mT * Z.pos my) (eT + ey) ->
  SFleb (SFdiv prec emax (S754_finite false mx ex) (S754_finite false my ey))
        (S754_finite false mT eT) = true.
Proof.
  intros Hv Hle. destruct (valid_finite _ _ _ Hv) as (Hc & Hb & Hmin).
  cbn [SFdiv xorb].
  destruct (div_core_spec mx my ex ey) as (q & e' & l & r & -> & Ee' & Hdiv & Hr & Hq & L1 & L2 & Hn & _).
  assert (He' : e' <= eT).
  { pose proof (dle_digits (Z.pos mx) ex (Z.pos mT * Z.pos my) (eT + ey)
                  ltac:(lia) ltac:(nia) Hle) as Hd.
    pose proof (Zdigits2_mul_le (Z.pos mT) (Z.pos my) ltac:(lia) ltac:(lia)) as Hm.
    rewrite Ee', <- Hc, !fexp_eq. lia. }
  rewrite <- (ra_exact false mT eT e' Hv He').
  apply ra_mono; [exact Hq | exact Hn |].
  apply (dle_shift _ _ _ _ (ey + e')) in Hle; [|rewrite Ee'; lia | lia].
  replace (ex - (ey + e')) with (ex - ey - e') in Hle by lia.
  replace (eT + ey - (ey + e')) with (eT - e') in Hle by lia.
  rewrite Hdiv in Hle.
  assert (P : 0 < 2 ^ (eT - e')) by (apply Z.pow_pos_nonneg; lia).
  unfold code. cbn [loc_code]. rewrite Z.add_0_r.
  set (qT := Z.pos mT * 2 ^ (eT - e')) in *.
  replace (Z.pos mT * Z.pos my * 2 ^ (eT - e')) with (Z.pos my * qT) in Hle
    by (unfold qT; ring).
  destruct (Z.eq_dec r 0) as [Hr0|Hr0].
  - rewrite (L1 Hr0). cbn [loc_code].
    assert (q <= qT) by (apply (Z.mul_le_mono_pos_l _ _ (Z.pos my)); lia). lia.
  - pose proof (L2 Hr0).
    assert (q < qT) by (apply (Z.mul_lt_mono_pos_l (Z.pos my)); lia). lia.
Qed.

Lemma ra_normal_positive (m e : Z) (l : location) :
  2 ^ (prec - 1) <= m -> emin <= e ->
  exists m3 e3,
    binary_round_aux prec emax false m e l = pack prec emax false m3 e3
    /\ 0 < m3 /\ e <= e3.
Proof.
  intros Hm He.
  assert (Hp1 : 0 < 2 ^ (prec - 1)) by (apply Z.pow_pos_nonneg; lia).
  pose proof (Zdigits2_ge m (prec - 1) ltac:(lia) Hm) as Hd.
  assert (En : fexp (Zdigits2 m + e) - e = Zdigits2 m - prec) by (rewrite fexp_eq; lia).
  destruct (ra_shape false m e l ltac:(lia) ltac:(lia)) as (m3 & e3 & E & (Hc & _) & He3 & Hval).
  exists m3, e3. split; [exact E|]. split; [|exact He3].
  rewrite En in Hval.
  set (C1 := Nat.iter (Z.to_nat (Zdigits2 m - prec)) halve (code m l)) in *.
  assert (HC1 : C1 / 4 = m / 2 ^ (Zdigits2 m - prec)).
  { unfold C1. rewrite halves_div4, code_div4. f_equal. f_equal. lia. }
  pose proof (rne_bounds C1) as Hb. rewrite HC1 in Hb.
  destruct (Zdigits2_bounds m ltac:(lia)) as (_ & Hdb).
  pose proof (div_pow2_bounds m (Zdigits2 m) (Zdigits2 m - prec) ltac:(lia) ltac:(lia) Hdb) as Hq.
  replace (Zdigits2 m - 1 - (Zdigits2 m - prec)) with (prec - 1) in Hq by lia.
  assert (P : 0 < 2 ^ (Zdigits2 m - prec)) by (apply Z.pow_pos_nonneg; lia).
  assert (P3 : 0 < 2 ^ (e3 - e)) by (apply Z.pow_pos_nonneg; lia).
  nia.
Qed.

(** A quotient that is not below a representable number is rounded to a
    number that is not below it. *)
Lemma SFdiv_ge_repr (mx my mT : positive) (ex ey eT : Z) :
  SpecFloat.valid_binary prec emax (S754_finite false mT eT) = true ->
  dle (Z.pos mT * Z.pos my) (eT + ey) (Z.pos mx) ex ->
  SFleb (S754_finite false mT eT)
        (SFdiv prec emax (S754_finite false mx ex) (S754_finite false my ey)) = true.
Proof.
  intros Hv Hle. destruct (valid_finite _ _ _ Hv) as (Hc & Hb & Hmin).
  cbn [SFdiv xorb].
  destruct (div_core_spec mx my ex ey) as (q & e' & l & r & -> & Ee' & Hdiv & Hr & Hq & L1 & L2 & Hn & Hlong).
  destruct (Z.le_gt_cases e' eT) as [He'|He'].
  - rewrite <- (ra_exact false mT eT e' Hv He') at 1.
    assert (P : 0 < 2 ^ (eT - e')) by (apply Z.pow_pos_nonneg; lia).
    apply ra_mono.
    + nia.
    + rewrite Zdigits2_mul_pow by lia.
      replace (Zdigits2 (Z.pos mT) + (eT - e') + e') with (Zdigits2 (Z.pos mT) + eT) by lia.
      lia.
    + apply (dle_shift _ _ _ _ (ey + e')) in Hle; [| lia | rewrite Ee'; lia].
      replace (ex - (ey + e')) with (ex - ey - e') in Hle by lia.
      replace (eT + ey - (ey + e')) with (eT - e') in Hle by lia.
      rewrite Hdiv in Hle.
      unfold code. cbn [loc_code]. rewrite Z.add_0_r.
      assert (0 <= loc_code l) by (destruct l as [|[]]; cbn; lia).
      set (qT := Z.pos mT * 2 ^ (eT - e')) in *.
      replace (Z.pos mT * Z.pos my * 2 ^ (eT - e')) with (Z.pos my * qT) in Hle
        by (unfold qT; ring).
      assert (qT < q + 1) by (apply (Z.mul_lt_mono_pos_l (Z.pos my)); lia). lia.
  - destruct (ra_normal_positive q e' l (Hlong ltac:(lia)) ltac:(lia)) as (m3 & e3 & -> & Hm3 & He3).
    unfold pack. destruct m3 as [|p3|p3]; try lia.
    destruct (e3 <=? emax - prec); [|reflexivity].
    unfold SFleb, SFcompare.
    assert (Hlt : eT < e3) by lia. apply Z.compare_lt_iff in Hlt. now rewrite Hlt.
Qed.



(** The quotient of a negative by a positive number is not above zero. *)
Lemma ra_negative_not_above (m e : Z) (l : location) (y : spec_float) :
  0 <= m -> 0 <= fexp (Zdigits2 m + e) - e ->
  SFltb (S754_zero false) y = true ->
  SFltb y (binary_round_aux prec emax true m e l) = false.
Proof.
  intros Hm Hn Hy.
  destruct (ra_shape true m e l Hm Hn) as (m3 & e3 & -> & (Hc & _) & _).
  unfold pack. destruct m3 as [|p|p]; try lia;
    [|destruct (e3 <=? emax - prec)];
    destruct y as [[]|[]| |[] my ey]; try discriminate; reflexivity.
Qed.

(*MORE*)
End Rounding.

(** *** binary64 *)


Lemma prec_pos : 0 < prec.
Proof. reflexivity. Qed.

Lemma SF_div_ge_two (X Y : spec_float) :
  SpecFloat.valid_binary prec emax Y = true ->
  SFltb (S754_zero false) Y = true ->
  SFltb Y (SF64div X SF_two) = true ->
  SFleb SF_two (SF64div X Y) = true.
Proof.
  intros HvY HY Hlt. unfold SF64div in *.
  destruct Y as [sy|sy| |sy my ey]; try discriminate; destruct sy; try discriminate.
  - (* Y = +infinity *)
    destruct X as [sx|sx| |sx mx ex]; try destruct sx; try discriminate.
    + cbn [SFdiv xorb SF_two] in Hlt.
      destruct (div_core_spec prec emax prec_pos mx 4503599627370496 ex (-51))
        as (q & e' & l & r & E & _ & _ & _ & Hq & _ & _ & Hn & _).
      rewrite E in Hlt.
      now rewrite (ra_negative_not_above prec emax prec_pos q e' l _ Hq Hn) in Hlt.
    + cbn [SFdiv xorb SF_two] in Hlt.
      destruct (div_core_spec prec emax prec_pos mx 4503599627370496 ex (-51))
        as (q & e' & l & r & E & _ & _ & _ & Hq & _ & _ & Hn & _).
      rewrite E in Hlt.
      destruct (ra_shape prec emax prec_pos false q e' l Hq Hn)
        as (m3 & e3 & E3 & (Hc & _) & _).
      rewrite E3 in Hlt. unfold pack in Hlt.
      destruct m3 as [|p|p]; try lia; try discriminate.
      destruct (e3 <=? emax - prec); discriminate.
  - (* Y finite and positive *)
    destruct X as [sx|sx| |sx mx ex]; try destruct sx; try discriminate; try reflexivity.
    + (* X negative *)
      cbn [SFdiv xorb SF_two] in Hlt.
      destruct (div_core_spec prec emax prec_pos mx 4503599627370496 ex (-51))
        as (q & e' & l & r & E & _ & _ & _ & Hq & _ & _ & Hn & _).
      rewrite E in Hlt.
      now rewrite (ra_negative_not_above prec emax prec_pos q e' l _ Hq Hn) in Hlt.
    + (* X positive *)
      apply (SFdiv_ge_repr prec emax prec_pos mx my 4503599627370496 ex ey (-51));
        [reflexivity|].
      replace (Z.pos 4503599627370496 * Z.pos my) with (Z.pos my * Z.pos 4503599627370496) by lia.
      replace (-51 + ey) with (ey + -51) by lia.
      destruct (dle_total (Z.pos mx) ex (Z.pos my * 4503599627370496) (ey + -51))
        as [Hle|Hge]; [exfalso | exact Hge].
      pose proof (SFdiv_le_repr prec emax prec_pos mx 4503599627370496 my ex (-51) ey HvY Hle) as Hc.
      apply SFleb_ltb_false in Hc. unfold SF_two in Hlt. congruence.
Qed.

Local Close Scope Z_scope.

(** ** Peak selector *)

Lemma in_zrange (a b L : Z) : In L (zrange a b) <-> (a <= L < b)%Z.
Proof.
  unfold zrange. rewrite in_map_iff. split.
  - intros [k [<- Hk]]. apply in_seq in Hk. lia.
  - intros H. exists (Z.to_nat (L - a)). split; [lia|]. apply in_seq. lia.
Qed.

Lemma isLocalMax_iff (c : list float) (p : Z) :
  isLocalMax c p = true <-> strictLocalMax c p.
Proof. unfold isLocalMax, strictLocalMax. apply andb_true_iff. Qed.

Lemma not_strictLocalMax_0 (c : list float) : ~ strictLocalMax c 0.
Proof.
  intros [H _]. unfold gtb, get in H. cbn in H.
  change (nan <? (if (0 <? Z.of_nat (List.length c))%Z then nth 0 c undefined else undefined))
    with (undefined <? get c 0) in H.
  rewrite FloatAxioms.ltb_spec in H. cbn in H. discriminate.
Qed.

Lemma peak_step_inv (c : list float) (seen : list Z) (st : peaks) (p : Z) :
  peak_inv c seen st -> peak_inv c (seen ++ [p]) (peak_step c st p).
Proof.
  intros Inv. unfold peak_step.
  destruct (isLocalMax c p) eqn:Hloc.
  - apply isLocalMax_iff in Hloc. unfold gtb at 1.
    destruct (maxCorrelation st <? get c p) eqn:Hmax.
    + (* a new best peak *)
      right. cbn [bestPeriod maxCorrelation].
      split; [apply in_or_app; right; now left|].
      split; [exact Hloc|]. split; [reflexivity|].
      assert (Hpos : (0 <? get c p) = true).
      { destruct Inv as [(_ & H0 & _) | (_ & _ & _ & H0 & _)].
        - now rewrite H0 in Hmax.
        - exact (ltb_trans _ _ _ H0 Hmax). }
      split; [exact Hpos|].
      intros L HL HLm. apply in_app_or in HL. destruct HL as [HL | [<- | []]].
      * destruct Inv as [(_ & H0 & Hall) | (_ & _ & _ & _ & Hall)].
        -- apply (ltb_false_trans 0); [now apply Hall | now rewrite <- H0].
        -- apply (ltb_false_trans (maxCorrelation st)); [now apply Hall | exact Hmax].
      * apply ltb_irrefl.
    + (* the best peak stays *)
      assert (Keep : peak_inv c (seen ++ [p]) st).
      { destruct Inv as [(Hb & H0 & Hall) | (Hin & Hm & He & H0 & Hall)].
        - left. repeat split; try assumption.
          intros L HL HLm. apply in_app_or in HL. destruct HL as [HL | [<- | []]].
          + now apply Hall.
          + now rewrite H0 in Hmax.
        - right. split; [apply in_or_app; now left|]. repeat split; try assumption;
            try apply Hm.
          intros L HL HLm. apply in_app_or in HL. destruct HL as [HL | [<- | []]].
          + now apply Hall.
          + exact Hmax. }
      destruct (gtb (get c p) (secondBestCorrelation st)); [|exact Keep].
      destruct Keep as [K | K]; [left | right]; exact K.
  - (* not a candidate *)
    assert (Hn : ~ strictLocalMax c p)
      by (intros H; apply isLocalMax_iff in H; congruence).
    destruct Inv as [(Hb & H0 & Hall) | (Hin & Hm & He & H0 & Hall)].
    + left. repeat split; try assumption.
      intros L HL HLm. apply in_app_or in HL. destruct HL as [HL | [<- | []]];
        [now apply Hall | contradiction].
    + right. split; [apply in_or_app; now left|]. repeat split; try assumption;
        try apply Hm.
      intros L HL HLm. apply in_app_or in HL. destruct HL as [HL | [<- | []]];
        [now apply Hall | contradiction].
Qed.

Lemma peak_fold_inv (c : list float) (l seen : list Z) (st : peaks) :
  peak_inv c seen st -> peak_inv c (seen ++ l) (fold_left (peak_step c) l st).
Proof.
  revert seen st. induction l as [|p l IH]; intros seen st Inv; cbn [fold_left].
  - now rewrite app_nil_r.
  - replace (seen ++ p :: l) with ((seen ++ [p]) ++ l) by now rewrite <- app_assoc.
    apply IH. now apply peak_step_inv.
Qed.

Lemma peakSearch_inv (c : list float) (a b : Z) :
  peak_inv c (zrange a b) (peakSearch c a b).
Proof.
  apply (peak_fold_inv c (zrange a b) [] no_peak).
  left. repeat split. intros L [].
Qed.

Lemma for_range_int (a b : Z) :
  (-9007199254740992 <= a)%Z -> for_range (IInt a) (IInt b) = Returns (zrange a b).
Proof.
  intros Ha. unfold for_range, iltb.
  destruct (Z.ltb_spec a b) as [Hab|Hab].
  - apply Z.leb_le in Ha. now rewrite Ha.
  - unfold zrange. replace (Z.to_nat (b - a)) with 0%nat by lia. reflexivity.
Qed.

(** C4 (as the code has it). Peak selection considers as candidates exactly
    the lags L with minPeriod <= L < min(maxPeriod, len(correlations) - 1)
    that are strict local maxima, where minPeriod = floor(sampleRate /
    maxFrequency) and maxPeriod = floor(sampleRate / minFrequency); it returns
    nothing exactly when bestPeriod == 0 (no candidate has a positive
    correlation) or the best correlation is below 0.15, and otherwise it
    refines the period of a candidate whose correlation no candidate
    exceeds. *)
Theorem C4_peak_selection (d : PitchDetector.t) (c : list float) (a m : Z) :
  minPeriod d = IInt a -> maxPeriod d = IInt m -> (-9007199254740992 <= a)%Z ->
  let b := Z.min m (Z.of_nat (List.length c) - 1) in
  let st := peakSearch c a b in
  findFundamentalFrequencyWithConfidence d c
  = (if (maxCorrelation st <? 0.15) || (bestPeriod st =? 0)%Z then Returns None
     else Returns (Some (parabolicInterpolation d c (bestPeriod st),
                         calculateConfidence d (maxCorrelation st)
                           (secondBestCorrelation st) c (bestPeriod st))))
  /\ (bestPeriod st = 0%Z <->
      forall L, candidate c a b L -> (0 <? get c L) = false)
  /\ (bestPeriod st <> 0%Z ->
      candidate c a b (bestPeriod st)
      /\ maxCorrelation st = get c (bestPeriod st)
      /\ forall L, candidate c a b L -> (maxCorrelation st <? get c L) = false).
Proof.
  intros Ha Hm Hlow b st.
  pose proof (peakSearch_inv c a b) as Inv. fold st in Inv.
  split; [|split].
  - unfold findFundamentalFrequencyWithConfidence, periodBound.
    rewrite Ha, Hm. cbn [imin]. fold b. rewrite for_range_int by exact Hlow.
    reflexivity.
  - split.
    + intros Hb L [HL HLm].
      destruct Inv as [(_ & _ & Hall) | (_ & Hmax & _)].
      * apply Hall; [now apply in_zrange | exact HLm].
      * rewrite Hb in Hmax. now apply not_strictLocalMax_0 in Hmax.
    + intros Hall.
      destruct Inv as [(Hb & _) | (Hin & Hmax & He & Hpos & _)]; [exact Hb|].
      apply in_zrange in Hin.
      rewrite He, (Hall (bestPeriod st) (conj Hin Hmax)) in Hpos. discriminate.
  - intros Hb.
    destruct Inv as [(Hb0 & _) | (Hin & Hmax & He & _ & Hall)]; [contradiction|].
    apply in_zrange in Hin. split; [exact (conj Hin Hmax)|]. split; [exact He|].
    intros L [HL HLm]. apply Hall; [now apply in_zrange | exact HLm].
Qed.

(** C4 at work on the default detector (lags 110 to 629 of a 700-sample
    array whose single peak is at lag 300). *)
Lemma C4_peak_selection_witness :
  let st := peakSearch lone_peak_300 110 (Z.min 630 (Z.of_nat (List.length lone_peak_300) - 1)) in
  bestPeriod st = 300%Z
  /\ candidate lone_peak_300 110 (Z.min 630 (Z.of_nat (List.length lone_peak_300) - 1)) 300
  /\ findFundamentalFrequencyWithConfidence default_detector lone_peak_300
     = Returns (Some (147, 0.30937500000000001)).
Proof.
  intros st.
  destruct (C4_peak_selection default_detector lone_peak_300 110 630
              eq_refl eq_refl ltac:(lia)) as (Hres & _ & Hbest).
  assert (Hb : bestPeriod st = 300%Z) by (vm_compute; reflexivity).
  split; [exact Hb|]. split.
  - rewrite <- Hb. apply Hbest. vm_compute. discriminate.
  - rewrite Hres. vm_compute. reflexivity.
Defined.

(** C4, refuted as stated: lag 630 = maxPeriod lies in the claimed range
    [minPeriod, min(maxPeriod, len - 2)], is a strict local maximum and its
    correlation 0.75 is above the threshold, yet nothing is returned: the
    scan stops before maxPeriod. *)
Lemma C4_maxPeriod_not_scanned :
  minPeriod default_detector = IInt 110
  /\ maxPeriod default_detector = IInt 630
  /\ (110 <= 630 <= Z.min 630 (Z.of_nat (List.length lone_peak_630) - 2))%Z
  /\ strictLocalMax lone_peak_630 630
  /\ (get lone_peak_630 630 <? 0.15) = false
  /\ findFundamentalFrequencyWithConfidence default_detector lone_peak_630 = Returns None.
Proof. vm_compute. repeat split; intros H; discriminate H. Qed.

(** ** Confidence scorer *)

Lemma SFmul_comm (x y : spec_float) : SF64mul x y = SF64mul y x.
Proof.
  unfold SF64mul, SFmul.
  destruct x as [sx|sx| |sx mx ex], y as [sy|sy| |sy my ey];
    try reflexivity; rewrite 1?xorb_comm; try reflexivity.
  now rewrite Pos.mul_comm, Z.add_comm.
Qed.

Lemma mul_comm (x y : float) : x * y = y * x.
Proof. apply Prim2SF_inj. rewrite !FloatAxioms.mul_spec. apply SFmul_comm. Qed.

(** C3 (as the code has it). The confidence is maxCorrelation multiplied by
    the dominance factor min(ratio / 2, 1), where ratio is
    maxCorrelation / secondBestCorrelation when there is a runner-up
    (secondBestCorrelation > 0) and maxCorrelation itself when there is none;
    then multiplied by 1.1 when sampleRate / bestPeriod < 150; then by
    (1 + 0.2 * consistencyBonus); and finally clamped to at most 1. *)
Theorem C3_confidence (d : PitchDetector.t) (maxCorrelation secondBestCorrelation : float)
    (correlations : list float) (bestPeriod : Z) :
  calculateConfidence d maxCorrelation secondBestCorrelation correlations bestPeriod
  = Math_min
      ((if sampleRate d / of_Z bestPeriod <? 150
        then maxCorrelation * dominance maxCorrelation secondBestCorrelation * 1.1
        else maxCorrelation * dominance maxCorrelation secondBestCorrelation)
       * (1 + 0.2 * calculateConsistencyBonus correlations bestPeriod)) 1
  /\ dominance maxCorrelation 0 = Math_min (maxCorrelation / 2) 1.
Proof.
  split; [|reflexivity].
  unfold calculateConfidence, dominance, gtb.
  rewrite (mul_comm (calculateConsistencyBonus correlations bestPeriod) 0.2).
  now destruct (sampleRate d / of_Z bestPeriod <? 150).
Qed.

(** C3, refuted as stated: for the single peak 0.75 at lag 300 there is no
    runner-up, the dominance factor is 0.375 and not 1, and the confidence
    is 0.309375 where the claim gives 0.825. *)
Lemma C3_no_runner_up_factor :
  let st := peakSearch lone_peak_300 110 630 in
  maxCorrelation st = 0.75 /\ secondBestCorrelation st = 0 /\ bestPeriod st = 300%Z
  /\ findFundamentalFrequencyWithConfidence default_detector lone_peak_300
     = Returns (Some (147, 0.30937500000000001))
  /\ confidence_as_designed default_detector 0.75 0 lone_peak_300 300
     = 0.82500000000000007
  /\ calculateConfidence default_detector 0.75 0 lone_peak_300 300
     <> confidence_as_designed default_detector 0.75 0 lone_peak_300 300.
Proof. vm_compute. repeat split. intros H. discriminate H. Qed.

(** The comment in the code reads: the larger the gap between the best and
    the second correlation, the higher the confidence.  Without a runner-up
    the gap is the largest there is, yet the same peak gets a lower
    confidence than with a runner-up of 0.01. *)
Lemma runner_up_raises_confidence :
  calculateConfidence default_detector 0.75 0 lone_peak_300 300 = 0.30937500000000001
  /\ calculateConfidence default_detector 0.75 0.01 lone_peak_300 300 = 0.82500000000000007
  /\ (calculateConfidence default_detector 0.75 0 lone_peak_300 300
      <? calculateConfidence default_detector 0.75 0.01 lone_peak_300 300) = true.
Proof. vm_compute. repeat split. Qed.

(** ** Pitch detector *)

Lemma geb_inside (lo hi f : float) :
  geb f lo = true -> (f <=? hi) = true -> (f <? lo) || gtb f hi = false.
Proof.
  unfold geb, gtb. intros Hlo Hhi.
  now rewrite (leb_ltb_false _ _ Hlo), (leb_ltb_false _ _ Hhi).
Qed.

(** C2. [detectPitch] returns nothing whenever the confidence is below 0.3,
    while [detectPitchWithConfidence] applies no confidence floor: whenever
    peak selection succeeds and the refined frequency lies within
    [minFrequency, maxFrequency] it returns the estimate, whatever the
    confidence; so [detectPitch] returns f exactly when
    [detectPitchWithConfidence] returns (f, c) for a c that passes the test
    of the code, that is, for which c < 0.3 fails. *)
Theorem C2_confidence_floor (d : PitchDetector.t) (frame : list float) :
  (forall f c, detectPitchWithConfidence d frame = Returns (Some (f, c)) ->
     (c <? 0.3) = true -> detectPitch d frame = Returns None)
  /\ (forall f c, frame <> [] ->
        findFundamentalFrequencyWithConfidence d
          (autocorrelate (applyGuitarFrequencyFilter frame)) = Returns (Some (f, c)) ->
        geb f (minFrequency (config d)) = true ->
        (f <=? maxFrequency (config d)) = true ->
        detectPitchWithConfidence d frame = Returns (Some (f, c)))
  /\ (forall f, detectPitch d frame = Returns (Some f) <->
        exists c, detectPitchWithConfidence d frame = Returns (Some (f, c))
                  /\ (c <? 0.3) = false).
Proof.
  unfold detectPitch, detectPitchWithConfidence.
  destruct frame as [|x frame].
  { split; [|split]; try discriminate.
    - intros f c H; now contradiction H.
    - intros f; split; [discriminate | intros [c [H _]]; discriminate]. }
  set (r := findFundamentalFrequencyWithConfidence d _).
  destruct r as [[[f0 c0]|]|]; cycle 1.
  { split; [|split]; try discriminate.
    intros f; split; [discriminate | intros [c [H _]]; discriminate]. }
  { split; [|split]; try discriminate.
    intros f; split; [discriminate | intros [c [H _]]; discriminate]. }
  split; [|split].
  - intros f c H Hc.
    destruct ((f0 <? minFrequency (config d)) || gtb f0 (maxFrequency (config d)));
      [reflexivity|].
    inversion H; subst. now rewrite Hc.
  - intros f c _ H Hlo Hhi. inversion H; subst. now rewrite geb_inside.
  - intros f.
    destruct ((f0 <? minFrequency (config d)) || gtb f0 (maxFrequency (config d))).
    { split; [discriminate | intros [c [H _]]; discriminate]. }
    destruct (c0 <? 0.3) eqn:Hc.
    + split; [discriminate|]. intros [c [H Hc']]. inversion H; subst. congruence.
    + split.
      * intros H. inversion H; subst. now exists c0.
      * intros [c [H _]]. now inversion H.
Qed.

(** ** Tuner engine *)

Lemma guitarNotes_sorted : guitarNotes = GUITAR_TUNING.
Proof. reflexivity. Qed.

Lemma closest_fold_inv (f : float) (notes l seen : list (string * float))
    (st : (string * float) * float) :
  In (fst st) notes ->
  snd st = Math_abs (f - snd (fst st)) ->
  (forall e, In e seen -> (Math_abs (f - snd e) <? snd st) = false) ->
  (forall e, In e l -> In e notes) ->
  let st' := fold_left (closest_step f) l st in
  In (fst st') notes
  /\ snd st' = Math_abs (f - snd (fst st'))
  /\ forall e, In e (seen ++ l) -> (Math_abs (f - snd e) <? snd st') = false.
Proof.
  revert seen st. induction l as [|x l IH]; intros seen st Hin Hmin Hseen Hsub; cbn [fold_left].
  - rewrite app_nil_r. auto.
  - replace (seen ++ x :: l) with ((seen ++ [x]) ++ l) by now rewrite <- app_assoc.
    apply IH; unfold closest_step;
      destruct (Math_abs (f - snd x) <? snd st) eqn:Hlt; cbn [fst snd]; auto;
      try (apply Hsub; now left); try (intros e He; apply Hsub; now right).
    + intros e He. apply in_app_or in He. destruct He as [He | [<- | []]].
      * destruct (Math_abs (f - snd e) <? Math_abs (f - snd x)) eqn:Hc; [|reflexivity].
        pose proof (Hseen e He) as Hs. now rewrite (ltb_trans _ _ _ Hc Hlt) in Hs.
      * apply ltb_irrefl.
    + intros e He. apply in_app_or in He. destruct He as [He | [<- | []]]; auto.
Qed.

Lemma closestFrom_nearest (f : float) (notes : list (string * float)) :
  notes <> [] ->
  exists reference,
    In (closestFrom notes f, reference) notes
    /\ forall e, In e notes -> (Math_abs (f - snd e) <? Math_abs (f - reference)) = false.
Proof.
  destruct notes as [|first notes]; [now intros H|]. intros _.
  unfold closestFrom.
  destruct (closest_fold_inv f (first :: notes) (first :: notes) []
              (first, Math_abs (f - snd first)))
    as (Hin & Hmin & Hall); cbn [fst snd]; auto.
  - now left.
  - intros e [].
  - set (st := fold_left _ _ _) in *. exists (snd (fst st)).
    split; [now rewrite <- surjective_pairing|].
    intros e He. rewrite <- Hmin. now apply Hall.
Qed.

Lemma lookup_GUITAR_TUNING (note : string) (reference : float) :
  In (note, reference) GUITAR_TUNING -> lookup note GUITAR_TUNING = reference.
Proof.
  intros H. repeat (destruct H as [H | H]; [now inversion H|]). destruct H.
Qed.

(** C1 (as the code has it). For every frequency f and confidence,
    [analyzeNote] returns the name of a nearest reference pitch, the cents
    Math.round(1200 * log2(f / reference.frequency)) for that pitch, where
    Math.round rounds to the nearest integer and a tie goes toward
    +infinity (0.5 -> 1, 2.5 -> 3, -0.5 -> -0, -2.5 -> -2), and the flag
    isInTune, which holds if and only if |cents| <= 5: it holds for cents 5
    and -5 and fails for 6 and -6. *)
Theorem C1_analyzeNote (Math_log2 : float -> float) (f confidence : float) :
  let r := analyzeNote Math_log2 f confidence in
  let reference := lookup (nd_note r) GUITAR_TUNING in
  In (nd_note r, reference) GUITAR_TUNING
  /\ (forall note frequency, In (note, frequency) GUITAR_TUNING ->
        (Math_abs (f - frequency) <? Math_abs (f - reference)) = false)
  /\ nd_cents r = Math_round (1200 * Math_log2 (f / reference))
  /\ (nd_isInTune r = true <-> (Math_abs (nd_cents r) <=? 5) = true)
  /\ (nd_cents r = 5 \/ nd_cents r = -5 -> nd_isInTune r = true)
  /\ (nd_cents r = 6 \/ nd_cents r = -6 -> nd_isInTune r = false)
  /\ (Math_round 0.6 = 1 /\ Math_round 0.4 = 0 /\ Math_round 0.5 = 1
      /\ Math_round 2.5 = 3 /\ Math_round (-0.5) = -0 /\ Math_round (-2.5) = -2)
  /\ nd_frequency r = f /\ nd_confidence r = confidence.
Proof.
  intros r reference.
  destruct (closestFrom_nearest f guitarNotes) as (ref & Hin & Hnear);
    [rewrite guitarNotes_sorted; discriminate|].
  rewrite guitarNotes_sorted in Hin, Hnear.
  change (closestFrom GUITAR_TUNING f) with (nd_note r) in Hin.
  assert (Href : reference = ref) by now apply lookup_GUITAR_TUNING.
  rewrite Href. split; [exact Hin|]. split.
  { intros note frequency He. exact (Hnear _ He). }
  rewrite <- Href.
  split; [reflexivity|]. split; [reflexivity|].
  assert (Htune : nd_isInTune r = (Math_abs (nd_cents r) <=? 5)) by reflexivity.
  split; [intros [H|H]; rewrite Htune, H; reflexivity|].
  split; [intros [H|H]; rewrite Htune, H; reflexivity|].
  repeat split.
Qed.

(** C1, refuted as stated: at f = 5.04025772729046 Hz the logarithm of
    f / 82.41 is -4.03125, the product with 1200 is the tie -4837.5, and the
    cents are -4837, where rounding half away from zero gives -4838. *)
Lemma C1_negative_tie :
  let f := 5.04025772729046 in
  let r := analyzeNote log2_reference f 1 in
  (0 <? f) = true
  /\ nd_note r = "E2"%string
  /\ 1200 * log2_reference (f / lookup (nd_note r) GUITAR_TUNING) = -4837.5
  /\ nd_cents r = -4837
  /\ round_half_away (1200 * log2_reference (f / lookup (nd_note r) GUITAR_TUNING)) = -4838
  /\ nd_cents r
     <> round_half_away (1200 * log2_reference (f / lookup (nd_note r) GUITAR_TUNING)).
Proof. vm_compute. repeat split. intros H. discriminate H. Qed.

(** ** Array bounds and the configuration invariant *)

Lemma Prim2SF_two : Prim2SF 2 = SF_two.
Proof. reflexivity. Qed.

Lemma div_ge_two (x y : float) :
  (0 <? y) = true -> (y <? x / 2) = true -> (2 <=? x / y) = true.
Proof.
  rewrite !FloatAxioms.ltb_spec, FloatAxioms.leb_spec, !FloatAxioms.div_spec.
  intros H0 H1. apply SF_div_ge_two.
  - apply Prim2SF_valid.
  - exact H0.
  - exact H1.
Qed.

Lemma floor_ge_two (x : float) :
  (2 <=? x) = true -> igeb_Z (Math_floor x) 2 = true.
Proof.
  rewrite FloatAxioms.leb_spec. unfold Math_floor.
  pose proof (Prim2SF_valid x) as Hv.
  destruct (Prim2SF x) as [s|s| |s m e]; try (destruct s); try (intros H; discriminate H);
    try reflexivity.
  intros H. cbn [igeb_Z cond_Zopp].
  apply Z.leb_le.
  apply valid_finite in Hv. destruct Hv as (Hc & _ & _).
  unfold SpecFloat.fexp, SpecFloat.emin in Hc.
  change prec with 53%Z in Hc. change emax with 1024%Z in Hc.
  pose proof (Zdigits2_bounds (Z.pos m) ltac:(lia)) as [Hd0 Hd].
  rewrite Prim2SF_two in H. unfold SF_two, SFleb, SFcompare in H.
  assert (Hm : (-51 <= e /\ 2 ^ 52 <= Z.pos m)%Z).
  { destruct (Z.compare_spec (-51) e) as [He|He|He]; try discriminate H.
    - split; [lia|]. change (PosDef.Pos.compare_cont Eq 4503599627370496 m)
        with (4503599627370496 ?= m)%positive in H.
      destruct (4503599627370496 ?= m)%positive eqn:Hcmp; try discriminate H.
      + apply Pos.compare_eq_iff in Hcmp. subst m. discriminate.
      + apply Pos.compare_lt_iff in Hcmp. apply Pos2Z.pos_lt_pos in Hcmp.
        apply Z.lt_le_incl. exact Hcmp.
    - split; [lia|]. replace (Zdigits2 (Z.pos m)) with 53%Z in Hd by lia. apply Hd. }
  destruct Hm as [He Hm].
  destruct (Z.le_gt_cases 0 e) as [Hpos|Hneg].
  - rewrite Z.shiftl_mul_pow2 by exact Hpos.
    assert (1 <= 2 ^ e)%Z by (apply (Z.pow_le_mono_r 2 0 e); lia). nia.
  - rewrite <- Z.shiftr_opp_r, Z.shiftr_div_pow2 by lia.
    apply Z.div_le_lower_bound; [apply Z.pow_pos_nonneg; lia|].
    assert (H0 : (2 ^ (- e) <= 2 ^ 51)%Z) by (apply Z.pow_le_mono_r; lia).
    apply Z.le_trans with (2 ^ 51 * 2)%Z; [|exact Hm].
    apply Z.mul_le_mono_nonneg_r; [discriminate | exact H0].
Qed.

Lemma minPeriod_ge_two (d : PitchDetector.t) :
  valid_config d -> igeb_Z (minPeriod d) 2 = true.
Proof.
  intros (Hmin & Hlt & Hmax). apply floor_ge_two, div_ge_two; [|exact Hmax].
  exact (ltb_trans _ _ _ Hmin Hlt).
Qed.

(** The scan ends, and every lag that it visits has both neighbours in the
    array. *)
Lemma scan_periods (d : PitchDetector.t) (c : list float) :
  igeb_Z (minPeriod d) 2 = true ->
  exists periods,
    for_range (minPeriod d) (periodBound d c) = Returns periods
    /\ forall p, In p periods -> (2 <= p < Z.of_nat (List.length c) - 1)%Z.
Proof.
  intros Hge. unfold periodBound.
  destruct (minPeriod d) as [| | |a]; try discriminate Hge.
  - exists []. split; [|intros p []]. unfold for_range.
    destruct (imin _ _); reflexivity.
  - cbn [igeb_Z] in Hge. apply Z.leb_le in Hge.
    destruct (maxPeriod d) as [| | |m]; cbn [imin].
    + exists []. split; [reflexivity | intros p []].
    + exists (zrange a (Z.of_nat (List.length c) - 1)). split.
      * apply for_range_int. lia.
      * intros p Hp. apply in_zrange in Hp. lia.
    + exists []. split; [reflexivity | intros p []].
    + exists (zrange a (Z.min m (Z.of_nat (List.length c) - 1))). split.
      * apply for_range_int. lia.
      * intros p Hp. apply in_zrange in Hp. lia.
Qed.

Lemma scan_reads_in_bounds (c : list float) (p : Z) :
  (1 <= p < Z.of_nat (List.length c) - 1)%Z -> Forall (in_bounds c) (scan_reads c p).
Proof.
  intros Hp. unfold scan_reads, in_bounds.
  destruct (gtb _ _); repeat constructor; lia.
Qed.

Lemma harmonic_reads_in_bounds (c : list float) (bestPeriod harmonic : Z) :
  Forall (in_bounds c) (harmonic_reads c bestPeriod harmonic).
Proof.
  unfold harmonic_reads, windowSize, iltb_Z, in_bounds.
  destruct (Math_floor _) as [| | |hp]; cbn [igeb_Z iltb andb];
    try (constructor; fail).
  destruct (Z.leb_spec 3 hp); cbn [andb]; [|constructor].
  destruct (Z.ltb_spec hp (Z.of_nat (List.length c) - 3)); [|constructor].
  repeat constructor; lia.
Qed.

Lemma interpolation_reads_in_bounds (c : list float) (p : Z) :
  Forall (in_bounds c) (interpolation_reads c p).
Proof.
  unfold interpolation_reads, in_bounds.
  destruct (Z.leb_spec p 0); cbn [orb]; [constructor|].
  destruct (Z.leb_spec (Z.of_nat (List.length c) - 1) p); [constructor|].
  repeat constructor; lia.
Qed.

Lemma selector_reads_in_bounds (c : list float) (periods : list Z) :
  (forall p, In p periods -> (1 <= p < Z.of_nat (List.length c) - 1)%Z) ->
  Forall (in_bounds c) (selector_reads c periods).
Proof.
  intros Hp. unfold selector_reads. apply Forall_app. split.
  - apply Forall_flat_map, Forall_forall. intros p Hin.
    apply scan_reads_in_bounds, Hp, Hin.
  - destruct (_ || _); [constructor|]. apply Forall_app. split.
    + apply Forall_flat_map, Forall_forall. intros h _. apply harmonic_reads_in_bounds.
    + apply interpolation_reads_in_bounds.
Qed.

Lemma scan_best (c : list float) (periods : list Z) :
  let st := fold_left (peak_step c) periods no_peak in
  bestPeriod st <> 0%Z -> In (bestPeriod st) periods.
Proof.
  intros st Hb.
  assert (Inv : peak_inv c ([] ++ periods) st).
  { apply peak_fold_inv. left. repeat split. intros L []. }
  destruct Inv as [(H0 & _) | (Hin & _)]; [contradiction | exact Hin].
Qed.

(** C10. Under the configuration invariant 0 < minFrequency < maxFrequency <
    sampleRate / 2, minPeriod = floor(sampleRate / maxFrequency) is at least
    2; the scan of the peak selector ends, and every index that the
    selector reads (period - 1 to period + 1 in the scan, the harmonic
    checks, the interpolation) is within the bounds of the array; a selected
    bestPeriod is one of the scanned lags and at least 2, so that
    sampleRate / bestPeriod is not a division by zero. *)
Theorem C10_reads_in_bounds (d : PitchDetector.t) (c : list float) :
  valid_config d ->
  igeb_Z (minPeriod d) 2 = true
  /\ exists periods,
       for_range (minPeriod d) (periodBound d c) = Returns periods
       /\ (forall p, In p periods -> (2 <= p < Z.of_nat (List.length c) - 1)%Z)
       /\ Forall (in_bounds c) (selector_reads c periods)
       /\ forall frequency confidence,
            findFundamentalFrequencyWithConfidence d c
            = Returns (Some (frequency, confidence)) ->
            let p := bestPeriod (fold_left (peak_step c) periods no_peak) in
            In p periods /\ (2 <= p)%Z
            /\ frequency = parabolicInterpolation d c p.
Proof.
  intros Hcfg. pose proof (minPeriod_ge_two d Hcfg) as Hmin.
  split; [exact Hmin|].
  destruct (scan_periods d c Hmin) as (periods & Hrun & Hrange).
  exists periods. split; [exact Hrun|]. split; [exact Hrange|]. split.
  - apply selector_reads_in_bounds. intros p Hp. specialize (Hrange p Hp). lia.
  - intros frequency confidence Hres p.
    unfold findFundamentalFrequencyWithConfidence in Hres. rewrite Hrun in Hres.
    fold p in Hres.
    destruct (_ || (p =? 0)%Z) eqn:Hrej in Hres; [discriminate Hres|].
    apply orb_false_iff in Hrej. destruct Hrej as [_ Hb]. apply Z.eqb_neq in Hb.
    pose proof (scan_best c periods Hb) as Hin. fold p in Hin.
    split; [exact Hin|]. split; [apply (Hrange p Hin)|].
    injection Hres as Hf _. now rewrite <- Hf.
Qed.

(** C10 at work: the default detector (44100 Hz, 70 to 400 Hz) on an array
    with a single peak at lag 300. *)
Lemma C10_reads_in_bounds_witness :
  valid_config default_detector
  /\ igeb_Z (minPeriod default_detector) 2 = true
  /\ exists periods,
       for_range (minPeriod default_detector) (periodBound default_detector lone_peak_300)
       = Returns periods
       /\ Forall (in_bounds lone_peak_300) (selector_reads lone_peak_300 periods).
Proof.
  assert (Hcfg : valid_config default_detector) by (repeat split).
  split; [exact Hcfg|].
  destruct (C10_reads_in_bounds default_detector lone_peak_300 Hcfg)
    as (Hmin & periods & Hrun & _ & Hreads & _).
  split; [exact Hmin|]. exists periods. split; [exact Hrun | exact Hreads].
Defined.

(** ** Frequencies that are not positive *)

Local Open Scope Z_scope.

Lemma SFabs_opp (x : spec_float) : SFabs (SFopp x) = SFabs x.
Proof. destruct x; reflexivity. Qed.

Lemma SFabs_round (s : bool) (m : positive) (e : Z) :
  SFabs (binary_round prec emax s m e) = binary_round prec emax false m e.
Proof.
  assert (Hpos : SFabs (binary_round prec emax false m e) = binary_round prec emax false m e).
  { destruct (binary_round_ra prec emax false m e) as (M & e' & Heq & HM & _ & _ & Hn).
    rewrite Heq.
    destruct (ra_shape prec emax prec_pos false M e' loc_Exact) as (m3 & e3 & Hp & _);
      [lia | exact Hn |].
    rewrite Hp. unfold pack. destruct m3; try reflexivity.
    destruct (_ <=? _); reflexivity. }
  rewrite binary_round_sign. destruct s; [rewrite SFabs_opp|]; exact Hpos.
Qed.

(** The distance from a negative number to a positive one is the rounded
    sum of the two magnitudes. *)
Lemma SFabs_sub_neg_pos (mf m : positive) (ef e : Z) :
  SFabs (SF64sub (S754_finite true mf ef) (S754_finite false m e))
  = binary_round prec emax false
      (fst (shl_align mf ef (Z.min ef e)) + fst (shl_align m e (Z.min ef e)))
      (Z.min ef e).
Proof.
  unfold SF64sub, SFsub. cbn [cond_Zopp].
  change (Z.neg (fst (shl_align mf ef (Z.min ef e)))
          - Z.pos (fst (shl_align m e (Z.min ef e))))
    with (Z.neg (fst (shl_align mf ef (Z.min ef e)) + fst (shl_align m e (Z.min ef e)))).
  unfold binary_normalize. apply SFabs_round.
Qed.

Lemma aligned_sum (mf m : positive) (ef e c : Z) :
  c <= ef -> c <= e ->
  Z.pos (fst (shl_align mf ef (Z.min ef e)) + fst (shl_align m e (Z.min ef e)))
  * 2 ^ (Z.min ef e - c)
  = Z.pos mf * 2 ^ (ef - c) + Z.pos m * 2 ^ (e - c).
Proof.
  intros Hf He. rewrite Pos2Z.inj_add.
  destruct (shl_align_spec mf ef (Z.min ef e)) as [_ ->].
  destruct (shl_align_spec m e (Z.min ef e)) as [_ ->].
  replace (Z.min ef (Z.min ef e)) with (Z.min ef e) by lia.
  replace (Z.min e (Z.min ef e)) with (Z.min ef e) by lia.
  rewrite Z.mul_add_distr_r, <- !Z.mul_assoc, <- !Z.pow_add_r by lia.
  f_equal; do 2 f_equal; lia.
Qed.

(** Among positive numbers, a larger one is farther from a number that is
    not positive. *)
Lemma SFabs_sub_far (F : spec_float) (m0 m1 : positive) (e0 e1 : Z) :
  SFleb F (S754_zero false) = true ->
  SFltb (S754_finite false m1 e1) (S754_finite false m0 e0) = false ->
  dle (Z.pos m0) e0 (Z.pos m1) e1 ->
  SFltb (SFabs (SF64sub F (S754_finite false m1 e1)))
        (SFabs (SF64sub F (S754_finite false m0 e0))) = false.
Proof.
  intros HF Hlt Hle.
  destruct F as [s|s| |s mf ef]; try discriminate HF.
  - (* a zero *) exact Hlt.
  - (* -infinity *) destruct s; [reflexivity | discriminate HF].
  - destruct s; [|discriminate HF].
    rewrite !SFabs_sub_neg_pos. apply SFleb_ltb_false.
    set (c := Z.min ef (Z.min e0 e1)).
    apply (binary_round_mono prec emax prec_pos _ _ _ _ c); try lia.
    rewrite !aligned_sum by lia.
    apply Z.add_le_mono_l. apply (dle_shift _ _ _ _ c); [lia | lia | exact Hle].
Qed.

Local Close Scope Z_scope.

Lemma abs_sub_far (f r0 r1 : float) (m0 m1 : positive) (e0 e1 : Z) :
  Prim2SF r0 = S754_finite false m0 e0 ->
  Prim2SF r1 = S754_finite false m1 e1 ->
  (r1 <? r0) = false ->
  dle (Z.pos m0) e0 (Z.pos m1) e1 ->
  (f <=? 0) = true ->
  (Math_abs (f - r1) <? Math_abs (f - r0)) = false.
Proof.
  intros H0 H1 Hlt Hle Hf. unfold Math_abs.
  rewrite FloatAxioms.ltb_spec, !FloatAxioms.abs_spec, !FloatAxioms.sub_spec, H0, H1.
  rewrite FloatAxioms.ltb_spec, H0, H1 in Hlt.
  rewrite FloatAxioms.leb_spec in Hf.
  now apply SFabs_sub_far.
Qed.

Lemma closest_fold_stays (f : float) (l : list (string * float))
    (st : (string * float) * float) :
  (forall e, In e l -> (Math_abs (f - snd e) <? snd st) = false) ->
  fold_left (closest_step f) l st = st.
Proof.
  induction l as [|x l IH]; intros H; cbn [fold_left]; [reflexivity|].
  unfold closest_step at 2. rewrite (H x) by now left.
  apply IH. intros e He. apply H. now right.
Qed.

Lemma E2_nearest_below (f : float) (e : string * float) :
  (f <=? 0) = true -> In e GUITAR_TUNING ->
  (Math_abs (f - snd e) <? Math_abs (f - 82.41)) = false.
Proof.
  intros Hf He. unfold GUITAR_TUNING in He.
  repeat (destruct He as [<- | He]; [cbn [snd] | ]); try contradiction.
  - apply ltb_irrefl.
  - eapply abs_sub_far; [reflexivity | reflexivity | reflexivity
                         | unfold dle; vm_compute; discriminate | exact Hf].
  - eapply abs_sub_far; [reflexivity | reflexivity | reflexivity
                         | unfold dle; vm_compute; discriminate | exact Hf].
  - eapply abs_sub_far; [reflexivity | reflexivity | reflexivity
                         | unfold dle; vm_compute; discriminate | exact Hf].
  - eapply abs_sub_far; [reflexivity | reflexivity | reflexivity
                         | unfold dle; vm_compute; discriminate | exact Hf].
  - eapply abs_sub_far; [reflexivity | reflexivity | reflexivity
                         | unfold dle; vm_compute; discriminate | exact Hf].
Qed.

Lemma getClosestGuitarNote_nonpositive (f : float) :
  (f <=? 0) = true -> getClosestGuitarNote f = "E2"%string.
Proof.
  intros Hf. unfold getClosestGuitarNote. rewrite guitarNotes_sorted.
  unfold closestFrom. change GUITAR_TUNING with (("E2"%string, 82.41) :: tl GUITAR_TUNING) at 1.
  cbv beta iota. rewrite closest_fold_stays; [reflexivity|].
  intros e He. cbn [snd]. now apply E2_nearest_below.
Qed.

(** C9. For every frequency f <= 0 and every confidence, analyzeNote returns
    an analysis whose note is E2, the lowest reference pitch of the table
    (82.41 Hz); its cents value is Math.round(1200 * log2(f / 82.41)),
    whatever that number is. *)
Theorem C9_nonpositive_frequency (Math_log2 : float -> float) (f confidence : float) :
  (f <=? 0) = true ->
  getClosestGuitarNote f = "E2"%string
  /\ analyzeNote Math_log2 f confidence
     = {| nd_frequency := f;
          nd_note := "E2";
          nd_cents := Math_round (1200 * Math_log2 (f / 82.41));
          nd_isInTune := Math_abs (Math_round (1200 * Math_log2 (f / 82.41))) <=? 5;
          nd_confidence := confidence |}.
Proof.
  intros Hf. pose proof (getClosestGuitarNote_nonpositive f Hf) as HE2.
  split; [exact HE2|]. unfold analyzeNote, calculateCentsDifference. rewrite HE2.
  reflexivity.
Qed.

(** C9 at work: a frequency of 0 Hz is analysed as an E2 that is
    infinitely flat, and -440 Hz as an E2 without a cents value. *)
Lemma C9_nonpositive_frequency_witness :
  nd_note (analyzeNote log2_reference 0 1) = "E2"%string
  /\ nd_cents (analyzeNote log2_reference 0 1) = neg_infinity
  /\ nd_note (analyzeNote log2_reference (-440) 1) = "E2"%string
  /\ is_nan (nd_cents (analyzeNote log2_reference (-440) 1)) = true.
Proof.
  destruct (C9_nonpositive_frequency log2_reference 0 1 eq_refl) as [_ H0].
  destruct (C9_nonpositive_frequency log2_reference (-440) 1 eq_refl) as [_ H1].
  rewrite H0, H1. cbn [nd_note nd_cents].
  split; [reflexivity|]. split; [vm_compute; reflexivity|].
  split; [reflexivity|]. vm_compute. reflexivity.
Defined.

(* ================================================================= *)
(** * Further properties of the code *)

(** ** Hostile frames *)

(** *** Numbers that are not finite absorb the arithmetic *)

Ltac by_spec_cases x y :=
  let sx := fresh "s" in let sy := fresh "s" in
  destruct (Prim2SF x) as [sx|sx| |sx ? ?], (Prim2SF y) as [sy|sy| |sy ? ?];
  try destruct sx; try destruct sy; try discriminate; try reflexivity.

Lemma nonfinite_add_l (x y : float) : nonfinite x = true -> nonfinite (x + y) = true.
Proof. unfold nonfinite. rewrite FloatAxioms.add_spec. by_spec_cases x y. Qed.

Lemma nonfinite_add_r (x y : float) : nonfinite y = true -> nonfinite (x + y) = true.
Proof. unfold nonfinite. rewrite FloatAxioms.add_spec. by_spec_cases x y. Qed.

Lemma nonfinite_sub_r (x y : float) : nonfinite y = true -> nonfinite (x - y) = true.
Proof. unfold nonfinite. rewrite FloatAxioms.sub_spec. by_spec_cases x y. Qed.

Lemma nonfinite_mul_l (x y : float) : nonfinite x = true -> nonfinite (x * y) = true.
Proof.
  unfold nonfinite. rewrite FloatAxioms.mul_spec. by_spec_cases x y.
Qed.

Lemma nonfinite_mul_r (x y : float) : nonfinite y = true -> nonfinite (x * y) = true.
Proof.
  unfold nonfinite. rewrite FloatAxioms.mul_spec. by_spec_cases x y.
Qed.

Lemma nonfinite_div_l (x y : float) : nonfinite x = true -> nonfinite (x / y) = true.
Proof. unfold nonfinite. rewrite FloatAxioms.div_spec. by_spec_cases x y. Qed.

Lemma nonfinite_fround (x : float) : nonfinite x = true -> fround x = x.
Proof. unfold nonfinite, fround. destruct (Prim2SF x); try discriminate; reflexivity. Qed.

Lemma nonfinite_div_nan (x y : float) :
  nonfinite x = true -> nonfinite y = true -> Prim2SF (x / y) = S754_nan.
Proof. unfold nonfinite. rewrite FloatAxioms.div_spec. by_spec_cases x y. Qed.

Lemma nonfinite_nonzero (x : float) : nonfinite x = true -> (x =? 0) = false.
Proof.
  unfold nonfinite. rewrite FloatAxioms.eqb_spec.
  destruct (Prim2SF x) as [s|s| |s ? ?]; try destruct s; try discriminate; reflexivity.
Qed.

Lemma nan_ltb_l (x y : float) : Prim2SF x = S754_nan -> (x <? y) = false.
Proof. intros H. rewrite FloatAxioms.ltb_spec, H. reflexivity. Qed.

Lemma nan_fround (x : float) : Prim2SF x = S754_nan -> Prim2SF (fround x) = S754_nan.
Proof. intros H. unfold fround. now rewrite H. Qed.

(** An accumulating loop [s += f a] ends with a number that is not finite
    as soon as one term is not finite. *)
Lemma fold_add_nonfinite (A : Type) (f : A -> float) (l : list A) (s : float) :
  nonfinite s = true \/ Exists (fun a => nonfinite (f a) = true) l ->
  nonfinite (fold_left (fun s a => s + f a) l s) = true.
Proof.
  revert s. induction l as [|a l IH]; intros s H; cbn [fold_left].
  - destruct H as [H|H]; [exact H | inversion H].
  - apply IH. destruct H as [H|H].
    + left. now apply nonfinite_add_l.
    + inversion H as [? ? Ha | ? ? Hl]; subst.
      * left. now apply nonfinite_add_r.
      * now right.
Qed.

Lemma sum_nonfinite (a : list float) :
  Exists (fun v => nonfinite v = true) a -> nonfinite (JS.sum a) = true.
Proof.
  intros H. unfold JS.sum.
  apply (fold_add_nonfinite float (fun v => v)). now right.
Qed.

Lemma mean_nonfinite (a : list float) :
  Exists (fun v => nonfinite v = true) a -> nonfinite (mean a) = true.
Proof. intros H. unfold mean. now apply nonfinite_div_l, sum_nonfinite. Qed.

Lemma lowpass_from_nonfinite (prev : float) (rest : list float) :
  Exists (fun v => nonfinite v = true) rest ->
  Exists (fun v => nonfinite v = true) (lowpass_from prev rest).
Proof.
  revert prev. induction rest as [|x rest IH]; intros prev H; [inversion H|].
  cbn [lowpass_from]. inversion H as [? ? Hx | ? ? Hr]; subst.
  - left. rewrite nonfinite_fround; now apply nonfinite_add_r, nonfinite_mul_r.
  - right. now apply IH.
Qed.

Lemma lowpass_nonfinite (buffer : list float) :
  Exists (fun v => nonfinite v = true) buffer ->
  Exists (fun v => nonfinite v = true) (lowpass buffer).
Proof.
  destruct buffer as [|x0 rest]; intros H; [inversion H|].
  cbn [lowpass]. inversion H as [? ? Hx | ? ? Hr]; subst.
  - left. now rewrite nonfinite_fround.
  - right. now apply lowpass_from_nonfinite.
Qed.

(** Removing a mean that is not finite leaves no finite sample. *)
Lemma centre_nonfinite (a : list float) (m : float) :
  nonfinite m = true ->
  Forall (fun v => nonfinite v = true) (map (fun v => fround (v - m)) a).
Proof.
  intros Hm. apply Forall_map, Forall_forall. intros v _.
  rewrite nonfinite_fround; now apply nonfinite_sub_r.
Qed.

Lemma filter_nonfinite (buffer : list float) :
  Exists (fun v => nonfinite v = true) buffer ->
  Forall (fun v => nonfinite v = true) (applyGuitarFrequencyFilter buffer).
Proof.
  intros H. unfold applyGuitarFrequencyFilter.
  now apply centre_nonfinite, mean_nonfinite, lowpass_nonfinite.
Qed.

Lemma applyGuitarFrequencyFilter_length (buffer : list float) :
  List.length (applyGuitarFrequencyFilter buffer) = List.length buffer.
Proof. unfold applyGuitarFrequencyFilter. now rewrite length_map, lowpass_length. Qed.

Lemma nth_nonfinite (a : list float) (i : nat) :
  Forall (fun v => nonfinite v = true) a -> nonfinite (nth i a undefined) = true.
Proof.
  intros H. destruct (Nat.lt_ge_cases i (List.length a)) as [Hi|Hi].
  - rewrite Forall_forall in H. apply H, nth_In, Hi.
  - now rewrite nth_overflow.
Qed.

(** The correlations of a frame without a finite sample are all NaN. *)
Lemma autocorrelate_nonfinite (buffer : list float) :
  buffer <> [] ->
  Forall (fun v => nonfinite v = true) buffer ->
  Forall (fun v => Prim2SF v = S754_nan) (autocorrelate buffer).
Proof.
  intros Hne Hall. unfold autocorrelate.
  assert (Hex : Exists (fun v => nonfinite v = true) buffer).
  { destruct buffer as [|x rest]; [contradiction|]. left. now inversion Hall. }
  set (centeredBuffer := map _ buffer).
  assert (Hc : Forall (fun v => nonfinite v = true) centeredBuffer)
    by now apply centre_nonfinite, mean_nonfinite.
  assert (Hlen : List.length centeredBuffer = List.length buffer)
    by apply length_map.
  set (sumSquares := fold_left _ centeredBuffer 0).
  assert (Hs : nonfinite sumSquares = true).
  { apply (fold_add_nonfinite float (fun c => c * c)). right.
    destruct centeredBuffer as [|c rest];
      [destruct buffer; [contradiction | discriminate Hlen]|].
    left. apply nonfinite_mul_l. now inversion Hc. }
  rewrite (nonfinite_nonzero _ Hs).
  apply Forall_map, Forall_forall. intros lag Hlag. apply in_seq in Hlag.
  apply nan_fround, nonfinite_div_nan; [|exact Hs].
  unfold lagSum.
  apply (fold_add_nonfinite nat
           (fun i => nth i centeredBuffer undefined * nth (i + lag) centeredBuffer undefined)).
  right. rewrite Hlen.
  assert (Hpos : (0 < List.length buffer - lag)%nat).
  { pose proof (Nat.Div0.mul_div_le (List.length buffer) 2). lia. }
  destruct (List.length buffer - lag)%nat as [|n]; [lia|].
  cbn [seq]. left. now apply nonfinite_mul_l, nth_nonfinite.
Qed.

(** *** An array without a strict local maximum has no peak *)

Lemma scan_flat (c : list float) (periods : list Z) :
  (forall p, isLocalMax c p = false) ->
  fold_left (peak_step c) periods no_peak = no_peak.
Proof.
  intros H. induction periods as [|p periods IH]; cbn [fold_left]; [reflexivity|].
  unfold peak_step at 2. now rewrite H.
Qed.

Lemma selector_flat (d : PitchDetector.t) (c : list float) :
  valid_config d ->
  (forall p, isLocalMax c p = false) ->
  findFundamentalFrequencyWithConfidence d c = Returns None.
Proof.
  intros Hcfg H. unfold findFundamentalFrequencyWithConfidence.
  destruct (scan_periods d c (minPeriod_ge_two d Hcfg)) as (periods & -> & _).
  rewrite scan_flat by exact H. cbn [bestPeriod no_peak]. now rewrite orb_true_r.
Qed.

Lemma get_Forall (P : float -> Prop) (c : list float) (i : Z) :
  P undefined -> Forall P c -> P (get c i).
Proof.
  intros Hu H. unfold get. destruct (_ && _); [|exact Hu].
  destruct (Nat.lt_ge_cases (Z.to_nat i) (List.length c)) as [Hi|Hi].
  - rewrite Forall_forall in H. apply H, nth_In, Hi.
  - now rewrite nth_overflow.
Qed.

Lemma selector_all_nan (d : PitchDetector.t) (c : list float) :
  valid_config d ->
  Forall (fun v => Prim2SF v = S754_nan) c ->
  findFundamentalFrequencyWithConfidence d c = Returns None.
Proof.
  intros Hcfg H. apply selector_flat; [exact Hcfg|]. intros p.
  unfold isLocalMax, gtb.
  assert (Hp : Prim2SF (get c (p - 1)) = S754_nan)
    by (apply (get_Forall (fun v => Prim2SF v = S754_nan)); [reflexivity | exact H]).
  rewrite FloatAxioms.ltb_spec, Hp. reflexivity.
Qed.

(** X1. A frame with a sample that is NaN or an infinity has no pitch: every
    correlation is NaN, and no lag is a peak. *)
Theorem nonfinite_sample_no_pitch (d : PitchDetector.t) (frame : list float) :
  valid_config d ->
  Exists (fun v => nonfinite v = true) frame ->
  detectPitch d frame = Returns None
  /\ detectPitchWithConfidence d frame = Returns None.
Proof.
  intros Hcfg Hex.
  assert (Hsel : findFundamentalFrequencyWithConfidence d
                   (autocorrelate (applyGuitarFrequencyFilter frame)) = Returns None).
  { apply selector_all_nan; [exact Hcfg|]. apply autocorrelate_nonfinite.
    - intros Hnil. apply (f_equal (@List.length float)) in Hnil.
      rewrite applyGuitarFrequencyFilter_length in Hnil. destruct frame; [inversion Hex | discriminate Hnil].
    - now apply filter_nonfinite. }
  unfold detectPitch, detectPitchWithConfidence.
  destruct frame as [|x rest]; [inversion Hex|]. now rewrite Hsel.
Qed.

Lemma nonfinite_sample_no_pitch_witness :
  detectPitch default_detector [0.5; nan; 0.25; infinity] = Returns None
  /\ detectPitchWithConfidence default_detector [1; neg_infinity] = Returns None.
Proof.
  assert (Hcfg : valid_config default_detector) by (repeat split).
  split.
  - apply (nonfinite_sample_no_pitch default_detector [0.5; nan; 0.25; infinity] Hcfg).
    right. left. reflexivity.
  - apply (nonfinite_sample_no_pitch default_detector [1; neg_infinity] Hcfg).
    right. left. reflexivity.
Defined.

(** *** Silence *)

Lemma zero_or_nan_add (x y : float) :
  zero_or_nan x = true -> zero_or_nan y = true -> zero_or_nan (x + y) = true.
Proof. unfold zero_or_nan. rewrite FloatAxioms.add_spec. by_spec_cases x y. Qed.

Lemma zero_or_nan_sub (x y : float) :
  zero_or_nan x = true -> zero_or_nan y = true -> zero_or_nan (x - y) = true.
Proof. unfold zero_or_nan. rewrite FloatAxioms.sub_spec. by_spec_cases x y. Qed.

Lemma zero_or_nan_mul_l (x y : float) :
  zero_or_nan x = true -> zero_or_nan (x * y) = true.
Proof. unfold zero_or_nan. rewrite FloatAxioms.mul_spec. by_spec_cases x y. Qed.

Lemma zero_or_nan_mul_r (x y : float) :
  zero_or_nan y = true -> zero_or_nan (x * y) = true.
Proof. unfold zero_or_nan. rewrite FloatAxioms.mul_spec. by_spec_cases x y. Qed.

Lemma zero_or_nan_div_l (x y : float) :
  zero_or_nan x = true -> zero_or_nan (x / y) = true.
Proof. unfold zero_or_nan. rewrite FloatAxioms.div_spec. by_spec_cases x y. Qed.

Lemma zero_or_nan_fround (x : float) : zero_or_nan x = true -> fround x = x.
Proof. unfold zero_or_nan, fround. destruct (Prim2SF x); try discriminate; reflexivity. Qed.

Lemma zero_or_nan_not_below (x y : float) :
  zero_or_nan x = true -> zero_or_nan y = true -> (x <? y) = false.
Proof. unfold zero_or_nan. rewrite FloatAxioms.ltb_spec. by_spec_cases x y. Qed.

Lemma zero_is_zero_or_nan (x : float) : (x =? 0) = true -> zero_or_nan x = true.
Proof.
  unfold zero_or_nan. rewrite FloatAxioms.eqb_spec.
  destruct (Prim2SF x) as [s|s| |s ? ?]; try destruct s; try discriminate; reflexivity.
Qed.

Lemma fold_add_zero_or_nan (A : Type) (f : A -> float) (l : list A) (s : float) :
  zero_or_nan s = true -> (forall a, In a l -> zero_or_nan (f a) = true) ->
  zero_or_nan (fold_left (fun s a => s + f a) l s) = true.
Proof.
  revert s. induction l as [|a l IH]; intros s Hs H; cbn [fold_left]; [exact Hs|].
  apply IH.
  - apply zero_or_nan_add; [exact Hs | apply H; now left].
  - intros b Hb. apply H. now right.
Qed.

Lemma mean_zero_or_nan (a : list float) :
  Forall (fun v => zero_or_nan v = true) a -> zero_or_nan (mean a) = true.
Proof.
  intros H. unfold mean, JS.sum. apply zero_or_nan_div_l.
  apply (fold_add_zero_or_nan float (fun v => v)); [reflexivity|].
  now apply Forall_forall.
Qed.

Lemma lowpass_from_zero_or_nan (prev : float) (rest : list float) :
  zero_or_nan prev = true ->
  Forall (fun v => zero_or_nan v = true) rest ->
  Forall (fun v => zero_or_nan v = true) (lowpass_from prev rest).
Proof.
  revert prev. induction rest as [|x rest IH]; intros prev Hp H; [constructor|].
  cbn [lowpass_from]. inversion H as [|? ? Hx Hr]; subst.
  assert (Hy : zero_or_nan (alpha * prev + (1 - alpha) * x) = true)
    by (apply zero_or_nan_add; now apply zero_or_nan_mul_r).
  rewrite (zero_or_nan_fround _ Hy). constructor; [exact Hy|]. now apply IH.
Qed.

Lemma centre_zero_or_nan (a : list float) (m : float) :
  zero_or_nan m = true ->
  Forall (fun v => zero_or_nan v = true) a ->
  Forall (fun v => zero_or_nan v = true) (map (fun v => fround (v - m)) a).
Proof.
  intros Hm H. apply Forall_map. revert H. apply Forall_impl. intros v Hv.
  assert (Hd : zero_or_nan (v - m) = true) by now apply zero_or_nan_sub.
  now rewrite (zero_or_nan_fround _ Hd).
Qed.

Lemma filter_zero_or_nan (buffer : list float) :
  Forall (fun v => zero_or_nan v = true) buffer ->
  Forall (fun v => zero_or_nan v = true) (applyGuitarFrequencyFilter buffer).
Proof.
  intros H. unfold applyGuitarFrequencyFilter.
  assert (Hl : Forall (fun v => zero_or_nan v = true) (lowpass buffer)).
  { destruct buffer as [|x0 rest]; [constructor|]. cbn [lowpass].
    inversion H as [|? ? Hx Hr]; subst. rewrite (zero_or_nan_fround _ Hx).
    constructor; [exact Hx|]. now apply lowpass_from_zero_or_nan. }
  apply centre_zero_or_nan; [now apply mean_zero_or_nan | exact Hl].
Qed.

Lemma nth_zero_or_nan (a : list float) (i : nat) :
  Forall (fun v => zero_or_nan v = true) a -> zero_or_nan (nth i a undefined) = true.
Proof.
  intros H. destruct (Nat.lt_ge_cases i (List.length a)) as [Hi|Hi].
  - rewrite Forall_forall in H. apply H, nth_In, Hi.
  - now rewrite nth_overflow.
Qed.

Lemma autocorrelate_zero_or_nan (buffer : list float) :
  Forall (fun v => zero_or_nan v = true) buffer ->
  Forall (fun v => zero_or_nan v = true) (autocorrelate buffer).
Proof.
  intros Hall. unfold autocorrelate.
  set (centeredBuffer := map _ buffer).
  assert (Hc : Forall (fun v => zero_or_nan v = true) centeredBuffer)
    by (apply centre_zero_or_nan; [now apply mean_zero_or_nan | exact Hall]).
  destruct (_ =? 0).
  - apply Forall_forall. intros v Hv. apply repeat_spec in Hv. now subst v.
  - apply Forall_map, Forall_forall. intros lag _.
    assert (Hq : zero_or_nan (lagSum centeredBuffer lag
                              / fold_left (fun s c => s + c * c) centeredBuffer 0) = true).
    { apply zero_or_nan_div_l. unfold lagSum.
      apply (fold_add_zero_or_nan nat
               (fun i => nth i centeredBuffer undefined
                         * nth (i + lag) centeredBuffer undefined)); [reflexivity|].
      intros i _. now apply zero_or_nan_mul_l, nth_zero_or_nan. }
    now rewrite (zero_or_nan_fround _ Hq).
Qed.

(** X2. A silent frame (every sample is +0 or -0) has no pitch. *)
Theorem silence_no_pitch (d : PitchDetector.t) (frame : list float) :
  valid_config d ->
  Forall (fun v => (v =? 0) = true) frame ->
  detectPitch d frame = Returns None
  /\ detectPitchWithConfidence d frame = Returns None.
Proof.
  intros Hcfg Hz.
  assert (Hsel : findFundamentalFrequencyWithConfidence d
                   (autocorrelate (applyGuitarFrequencyFilter frame)) = Returns None).
  { apply selector_flat; [exact Hcfg|]. intros p.
    assert (Hc : Forall (fun v => zero_or_nan v = true)
                   (autocorrelate (applyGuitarFrequencyFilter frame))).
    { apply autocorrelate_zero_or_nan, filter_zero_or_nan.
      revert Hz. apply Forall_impl. exact zero_is_zero_or_nan. }
    unfold isLocalMax, gtb.
    rewrite zero_or_nan_not_below; [reflexivity | |];
      apply (get_Forall (fun v => zero_or_nan v = true)); try reflexivity; exact Hc. }
  unfold detectPitch, detectPitchWithConfidence.
  destruct frame as [|x rest]; [split; reflexivity|]. now rewrite Hsel.
Qed.

Lemma silence_no_pitch_witness :
  detectPitch default_detector (repeat 0 4096) = Returns None
  /\ detectPitchWithConfidence default_detector (repeat neg_zero 4096) = Returns None.
Proof.
  assert (Hcfg : valid_config default_detector) by (repeat split).
  split.
  - apply (silence_no_pitch default_detector (repeat 0 4096) Hcfg).
    apply Forall_forall. intros v Hv. apply repeat_spec in Hv. now subst v.
  - apply (silence_no_pitch default_detector (repeat neg_zero 4096) Hcfg).
    apply Forall_forall. intros v Hv. apply repeat_spec in Hv. now subst v.
Defined.

(** ** Bounds of the confidence *)

Lemma SFltb_asym (a b : spec_float) : SFltb a b = true -> SFltb b a = false.
Proof.
  unfold SFltb.
  destruct a as [sa|sa| |sa ma ea], b as [sb|sb| |sb mb eb];
    try destruct sa; try destruct sb; sf_order.
Qed.

Lemma ltb_asym (a b : float) : (a <? b) = true -> (b <? a) = false.
Proof. rewrite !FloatAxioms.ltb_spec. apply SFltb_asym. Qed.

Lemma ltb_nan_r (a : float) : (a <? nan) = false.
Proof.
  rewrite FloatAxioms.ltb_spec. change (Prim2SF nan) with S754_nan.
  unfold SFltb. destruct (Prim2SF a) as [s|s| |s ? ?]; try destruct s; reflexivity.
Qed.

(** [Math.min(a, b)] is never above [b]. *)
Lemma Math_min_not_above (a b : float) : (b <? Math_min a b) = false.
Proof.
  unfold Math_min. destruct (is_nan a || is_nan b); [apply ltb_nan_r|].
  destruct (a <? b) eqn:Hab; [now apply ltb_asym|].
  destruct (b <? a) eqn:Hba; [apply ltb_irrefl|].
  destruct (get_sign a); [exact Hba | apply ltb_irrefl].
Qed.

(** The confidence of an estimate is never above 1. *)
Lemma confidence_not_above_1 (d : PitchDetector.t) (maxCorrelation secondBestCorrelation : float)
    (correlations : list float) (bestPeriod : Z) :
  (1 <? calculateConfidence d maxCorrelation secondBestCorrelation correlations bestPeriod)
  = false.
Proof. unfold calculateConfidence. apply Math_min_not_above. Qed.

Lemma harmonic_step_counts (c : list float) (bestPeriod harmonic k : Z) (st : Z * Z) :
  (0 <= fst st <= snd st)%Z -> (snd st <= k)%Z ->
  let st' := harmonic_step c bestPeriod st harmonic in
  (0 <= fst st' <= snd st')%Z /\ (snd st' <= k + 1)%Z.
Proof.
  destruct st as [consistentPeaks totalChecked]. cbn [fst snd]. intros H Hk.
  unfold harmonic_step. destruct (_ && _); [|cbn; lia].
  destruct (Math_floor _); try (cbn; lia).
  destruct (gtb _ _); cbn; lia.
Qed.

(** X6. The consistency bonus is a fraction of the (at most three) harmonics
    that were checked: a number from 0 to 1. *)
Theorem consistencyBonus_range (correlations : list float) (bestPeriod : Z) :
  In (calculateConsistencyBonus correlations bestPeriod)
     [0; 1; 0.5; 0.33333333333333331; 0.66666666666666663]
  /\ (0 <=? calculateConsistencyBonus correlations bestPeriod) = true
  /\ (calculateConsistencyBonus correlations bestPeriod <=? 1) = true.
Proof.
  unfold calculateConsistencyBonus. cbn [fold_left].
  pose proof (harmonic_step_counts correlations bestPeriod 2 0 (0, 0)%Z
                ltac:(cbn; lia) ltac:(cbn; lia)) as [H1 K1].
  set (s1 := harmonic_step correlations bestPeriod (0, 0)%Z 2) in *.
  pose proof (harmonic_step_counts correlations bestPeriod 3 1 s1 H1 K1) as [H2 K2].
  set (s2 := harmonic_step correlations bestPeriod s1 3) in *.
  pose proof (harmonic_step_counts correlations bestPeriod 4 2 s2 H2 K2) as [H3 K3].
  set (s3 := harmonic_step correlations bestPeriod s2 4) in *.
  destruct s3 as [consistentPeaks totalChecked]. cbn [fst snd] in H3, K3.
  assert (Ht : (totalChecked = 0 \/ totalChecked = 1 \/ totalChecked = 2
                \/ totalChecked = 3)%Z) by lia.
  assert (Hc : (consistentPeaks = 0 \/ consistentPeaks = 1 \/ consistentPeaks = 2
                \/ consistentPeaks = 3)%Z) by lia.
  destruct Ht as [-> | [-> | [-> | ->]]];
    destruct Hc as [-> | [-> | [-> | ->]]]; try lia;
    vm_compute; intuition.
Qed.

(** ** Frames that are too short *)

Lemma autocorrelate_length (buffer : list float) :
  List.length (autocorrelate buffer) = (List.length buffer / 2)%nat.
Proof.
  unfold autocorrelate. destruct (_ =? 0);
    [apply repeat_length | now rewrite length_map, length_seq].
Qed.

Lemma zrange_empty (a b : Z) : (b <= a)%Z -> zrange a b = [].
Proof. intros H. unfold zrange. now replace (Z.to_nat (b - a)) with 0%nat by lia. Qed.

Lemma selector_short (d : PitchDetector.t) (c : list float) (a : Z) :
  valid_config d -> minPeriod d = IInt a ->
  (Z.of_nat (List.length c) <= a + 1)%Z ->
  findFundamentalFrequencyWithConfidence d c = Returns None.
Proof.
  intros Hcfg Ha Hlen.
  pose proof (minPeriod_ge_two d Hcfg) as Hge. rewrite Ha in Hge.
  cbn [igeb_Z] in Hge. apply Z.leb_le in Hge.
  unfold findFundamentalFrequencyWithConfidence, periodBound. rewrite Ha.
  destruct (maxPeriod d) as [| | |m]; cbn [imin]; try reflexivity.
  - rewrite for_range_int, zrange_empty by lia. reflexivity.
  - rewrite for_range_int, zrange_empty by lia. reflexivity.
Qed.

(** X3. The scan starts at lag minPeriod and needs the two neighbours of a lag
    in an array of half the length of the frame: a frame of fewer than
    2 * (minPeriod + 2) samples has no pitch. *)
Theorem short_frame_no_pitch (d : PitchDetector.t) (frame : list float) (a : Z) :
  valid_config d -> minPeriod d = IInt a ->
  (Z.of_nat (List.length frame) < 2 * (a + 2))%Z ->
  detectPitch d frame = Returns None
  /\ detectPitchWithConfidence d frame = Returns None.
Proof.
  intros Hcfg Ha Hlen.
  assert (Hsel : findFundamentalFrequencyWithConfidence d
                   (autocorrelate (applyGuitarFrequencyFilter frame)) = Returns None).
  { apply (selector_short d _ a Hcfg Ha).
    rewrite autocorrelate_length, applyGuitarFrequencyFilter_length.
    rewrite Nat2Z.inj_div. change (Z.of_nat 2) with 2%Z.
    assert (Z.of_nat (List.length frame) / 2 < a + 2)%Z
      by (apply Z.div_lt_upper_bound; lia).
    lia. }
  unfold detectPitch, detectPitchWithConfidence.
  destruct frame as [|x rest]; [split; reflexivity|]. now rewrite Hsel.
Qed.

(** The default detector (lags from 110 on) on a frame of 223 samples. *)
Lemma short_frame_no_pitch_witness :
  minPeriod default_detector = IInt 110
  /\ detectPitch default_detector (map (fun k => of_Z (Z.of_nat k mod 7)) (seq 0 223))
     = Returns None.
Proof.
  assert (Hcfg : valid_config default_detector) by (repeat split).
  split; [reflexivity|].
  apply (short_frame_no_pitch default_detector _ 110 Hcfg eq_refl).
  rewrite length_map, length_seq. lia.
Defined.

(** ** The correlation at lag 0 *)

Local Open Scope Z_scope.

Lemma SFdiv_self_positive (m : positive) (e : Z) :
  SF64div (S754_finite false m e) (S754_finite false m e) = Prim2SF 1.
Proof.
  assert (Hv : SpecFloat.valid_binary prec emax (Prim2SF 1) = true) by apply Prim2SF_valid.
  change (Prim2SF 1) with (S754_finite false 4503599627370496 (-52)) in *.
  assert (Hle : dle (Z.pos m) e (Z.pos 4503599627370496 * Z.pos m) (-52 + e)).
  { unfold dle. replace (Z.min e (-52 + e)) with (-52 + e) by lia.
    replace (e - (-52 + e)) with 52 by lia. rewrite Z.sub_diag. lia. }
  assert (Hge : dle (Z.pos 4503599627370496 * Z.pos m) (-52 + e) (Z.pos m) e).
  { unfold dle. replace (Z.min (-52 + e) e) with (-52 + e) by lia.
    replace (e - (-52 + e)) with 52 by lia. rewrite Z.sub_diag. lia. }
  pose proof (SFdiv_le_repr prec emax prec_pos m m 4503599627370496 e e (-52) Hv Hle) as H1.
  pose proof (SFdiv_ge_repr prec emax prec_pos m m 4503599627370496 e e (-52) Hv Hge) as H2.
  clear Hv Hle Hge. revert H1 H2. unfold SF64div.
  generalize 4503599627370496%positive as M. intros M H1 H2.
  destruct (SFdiv prec emax _ _) as [s|s| |s q eq];
    try destruct s; try discriminate H1; try discriminate H2.
  unfold SFleb, SFcompare in H1, H2.
  destruct (Z.compare_spec eq (-52)) as [He|He|He].
  - subst eq. rewrite Z.compare_refl in H2.
    change (Pos.compare_cont Eq q M) with (Pos.compare q M) in H1.
    change (Pos.compare_cont Eq M q) with (Pos.compare M q) in H2.
    destruct (Pos.compare_spec q M) as [Hq|Hq|Hq]; try discriminate H1.
    + now subst q.
    + apply Pos.compare_gt_iff in Hq. rewrite Hq in H2. discriminate H2.
  - apply Z.compare_gt_iff in He. rewrite He in H2. discriminate H2.
  - discriminate H1.
Qed.

Local Close Scope Z_scope.

(** A finite number other than zero divided by itself is 1. *)
Lemma div_self (x : float) :
  nonfinite x = false -> (x =? 0) = false -> x / x = 1.
Proof.
  unfold nonfinite. rewrite FloatAxioms.eqb_spec. intros Hf Hz.
  apply Prim2SF_inj. rewrite FloatAxioms.div_spec.
  destruct (Prim2SF x) as [s|s| |s m e]; try discriminate Hf.
  - destruct s; discriminate Hz.
  - destruct s; [|apply SFdiv_self_positive].
    rewrite <- (SFdiv_self_positive m e). reflexivity.
Qed.

(** X4. The correlations are normalised: when the energy of the centred frame
    is a finite number other than zero, the correlation at lag 0 is
    exactly 1. *)
Theorem correlation_lag_0 (frame : list float) :
  (2 <= List.length frame)%nat ->
  nonfinite (sumSquares frame) = false ->
  (sumSquares frame =? 0) = false ->
  get (autocorrelate frame) 0 = 1.
Proof.
  intros Hlen Hfin Hnz.
  assert (Hsize : (0 < List.length frame / 2)%nat)
    by (apply Nat.div_str_pos; lia).
  rewrite get_nth by (rewrite autocorrelate_length; lia).
  rewrite autocorrelate_unfold, Hnz. change (Z.to_nat 0) with 0%nat.
  rewrite (nth_map_in _ _ _ _ _ 0%nat) by (rewrite length_seq; exact Hsize).
  rewrite seq_nth by exact Hsize. cbn [Nat.add]. unfold correlation.
  rewrite Nat.sub_0_r.
  rewrite (sigma_ext _ (fun i => centered frame i * centered frame i))
    by (intros i _; now rewrite Nat.add_0_r).
  fold (sumSquares frame). rewrite div_self by assumption. reflexivity.
Qed.

Lemma correlation_lag_0_witness :
  get (autocorrelate [0.5; -0.25; 0.75; -1; 0.125; 0.25]) 0 = 1.
Proof.
  apply correlation_lag_0; [cbn; lia | vm_compute; reflexivity | vm_compute; reflexivity].
Defined.

(** ** Frequencies that are not numbers of Hz *)

Lemma abs_sub_nonfinite (f r0 r1 : float) :
  nonfinite f = true -> (Math_abs (f - r1) <? Math_abs (f - r0)) = false.
Proof.
  unfold nonfinite, Math_abs.
  rewrite FloatAxioms.ltb_spec, !FloatAxioms.abs_spec, !FloatAxioms.sub_spec.
  destruct (Prim2SF f) as [sf|sf| |sf ? ?]; try discriminate; intros _;
    destruct (Prim2SF r0) as [s0|s0| |s0 ? ?], (Prim2SF r1) as [s1|s1| |s1 ? ?];
    try destruct sf; try destruct s0; try destruct s1; reflexivity.
Qed.

(** X9. NaN and the infinities are analysed as the first note of the table. *)
Theorem nonfinite_frequency_E2 (Math_log2 : float -> float) (f confidence : float) :
  nonfinite f = true ->
  getClosestGuitarNote f = "E2"%string
  /\ nd_note (analyzeNote Math_log2 f confidence) = "E2"%string.
Proof.
  intros Hf.
  assert (H : getClosestGuitarNote f = "E2"%string).
  { unfold getClosestGuitarNote. rewrite guitarNotes_sorted.
    unfold closestFrom.
    change GUITAR_TUNING with (("E2"%string, 82.41) :: tl GUITAR_TUNING) at 1.
    cbv beta iota. rewrite closest_fold_stays; [reflexivity|].
    intros e _. cbn [snd]. now apply abs_sub_nonfinite. }
  split; [exact H|]. unfold analyzeNote. cbn [nd_note]. exact H.
Qed.

Lemma nonfinite_frequency_E2_witness :
  nd_note (analyzeNote log2_reference nan 1) = "E2"%string
  /\ nd_note (analyzeNote log2_reference infinity 1) = "E2"%string.
Proof.
  split.
  - apply (nonfinite_frequency_E2 log2_reference nan 1). reflexivity.
  - apply (nonfinite_frequency_E2 log2_reference infinity 1). reflexivity.
Defined.

(** A cents value that is NaN or an infinity is never in tune. *)
Lemma nonfinite_not_in_tolerance (cents : float) :
  nonfinite cents = true -> (Math_abs cents <=? TUNING_TOLERANCE_CENTS) = false.
Proof.
  unfold nonfinite, Math_abs.
  rewrite FloatAxioms.leb_spec, FloatAxioms.abs_spec.
  destruct (Prim2SF cents) as [s|s| |s ? ?]; try discriminate; reflexivity.
Qed.

Lemma Math_round_nonfinite (x : float) : nonfinite x = true -> Math_round x = x.
Proof. unfold nonfinite, Math_round. destruct (Prim2SF x); try discriminate; reflexivity. Qed.

Section ConformingLog2.

(** What ECMA-262 fixes of [Math.log2]: NaN below zero, -infinity at the
    zeros. *)
Variable Math_log2 : float -> float.
Hypothesis log2_negative : forall x, (x <? 0) = true -> Prim2SF (Math_log2 x) = S754_nan.
Hypothesis log2_zero : forall x, (x =? 0) = true -> Math_log2 x = neg_infinity.

Lemma cents_nonpositive (x : float) :
  (x <=? 0) = true -> nonfinite (1200 * Math_log2 x) = true.
Proof.
  intros Hx. apply nonfinite_mul_r.
  destruct (x <? 0) eqn:Hneg.
  - unfold nonfinite. now rewrite log2_negative.
  - rewrite log2_zero; [reflexivity|].
    revert Hx Hneg. rewrite FloatAxioms.leb_spec, FloatAxioms.ltb_spec, FloatAxioms.eqb_spec.
    change (Prim2SF 0) with (S754_zero false).
    destruct (Prim2SF x) as [s|s| |s ? ?]; try destruct s; try discriminate; reflexivity.
Qed.

Lemma division_nonpositive (f r : float) (mr : positive) (er : Z) :
  Prim2SF r = S754_finite false mr er ->
  (f <=? 0) = true -> (f / r <=? 0) = true.
Proof.
  intros Hr. rewrite !FloatAxioms.leb_spec, FloatAxioms.div_spec, Hr.
  change (Prim2SF 0) with (S754_zero false).
  destruct (Prim2SF f) as [sf|sf| |sf mf ef];
    try destruct sf; try discriminate; try reflexivity.
  intros _. unfold SF64div, SFdiv. cbn [xorb].
  destruct (SFdiv_core_binary prec emax (Z.pos mf) ef (Z.pos mr) er) as [[q e'] l] eqn:Hcore.
  destruct (div_core_spec prec emax prec_pos mf mr ef er)
    as (q0 & e0 & l0 & r0 & Hc & _ & _ & _ & Hq & _ & _ & Hn & _).
  rewrite Hcore in Hc. injection Hc as -> -> ->.
  destruct (ra_shape prec emax prec_pos true q0 e0 l0 Hq Hn) as (m3 & e3 & -> & Hcan & _).
  unfold pack. destruct Hcan as [[H0 _] _].
  destruct m3 as [|p|p]; [reflexivity | | lia].
  destruct (_ <=? _)%Z; reflexivity.
Qed.

(** X10. A frequency that is not positive is never reported in tune. *)
Theorem nonpositive_never_in_tune (f confidence : float) :
  (f <=? 0) = true -> nd_isInTune (analyzeNote Math_log2 f confidence) = false.
Proof.
  intros Hf. unfold analyzeNote. cbn [nd_isInTune]. unfold calculateCentsDifference.
  rewrite (getClosestGuitarNote_nonpositive f Hf).
  change (lookup "E2" GUITAR_TUNING) with 82.41.
  assert (Hc : nonfinite (1200 * Math_log2 (f / 82.41)) = true).
  { eapply cents_nonpositive, division_nonpositive; [reflexivity | exact Hf]. }
  rewrite Math_round_nonfinite by exact Hc.
  now apply nonfinite_not_in_tolerance.
Qed.

End ConformingLog2.

Lemma log2_reference_negative (x : float) :
  (x <? 0) = true -> Prim2SF (log2_reference x) = S754_nan.
Proof.
  rewrite FloatAxioms.ltb_spec. change (Prim2SF 0) with (S754_zero false).
  unfold log2_reference.
  destruct (Prim2SF x) as [s|s| |s ? ?]; try destruct s; try discriminate; reflexivity.
Qed.

Lemma log2_reference_zero (x : float) :
  (x =? 0) = true -> log2_reference x = neg_infinity.
Proof.
  rewrite FloatAxioms.eqb_spec. change (Prim2SF 0) with (S754_zero false).
  unfold log2_reference.
  destruct (Prim2SF x) as [s|s| |s ? ?]; try destruct s; try discriminate; reflexivity.
Qed.

Lemma nonpositive_never_in_tune_witness :
  nd_isInTune (analyzeNote log2_reference (-82.41) 1) = false
  /\ nd_isInTune (analyzeNote log2_reference 0 1) = false.
Proof.
  split.
  - apply (nonpositive_never_in_tune log2_reference log2_reference_negative
             log2_reference_zero (-82.41) 1). reflexivity.
  - apply (nonpositive_never_in_tune log2_reference log2_reference_negative
             log2_reference_zero 0 1). reflexivity.
Defined.

(** ** The volume gates of the audio manager and of the processing loop *)

Lemma leb_ltb_not_below (a b c : float) :
  (a <=? b) = true -> (b <? c) = true -> (c <? a) = false.
Proof. intros H1 H2. apply ltb_asym. exact (leb_ltb_trans _ _ _ H1 H2). Qed.

(** X13. The audio manager delivers only buffers that are louder than its
    threshold; when that threshold is 0.005 or more (0.01 by default),
    the low-volume test of the processing loop never holds for a buffer
    that the manager delivers. *)
Theorem delivered_buffer_not_quiet (m : AudioManager.t) (timeDomainData : list float) :
  (0.005 <=? cfg_minVolumeThreshold (AudioManager.config m)) = true ->
  AudioManager.getAudioData m timeDomainData <> [] ->
  AudioManager.getAudioData m timeDomainData = timeDomainData
  /\ AudioManager.hasMinimumVolume m timeDomainData = true
  /\ GuitarTunerApp.lowVolume (AudioManager.getAudioData m timeDomainData) = false.
Proof.
  intros Hthr Hne. unfold AudioManager.getAudioData in *.
  destruct (negb _ || negb _ || negb _ || negb _); [contradiction|].
  destruct (AudioManager.hasMinimumVolume m timeDomainData) eqn:Hvol;
    [|contradiction]. cbn [negb] in *.
  split; [reflexivity|]. split; [reflexivity|].
  unfold GuitarTunerApp.lowVolume, GuitarTunerApp.calculateRMS.
  unfold AudioManager.hasMinimumVolume, gtb in Hvol.
  exact (leb_ltb_not_below _ _ _ Hthr Hvol).
Qed.

Lemma delivered_buffer_not_quiet_witness :
  let m := {| AudioManager.config := DEFAULT_AUDIO_CONFIG;
              AudioManager.isInitialized := true;
              AudioManager.isRecording := true;
              AudioManager.analyser := true;
              AudioManager.audioBuffer := true |} in
  AudioManager.getAudioData m [0.5; -0.5; 0.25; -0.25] = [0.5; -0.5; 0.25; -0.25]
  /\ GuitarTunerApp.lowVolume (AudioManager.getAudioData m [0.5; -0.5; 0.25; -0.25]) = false.
Proof.
  intros m.
  destruct (delivered_buffer_not_quiet m [0.5; -0.5; 0.25; -0.25]) as (H1 & _ & H2).
  - reflexivity.
  - vm_compute. discriminate.
  - split; [exact H1 | exact H2].
Defined.

Lemma nan_add_l (x y : float) : Prim2SF x = S754_nan -> Prim2SF (x + y) = S754_nan.
Proof. intros H. rewrite FloatAxioms.add_spec, H. reflexivity. Qed.

Lemma nan_add_r (x y : float) : Prim2SF y = S754_nan -> Prim2SF (x + y) = S754_nan.
Proof.
  intros H. rewrite FloatAxioms.add_spec, H. destruct (Prim2SF x); reflexivity.
Qed.

Lemma nan_mul_l (x y : float) : Prim2SF x = S754_nan -> Prim2SF (x * y) = S754_nan.
Proof. intros H. rewrite FloatAxioms.mul_spec, H. reflexivity. Qed.

Lemma nan_div_l (x y : float) : Prim2SF x = S754_nan -> Prim2SF (x / y) = S754_nan.
Proof. intros H. rewrite FloatAxioms.div_spec, H. reflexivity. Qed.

Lemma nan_sqrt (x : float) : Prim2SF x = S754_nan -> Prim2SF (PrimFloat.sqrt x) = S754_nan.
Proof. intros H. rewrite FloatAxioms.sqrt_spec, H. reflexivity. Qed.

Lemma fold_add_nan (A : Type) (f : A -> float) (l : list A) (s : float) :
  Prim2SF s = S754_nan \/ Exists (fun a => Prim2SF (f a) = S754_nan) l ->
  Prim2SF (fold_left (fun s a => s + f a) l s) = S754_nan.
Proof.
  revert s. induction l as [|a l IH]; intros s H; cbn [fold_left].
  - destruct H as [H|H]; [exact H | inversion H].
  - apply IH. destruct H as [H|H].
    + left. now apply nan_add_l.
    + inversion H as [? ? Ha | ? ? Hl]; subst.
      * left. now apply nan_add_r.
      * now right.
Qed.

(** X12. A buffer with a NaN sample has no volume: the audio manager delivers
    the empty buffer instead. *)
Theorem nan_buffer_not_delivered (m : AudioManager.t) (timeDomainData : list float) :
  Exists (fun v => Prim2SF v = S754_nan) timeDomainData ->
  AudioManager.hasMinimumVolume m timeDomainData = false
  /\ AudioManager.getAudioData m timeDomainData = [].
Proof.
  intros Hex.
  assert (Hvol : AudioManager.hasMinimumVolume m timeDomainData = false).
  { unfold AudioManager.hasMinimumVolume, gtb.
    rewrite FloatAxioms.ltb_spec, nan_sqrt.
    - destruct (Prim2SF _) as [s|s| |s ? ?]; try destruct s; reflexivity.
    - apply nan_div_l. apply (fold_add_nan float (fun b => b * b)). right.
      revert Hex. apply Exists_impl. intros v Hv. now apply nan_mul_l. }
  split; [exact Hvol|]. unfold AudioManager.getAudioData. rewrite Hvol.
  destruct (negb _ || negb _ || negb _ || negb _); reflexivity.
Qed.

Lemma nan_buffer_not_delivered_witness :
  AudioManager.getAudioData
    {| AudioManager.config := DEFAULT_AUDIO_CONFIG;
       AudioManager.isInitialized := true;
       AudioManager.isRecording := true;
       AudioManager.analyser := true;
       AudioManager.audioBuffer := true |} [0.5; nan; 0.75] = [].
Proof.
  apply nan_buffer_not_delivered. right. left. reflexivity.
Defined.

(** ** The rate of the display updates *)

Lemma readings_state (st : GuitarTunerApp.stability) (currentNote : string) (n : nat) :
  GuitarTunerApp.lastStableNote st <> currentNote ->
  (0 < n)%nat -> (Z.of_nat n <= 9007199254740992)%Z ->
  fst (GuitarTunerApp.readings st currentNote n)
  = {| GuitarTunerApp.lastStableNote := currentNote;
       GuitarTunerApp.stableNoteCount := Z.of_nat n |}.
Proof.
  intros Hnew. induction n as [|n IH]; intros Hpos Hmax; [lia|].
  cbn [GuitarTunerApp.readings].
  destruct (GuitarTunerApp.readings st currentNote n) as [st1 flags] eqn:Hrun.
  destruct n as [|n'].
  - cbn in Hrun. injection Hrun as <- _.
    unfold GuitarTunerApp.shouldUpdateUI.
    apply String.eqb_neq in Hnew. rewrite Hnew. reflexivity.
  - cbn [fst] in IH. rewrite IH by lia.
    unfold GuitarTunerApp.shouldUpdateUI.
    cbn [GuitarTunerApp.lastStableNote GuitarTunerApp.stableNoteCount].
    rewrite String.eqb_refl. unfold GuitarTunerApp.increment.
    destruct (Z.ltb_spec (Z.of_nat (S n')) 9007199254740992); [|lia].
    replace (Z.of_nat (S n') + 1)%Z with (Z.of_nat (S (S n'))) by lia.
    destruct (_ <? _)%Z; reflexivity.
Qed.

(** X14. When the key of the readings changes, the display is updated for each
    of the first ten readings with the new key, and from then on for
    every fifth one only. *)
Theorem display_update_rate (st : GuitarTunerApp.stability) (currentNote : string) (n : nat) :
  GuitarTunerApp.lastStableNote st <> currentNote ->
  (Z.of_nat n < 9007199254740992)%Z ->
  let before := fst (GuitarTunerApp.readings st currentNote n) in
  let k := Z.of_nat (S n) in
  GuitarTunerApp.shouldUpdateUI before currentNote
  = ({| GuitarTunerApp.lastStableNote := currentNote;
        GuitarTunerApp.stableNoteCount := k |},
     (k <=? 10)%Z || (k mod 5 =? 0)%Z).
Proof.
  intros Hnew Hmax before k. subst before.
  destruct n as [|n'].
  - cbn [GuitarTunerApp.readings fst]. unfold GuitarTunerApp.shouldUpdateUI.
    apply String.eqb_neq in Hnew. rewrite Hnew. reflexivity.
  - rewrite readings_state by (try exact Hnew; lia).
    unfold GuitarTunerApp.shouldUpdateUI.
    cbn [GuitarTunerApp.lastStableNote GuitarTunerApp.stableNoteCount].
    rewrite String.eqb_refl. unfold GuitarTunerApp.increment.
    destruct (Z.ltb_spec (Z.of_nat (S n')) 9007199254740992); [|lia].
    replace (Z.of_nat (S n') + 1)%Z with k by (subst k; lia).
    unfold GuitarTunerApp.stableNoteThreshold.
    destruct (Z.ltb_spec 10 k) as [Hk|Hk].
    + rewrite Z.rem_mod_nonneg by lia.
      destruct (Z.leb_spec k 10); [lia|]. reflexivity.
    + destruct (Z.leb_spec k 10); [|lia]. reflexivity.
Qed.

(** The fifteenth reading in a row is displayed, the fourteenth is not. *)
Lemma display_update_rate_witness :
  let fresh := {| GuitarTunerApp.lastStableNote := EmptyString;
                  GuitarTunerApp.stableNoteCount := 0 |} in
  snd (GuitarTunerApp.shouldUpdateUI
         (fst (GuitarTunerApp.readings fresh "E2_0" 14)) "E2_0") = true
  /\ snd (GuitarTunerApp.shouldUpdateUI
            (fst (GuitarTunerApp.readings fresh "E2_0" 13)) "E2_0") = false.
Proof.
  intros fresh. split.
  - rewrite (display_update_rate fresh "E2_0" 14); [reflexivity | discriminate | reflexivity].
  - rewrite (display_update_rate fresh "E2_0" 13); [reflexivity | discriminate | reflexivity].
Defined.

(** ** A frame of one sample *)

Local Open Scope Z_scope.

(** Two finite numbers of the same sign that are each at most the other
    are the same number. *)
Lemma SFleb_antisym_positive (m1 m2 : positive) (e1 e2 : Z) :
  SFleb (S754_finite false m1 e1) (S754_finite false m2 e2) = true ->
  SFleb (S754_finite false m2 e2) (S754_finite false m1 e1) = true ->
  S754_finite false m1 e1 = S754_finite false m2 e2.
Proof.
  unfold SFleb, SFcompare. intros H1 H2.
  destruct (Z.compare_spec e1 e2) as [He|He|He].
  - subst e2. rewrite Z.compare_refl in H2.
    change (Pos.compare_cont Eq m1 m2) with (Pos.compare m1 m2) in H1.
    change (Pos.compare_cont Eq m2 m1) with (Pos.compare m2 m1) in H2.
    destruct (Pos.compare_spec m1 m2) as [Hm|Hm|Hm]; try discriminate H1.
    + now subst m2.
    + apply Pos.compare_gt_iff in Hm. rewrite Hm in H2. discriminate H2.
  - apply Z.compare_gt_iff in He. rewrite He in H2. discriminate H2.
  - discriminate H1.
Qed.

Lemma SFdiv_one_positive (m : positive) (e : Z) :
  SpecFloat.valid_binary prec emax (S754_finite false m e) = true ->
  SF64div (S754_finite false m e) (Prim2SF 1) = S754_finite false m e.
Proof.
  intros Hv. change (Prim2SF 1) with (S754_finite false 4503599627370496 (-52)).
  assert (Hle : dle (Z.pos m) e (Z.pos m * Z.pos 4503599627370496) (e + -52)).
  { unfold dle. replace (Z.min e (e + -52)) with (e + -52) by lia.
    replace (e - (e + -52)) with 52 by lia. rewrite Z.sub_diag. lia. }
  assert (Hge : dle (Z.pos m * Z.pos 4503599627370496) (e + -52) (Z.pos m) e).
  { unfold dle. replace (Z.min (e + -52) e) with (e + -52) by lia.
    replace (e - (e + -52)) with 52 by lia. rewrite Z.sub_diag. lia. }
  pose proof (SFdiv_le_repr prec emax prec_pos m 4503599627370496 m e (-52) e Hv Hle) as H1.
  pose proof (SFdiv_ge_repr prec emax prec_pos m 4503599627370496 m e (-52) e Hv Hge) as H2.
  clear Hv Hle Hge. revert H1 H2. unfold SF64div.
  generalize 4503599627370496%positive as M. intros M H1 H2.
  destruct (SFdiv prec emax _ _) as [s|s| |s q eq];
    try destruct s; try discriminate H1; try discriminate H2.
  now apply SFleb_antisym_positive.
Qed.

Lemma SFdiv_opp_l (mx my : positive) (ex ey : Z) :
  SF64div (S754_finite true mx ex) (S754_finite false my ey)
  = SFopp (SF64div (S754_finite false mx ex) (S754_finite false my ey)).
Proof.
  unfold SF64div, SFdiv. cbn [xorb].
  destruct (div_core_spec prec emax prec_pos mx my ex ey)
    as (q & e' & l & r & -> & _ & _ & _ & Hq & _).
  now rewrite (ra_sign prec emax true q e' l Hq).
Qed.

Lemma SFsub_self (s : bool) (m : positive) (e : Z) :
  SF64sub (S754_finite s m e) (S754_finite s m e) = S754_zero false.
Proof. unfold SF64sub, SFsub. now rewrite Z.sub_diag. Qed.

Local Close Scope Z_scope.

(** Dividing by 1 changes nothing. *)
Lemma div_one (x : float) : x / 1 = x.
Proof.
  apply Prim2SF_inj. rewrite FloatAxioms.div_spec.
  pose proof (Prim2SF_valid x) as Hv.
  destruct (Prim2SF x) as [s|s| |s m e]; try (destruct s; reflexivity); try reflexivity.
  destruct s.
  - change (Prim2SF 1) with (S754_finite false 4503599627370496 (-52)).
    rewrite SFdiv_opp_l.
    change (S754_finite false 4503599627370496 (-52)) with (Prim2SF 1).
    rewrite SFdiv_one_positive by exact Hv. reflexivity.
  - now apply SFdiv_one_positive.
Qed.

Lemma zero_add_l (x : float) :
  nonfinite x = false -> (0 + x =? x) = true /\ (x - (0 + x) =? 0) = true.
Proof.
  unfold nonfinite. rewrite !FloatAxioms.eqb_spec, FloatAxioms.sub_spec, FloatAxioms.add_spec.
  change (Prim2SF 0) with (S754_zero false).
  destruct (Prim2SF x) as [s|s| |s m e]; try discriminate; intros _.
  - destruct s; split; reflexivity.
  - cbn [SF64add SFadd]. rewrite SFsub_self. split; [|reflexivity].
    unfold SFeqb, SFcompare. destruct s; now rewrite Z.compare_refl, Pos.compare_cont_refl.
Qed.

(** X8. A frame of one sample comes out of the filter as a zero (the sample
    minus the mean, which is the sample itself), not as the sample. *)
Theorem filter_single_sample (x0 : float) :
  nonfinite (fround x0) = false ->
  exists z, applyGuitarFrequencyFilter [x0] = [z] /\ (z =? 0) = true.
Proof.
  intros Hfin. unfold applyGuitarFrequencyFilter. cbn [lowpass lowpass_from map].
  unfold mean, JS.sum. cbn [fold_left List.length].
  change (of_Z (Z.of_nat 1)) with 1. rewrite div_one.
  destruct (zero_add_l (fround x0) Hfin) as [_ Hz].
  exists (fround (fround x0 - (0 + fround x0))). split; [reflexivity|].
  assert (Hk : zero_or_nan (fround x0 - (0 + fround x0)) = true).
  { apply zero_is_zero_or_nan, Hz. }
  now rewrite (zero_or_nan_fround _ Hk).
Qed.

Lemma filter_single_sample_witness :
  exists z, applyGuitarFrequencyFilter [0.5] = [z] /\ (z =? 0) = true.
Proof. apply filter_single_sample. reflexivity. Defined.

(** ** The range of the frequencies that are returned *)

Lemma inside_not_infinite (lo hi top f : float) (s : bool) :
  (0 <? lo) = true -> (hi <? top) = true ->
  (f <? lo) || gtb f hi = false ->
  Prim2SF f <> S754_infinity s.
Proof.
  unfold gtb. rewrite !FloatAxioms.ltb_spec. change (Prim2SF 0) with (S754_zero false).
  intros Hlo Hhi Hin Hf. rewrite Hf in Hin.
  destruct s.
  - destruct (Prim2SF lo) as [sl|sl| |sl ? ?]; try destruct sl; discriminate.
  - rewrite orb_false_iff in Hin. destruct Hin as [_ Hin].
    destruct (Prim2SF hi) as [sh|sh| |sh ? ?], (Prim2SF top) as [st|st| |st ? ?];
      try destruct sh; try destruct st; discriminate.
Qed.

(** X7. Under the configuration invariant, a frequency that a detection returns
    is not below minFrequency, not above maxFrequency, and not an
    infinity. *)
Theorem returned_frequency_in_range (d : PitchDetector.t) (frame : list float)
    (f c : float) :
  valid_config d ->
  detectPitchWithConfidence d frame = Returns (Some (f, c))
  \/ detectPitch d frame = Returns (Some f) ->
  (f <? minFrequency (config d)) = false
  /\ (maxFrequency (config d) <? f) = false
  /\ forall s, Prim2SF f <> S754_infinity s.
Proof.
  intros (Hmin & Hlt & Hmax) Hres.
  assert (Hin : (f <? minFrequency (config d)) || gtb f (maxFrequency (config d)) = false).
  { destruct Hres as [Hres|Hres];
      unfold detectPitchWithConfidence, detectPitch in Hres;
      destruct frame as [|x rest]; try discriminate Hres;
      destruct (findFundamentalFrequencyWithConfidence d _) as [[[f' c']|]|];
      try discriminate Hres;
      destruct ((f' <? minFrequency (config d)) || gtb f' (maxFrequency (config d)))
        eqn:Hrange; try discriminate Hres.
    - injection Hres as <- _. exact Hrange.
    - destruct (c' <? 0.3); [discriminate Hres|]. injection Hres as <-. exact Hrange. }
  pose proof Hin as Hin'. apply orb_false_iff in Hin'. destruct Hin' as [H1 H2].
  split; [exact H1|]. split; [exact H2|].
  intros s. exact (inside_not_infinite _ _ _ f s Hmin Hmax Hin).
Qed.

Lemma returned_frequency_in_range_witness :
  exists f c,
    detectPitchWithConfidence default_detector (square_wave 300) = Returns (Some (f, c))
    /\ (f <? 70) = false /\ (400 <? f) = false.
Proof.
  assert (Hcfg : valid_config default_detector) by (repeat split).
  assert (Hres : detectPitchWithConfidence default_detector (square_wave 300)
                 = Returns (Some (342.66823425911491, 0.16303346712526831)))
    by (vm_compute; reflexivity).
  destruct (returned_frequency_in_range default_detector (square_wave 300) _ _
              Hcfg (or_introl Hres)) as (H1 & H2 & _).
  exists 342.66823425911491, 0.16303346712526831.
  split; [exact Hres|]. split; [exact H1 | exact H2].
Defined.

(** ** The reference pitches *)

Section Log2One.

(** ECMA-262: [Math.log2(1)] is +0. *)
Variable Math_log2 : float -> float.
Hypothesis log2_one : Math_log2 1 = 0.

(** X11. Each reference frequency of the table is analysed as its own note, at
    0 cents and in tune. *)
Theorem reference_is_in_tune (note : string) (reference confidence : float) :
  In (note, reference) GUITAR_TUNING ->
  analyzeNote Math_log2 reference confidence
  = {| nd_frequency := reference;
       nd_note := note;
       nd_cents := 0;
       nd_isInTune := true;
       nd_confidence := confidence |}.
Proof.
  intros Hin. unfold GUITAR_TUNING in Hin.
  repeat (destruct Hin as [Hin | Hin]; [injection Hin as <- <- | ]); try contradiction;
    unfold analyzeNote, calculateCentsDifference.
  - change (getClosestGuitarNote 82.41) with "E2"%string.
    change (82.41 / lookup "E2" GUITAR_TUNING) with 1. now rewrite log2_one.
  - change (getClosestGuitarNote 110) with "A2"%string.
    change (110 / lookup "A2" GUITAR_TUNING) with 1. now rewrite log2_one.
  - change (getClosestGuitarNote 146.83) with "D3"%string.
    change (146.83 / lookup "D3" GUITAR_TUNING) with 1. now rewrite log2_one.
  - change (getClosestGuitarNote 196) with "G3"%string.
    change (196 / lookup "G3" GUITAR_TUNING) with 1. now rewrite log2_one.
  - change (getClosestGuitarNote 246.94) with "B3"%string.
    change (246.94 / lookup "B3" GUITAR_TUNING) with 1. now rewrite log2_one.
  - change (getClosestGuitarNote 329.63) with "E4"%string.
    change (329.63 / lookup "E4" GUITAR_TUNING) with 1. now rewrite log2_one.
Qed.

End Log2One.

Lemma reference_is_in_tune_witness :
  nd_note (analyzeNote log2_reference 196 1) = "G3"%string
  /\ nd_cents (analyzeNote log2_reference 196 1) = 0
  /\ nd_isInTune (analyzeNote log2_reference 196 1) = true.
Proof.
  assert (Hone : log2_reference 1 = 0) by (vm_compute; reflexivity).
  rewrite (reference_is_in_tune log2_reference Hone "G3" 196 1)
    by (right; right; right; left; reflexivity).
  repeat split.
Defined.

(** ** Products and quotients of numbers that are not negative *)

Local Open Scope Z_scope.

Lemma Zdigits2_mul_ge (a b : Z) :
  0 < a -> 0 < b -> Zdigits2 a + Zdigits2 b - 1 <= Zdigits2 (a * b).
Proof.
  intros Ha Hb.
  destruct (Zdigits2_bounds a Ha) as [Hda [Ha1 _]].
  destruct (Zdigits2_bounds b Hb) as [Hdb [Hb1 _]].
  replace (Zdigits2 a + Zdigits2 b - 1) with (Zdigits2 a - 1 + (Zdigits2 b - 1) + 1) by lia.
  apply Zdigits2_ge; [lia|].
  rewrite Z.pow_add_r by lia.
  apply Z.mul_le_mono_nonneg; try lia; apply Z.pow_nonneg; lia.
Qed.

(** The product of two finite numbers is rounded from a mantissa that is
    long enough. *)
Lemma SFmul_shape (sx sy : bool) (mx my : positive) (ex ey : Z) :
  SpecFloat.valid_binary prec emax (S754_finite sx mx ex) = true ->
  SpecFloat.valid_binary prec emax (S754_finite sy my ey) = true ->
  exists m3 e3,
    SF64mul (S754_finite sx mx ex) (S754_finite sy my ey)
    = pack prec emax (xorb sx sy) m3 e3 /\ 0 <= m3.
Proof.
  intros Hx Hy. unfold SF64mul, SFmul.
  destruct (valid_finite prec emax sx mx ex Hx) as (Hcx & _ & Hex).
  destruct (valid_finite prec emax sy my ey Hy) as (Hcy & _ & Hey).
  pose proof (Zdigits2_mul_ge (Z.pos mx) (Z.pos my) ltac:(lia) ltac:(lia)) as Hd.
  pose proof (Zdigits2_bounds (Z.pos mx) ltac:(lia)) as [Hdx _].
  pose proof (Zdigits2_bounds (Z.pos my) ltac:(lia)) as [Hdy _].
  change (Z.pos (mx * my)) with (Z.pos mx * Z.pos my).
  assert (Hn : 0 <= SpecFloat.fexp prec emax (Zdigits2 (Z.pos mx * Z.pos my) + (ex + ey))
                    - (ex + ey)).
  { unfold SpecFloat.fexp, SpecFloat.emin in *.
    change prec with 53 in *. change emax with 1024 in *. lia. }
  destruct (ra_shape prec emax prec_pos (xorb sx sy) (Z.pos mx * Z.pos my) (ex + ey)
              loc_Exact ltac:(lia) Hn) as (m3 & e3 & Heq & [[H0 _] _] & _).
  exists m3, e3. split; [exact Heq | exact H0].
Qed.

Lemma SFdiv_shape (sx sy : bool) (mx my : positive) (ex ey : Z) :
  exists m3 e3,
    SF64div (S754_finite sx mx ex) (S754_finite sy my ey)
    = pack prec emax (xorb sx sy) m3 e3 /\ 0 <= m3.
Proof.
  unfold SF64div, SFdiv.
  destruct (div_core_spec prec emax prec_pos mx my ex ey)
    as (q & e' & l & r & -> & _ & _ & _ & Hq & _ & _ & Hn & _).
  destruct (ra_shape prec emax prec_pos (xorb sx sy) q e' l Hq Hn)
    as (m3 & e3 & Heq & [[H0 _] _] & _).
  exists m3, e3. split; [exact Heq | exact H0].
Qed.

Lemma pack_nonneg (m e : Z) :
  0 <= m -> SFleb (S754_zero false) (pack prec emax false m e) = true.
Proof.
  intros H. unfold pack. destruct m as [|p|p]; [reflexivity | | lia].
  destruct (_ <=? _); reflexivity.
Qed.

Local Close Scope Z_scope.

(** [x] is a number that is not negative: not NaN, possibly a zero or
    +infinity. *)
Lemma nonneg_cases (x : float) :
  (0 <=? x) = true ->
  (exists s, Prim2SF x = S754_zero s) \/ Prim2SF x = S754_infinity false
  \/ exists m e, Prim2SF x = S754_finite false m e.
Proof.
  rewrite FloatAxioms.leb_spec. change (Prim2SF 0) with (S754_zero false).
  destruct (Prim2SF x) as [s|s| |s m e]; try destruct s; try discriminate; intros _.
  - left. now exists true.
  - left. now exists false.
  - right. now left.
  - right. right. now exists m, e.
Qed.

Lemma mul_nonneg (x y : float) :
  (0 <=? x) = true -> (0 <=? y) = true ->
  nonfinite x = false -> nonfinite y = false -> (0 <=? x * y) = true.
Proof.
  intros Hx Hy Hfx Hfy.
  pose proof (Prim2SF_valid x) as Hvx. pose proof (Prim2SF_valid y) as Hvy.
  unfold nonfinite in *. rewrite FloatAxioms.leb_spec, FloatAxioms.mul_spec.
  change (Prim2SF 0) with (S754_zero false).
  destruct (nonneg_cases x Hx) as [[sx Ex] | [Ex | (mx & ex & Ex)]];
    destruct (nonneg_cases y Hy) as [[sy Ey] | [Ey | (my & ey & Ey)]];
    rewrite Ex, Ey in *; try discriminate.
  - destruct sx, sy; reflexivity.
  - destruct sx; reflexivity.
  - destruct sy; reflexivity.
  - destruct (SFmul_shape false false mx my ex ey Hvx Hvy) as (m3 & e3 & -> & H0).
    now apply pack_nonneg.
Qed.

(** A number that is not negative times a finite positive number. *)
Lemma mul_nonneg_positive (x y : float) (my : positive) (ey : Z) :
  (0 <=? x) = true -> Prim2SF y = S754_finite false my ey -> (0 <=? x * y) = true.
Proof.
  intros Hx Ey.
  pose proof (Prim2SF_valid x) as Hvx. pose proof (Prim2SF_valid y) as Hvy.
  rewrite FloatAxioms.leb_spec, FloatAxioms.mul_spec.
  change (Prim2SF 0) with (S754_zero false).
  destruct (nonneg_cases x Hx) as [[sx Ex] | [Ex | (mx & ex & Ex)]];
    rewrite Ex, Ey in *.
  - destruct sx; reflexivity.
  - reflexivity.
  - destruct (SFmul_shape false false mx my ex ey Hvx Hvy) as (m3 & e3 & -> & H0).
    now apply pack_nonneg.
Qed.

Lemma div_nonneg_positive (x y : float) (my : positive) (ey : Z) :
  (0 <=? x) = true -> Prim2SF y = S754_finite false my ey -> (0 <=? x / y) = true.
Proof.
  intros Hx Ey.
  rewrite FloatAxioms.leb_spec, FloatAxioms.div_spec.
  change (Prim2SF 0) with (S754_zero false).
  destruct (nonneg_cases x Hx) as [[sx Ex] | [Ex | (mx & ex & Ex)]];
    rewrite Ex, Ey in *.
  - destruct sx; reflexivity.
  - reflexivity.
  - destruct (SFdiv_shape false false mx my ex ey) as (m3 & e3 & -> & H0).
    now apply pack_nonneg.
Qed.

Lemma positive_finite_cases (y : float) :
  (0 <? y) = true -> nonfinite y = false ->
  exists my ey, Prim2SF y = S754_finite false my ey.
Proof.
  unfold nonfinite. rewrite FloatAxioms.ltb_spec. change (Prim2SF 0) with (S754_zero false).
  destruct (Prim2SF y) as [s|s| |s m e]; try destruct s; try discriminate; intros _ _.
  now exists m, e.
Qed.

Lemma SFleb_total (a b : spec_float) :
  SFltb b a = false -> a <> S754_nan -> b <> S754_nan -> SFleb a b = true.
Proof.
  unfold SFltb, SFleb.
  destruct a as [sa|sa| |sa ma ea], b as [sb|sb| |sb mb eb];
    try destruct sa; try destruct sb; try congruence; sf_order.
Qed.

(** [Math.min(a, 1)] of a number that is not negative lies between 0 and 1. *)
Lemma Math_min_1_range (a : float) :
  (0 <=? a) = true ->
  (0 <=? Math_min a 1) = true /\ (Math_min a 1 <=? 1) = true
  /\ nonfinite (Math_min a 1) = false.
Proof.
  intros Ha. unfold Math_min.
  assert (Hnn : Prim2SF a <> S754_nan).
  { destruct (nonneg_cases a Ha) as [[s E] | [E | (m & e & E)]]; rewrite E; discriminate. }
  assert (Hnan : is_nan a = false).
  { unfold is_nan. rewrite FloatAxioms.eqb_spec.
    destruct (nonneg_cases a Ha) as [[s E] | [E | (m & e & E)]]; rewrite E.
    - destruct s; reflexivity.
    - reflexivity.
    - unfold SFeqb, SFcompare. now rewrite Z.compare_refl, Pos.compare_cont_refl. }
  rewrite Hnan. change (is_nan 1) with false. cbn [orb].
  assert (Hfin : (a <=? 1) = true -> nonfinite a = false).
  { unfold nonfinite. rewrite FloatAxioms.leb_spec.
    destruct (nonneg_cases a Ha) as [[s E] | [E | (m & e & E)]]; rewrite E;
      try reflexivity. discriminate. }
  assert (Hle : (1 <? a) = false -> (a <=? 1) = true).
  { rewrite FloatAxioms.ltb_spec, FloatAxioms.leb_spec. intros H.
    apply SFleb_total; [exact H | exact Hnn | discriminate]. }
  destruct (a <? 1) eqn:Hlt.
  - assert (H1 : (a <=? 1) = true) by (apply Hle; now apply ltb_asym).
    split; [exact Ha|]. split; [exact H1 | now apply Hfin].
  - destruct (1 <? a) eqn:Hgt; [repeat split|].
    destruct (get_sign a) eqn:Hs; [|repeat split].
    split; [exact Ha|]. split; [now apply Hle | now apply Hfin, Hle].
Qed.

(** ** The range of the confidence *)

Lemma consistency_counts (correlations : list float) (bestPeriod : Z) :
  let st := fold_left (harmonic_step correlations bestPeriod) [2; 3; 4]%Z (0, 0)%Z in
  (0 <= fst st <= snd st)%Z /\ (snd st <= 3)%Z.
Proof.
  cbn [fold_left].
  pose proof (harmonic_step_counts correlations bestPeriod 2 0 (0, 0)%Z
                ltac:(cbn; lia) ltac:(cbn; lia)) as [H1 K1].
  set (s1 := harmonic_step correlations bestPeriod (0, 0)%Z 2) in *.
  pose proof (harmonic_step_counts correlations bestPeriod 3 1 s1 H1 K1) as [H2 K2].
  set (s2 := harmonic_step correlations bestPeriod s1 3) in *.
  exact (harmonic_step_counts correlations bestPeriod 4 2 s2 H2 K2).
Qed.

(** The last factor of the confidence, [1 + consistencyBonus * 0.2], is a
    finite positive number. *)
Lemma consistency_factor_positive (correlations : list float) (bestPeriod : Z) :
  exists m e,
    Prim2SF (1 + calculateConsistencyBonus correlations bestPeriod * 0.2)
    = S754_finite false m e.
Proof.
  unfold calculateConsistencyBonus.
  pose proof (consistency_counts correlations bestPeriod) as [H3 K3].
  destruct (fold_left _ _ _) as [consistentPeaks totalChecked]. cbn [fst snd] in H3, K3.
  assert (Ht : (totalChecked = 0 \/ totalChecked = 1 \/ totalChecked = 2
                \/ totalChecked = 3)%Z) by lia.
  assert (Hc : (consistentPeaks = 0 \/ consistentPeaks = 1 \/ consistentPeaks = 2
                \/ consistentPeaks = 3)%Z) by lia.
  destruct Ht as [-> | [-> | [-> | ->]]];
    destruct Hc as [-> | [-> | [-> | ->]]]; try lia;
    eexists; eexists; vm_compute; reflexivity.
Qed.

Lemma ltb_leb (a b : float) : (a <? b) = true -> (a <=? b) = true.
Proof.
  rewrite FloatAxioms.ltb_spec, FloatAxioms.leb_spec. unfold SFltb, SFleb.
  destruct (SFcompare _ _) as [[ | | ]|]; try discriminate; reflexivity.
Qed.

Lemma confidence_range_of (d : PitchDetector.t) (maxCorrelation secondBestCorrelation : float)
    (correlations : list float) (bestPeriod : Z) :
  (0 <=? maxCorrelation) = true -> nonfinite maxCorrelation = false ->
  (0 <=? secondBestCorrelation) = true -> nonfinite secondBestCorrelation = false ->
  let confidence :=
    calculateConfidence d maxCorrelation secondBestCorrelation correlations bestPeriod in
  (0 <=? confidence) = true /\ (confidence <=? 1) = true.
Proof.
  intros Hmax Fmax Hsec Fsec confidence. subst confidence. unfold calculateConfidence.
  set (ratio := if gtb secondBestCorrelation 0 then _ else _).
  assert (Hratio : (0 <=? ratio) = true).
  { subst ratio. unfold gtb. destruct (0 <? secondBestCorrelation) eqn:Hpos; [|exact Hmax].
    destruct (positive_finite_cases _ Hpos Fsec) as (m & e & E).
    exact (div_nonneg_positive _ _ m e Hmax E). }
  assert (Hhalf : (0 <=? ratio / 2) = true).
  { eapply div_nonneg_positive; [exact Hratio | reflexivity]. }
  destruct (Math_min_1_range _ Hhalf) as (Hdom & _ & Fdom).
  set (dom := Math_min (ratio / 2) 1) in *.
  assert (H1 : (0 <=? maxCorrelation * dom) = true) by now apply mul_nonneg.
  set (boosted := if _ <? 150 then _ else _).
  assert (H2 : (0 <=? boosted) = true).
  { subst boosted. destruct (_ <? 150); [|exact H1].
    eapply mul_nonneg_positive; [exact H1 | reflexivity]. }
  destruct (consistency_factor_positive correlations bestPeriod) as (m & e & E).
  pose proof (mul_nonneg_positive _ _ m e H2 E) as H3.
  destruct (Math_min_1_range _ H3) as (Hlo & Hhi & _).
  split; assumption.
Qed.

(** What the scan keeps of its two correlations on an array of finite
    numbers: they are finite and not negative. *)
Lemma get_finite_or_nan (c : list float) (p : Z) :
  Forall (fun v => nonfinite v = false) c ->
  nonfinite (get c p) = false \/ Prim2SF (get c p) = S754_nan.
Proof.
  intros H. unfold get. destruct (_ && _); [|now right].
  destruct (Nat.lt_ge_cases (Z.to_nat p) (List.length c)) as [Hi|Hi].
  - left. rewrite Forall_forall in H. apply H, nth_In, Hi.
  - right. now rewrite nth_overflow.
Qed.

Lemma above_nonneg (c : list float) (p : Z) (x : float) :
  Forall (fun v => nonfinite v = false) c ->
  (0 <=? x) = true -> gtb (get c p) x = true ->
  (0 <=? get c p) = true /\ nonfinite (get c p) = false.
Proof.
  intros Hc Hx Hgt. unfold gtb in Hgt. split.
  - apply ltb_leb. exact (leb_ltb_trans _ _ _ Hx Hgt).
  - destruct (get_finite_or_nan c p Hc) as [H|H]; [exact H|].
    rewrite FloatAxioms.ltb_spec, H in Hgt.
    destruct (Prim2SF x) as [s|s| |s ? ?]; try destruct s; discriminate Hgt.
Qed.

Lemma peak_fold_nonneg (c : list float) (periods : list Z) (st : peaks) :
  Forall (fun v => nonfinite v = false) c ->
  (0 <=? maxCorrelation st) = true /\ nonfinite (maxCorrelation st) = false
  /\ (0 <=? secondBestCorrelation st) = true
  /\ nonfinite (secondBestCorrelation st) = false ->
  let st' := fold_left (peak_step c) periods st in
  (0 <=? maxCorrelation st') = true /\ nonfinite (maxCorrelation st') = false
  /\ (0 <=? secondBestCorrelation st') = true
  /\ nonfinite (secondBestCorrelation st') = false.
Proof.
  intros Hc. revert st. induction periods as [|p periods IH]; intros st H; [exact H|].
  cbn [fold_left]. apply IH. destruct H as (H1 & F1 & H2 & F2).
  unfold peak_step. destruct (isLocalMax c p); [|repeat split; assumption].
  destruct (gtb (get c p) (maxCorrelation st)) eqn:Hgt.
  - destruct (above_nonneg c p _ Hc H1 Hgt) as [Hn Hf].
    cbn [maxCorrelation secondBestCorrelation]. repeat split; assumption.
  - destruct (gtb (get c p) (secondBestCorrelation st)) eqn:Hgt2;
      [|repeat split; assumption].
    destruct (above_nonneg c p _ Hc H2 Hgt2) as [Hn Hf].
    cbn [maxCorrelation secondBestCorrelation]. repeat split; assumption.
Qed.

(** X5. On an array of finite correlations, the confidence of an estimate
    that the peak selector returns is a number from 0 to 1 (not NaN). *)
Theorem confidence_in_unit_interval (d : PitchDetector.t) (correlations : list float)
    (frequency confidence : float) :
  Forall (fun v => nonfinite v = false) correlations ->
  findFundamentalFrequencyWithConfidence d correlations
  = Returns (Some (frequency, confidence)) ->
  (0 <=? confidence) = true /\ (confidence <=? 1) = true.
Proof.
  intros Hc. unfold findFundamentalFrequencyWithConfidence.
  destruct (for_range _ _) as [periods|]; [|discriminate].
  destruct (_ || _); [discriminate|]. intros Hres. injection Hres as _ <-.
  destruct (peak_fold_nonneg correlations periods no_peak Hc) as (H1 & F1 & H2 & F2);
    [repeat split|].
  now apply confidence_range_of.
Qed.

Lemma confidence_in_unit_interval_witness :
  findFundamentalFrequencyWithConfidence default_detector lone_peak_300
  = Returns (Some (147, 0.30937500000000001))
  /\ (0 <=? 0.30937500000000001) = true /\ (0.30937500000000001 <=? 1) = true.
Proof.
  assert (Hres : findFundamentalFrequencyWithConfidence default_detector lone_peak_300
                 = Returns (Some (147, 0.30937500000000001))) by (vm_compute; reflexivity).
  split; [exact Hres|].
  apply (confidence_in_unit_interval default_detector lone_peak_300 147 _); [|exact Hres].
  unfold lone_peak_300. repeat (apply Forall_app; split);
    try (apply Forall_forall; intros v Hv; apply repeat_spec in Hv; now subst v).
  repeat constructor.
Defined.

(** ** The meter of the display *)

Lemma SFabs_leb_upper (x k : spec_float) :
  SFleb (SFabs x) k = true -> SFleb x k = true.
Proof.
  unfold SFleb.
  destruct x as [sx|sx| |sx mx ex], k as [sk|sk| |sk mk ek];
    try destruct sx; try destruct sk; sf_order.
Qed.

Lemma SFabs_leb_lower (x k : spec_float) :
  SFleb (SFabs x) k = true -> SFleb (SFopp k) x = true.
Proof.
  unfold SFleb.
  destruct x as [sx|sx| |sx mx ex], k as [sk|sk| |sk mk ek];
    try destruct sx; try destruct sk; sf_order.
Qed.

Lemma abs_leb_upper (x k : float) : (Math_abs x <=? k) = true -> (x <=? k) = true.
Proof.
  unfold Math_abs. rewrite !FloatAxioms.leb_spec, FloatAxioms.abs_spec.
  apply SFabs_leb_upper.
Qed.

Lemma abs_leb_lower (x k : float) : (Math_abs x <=? k) = true -> (- k <=? x) = true.
Proof.
  unfold Math_abs. rewrite !FloatAxioms.leb_spec, FloatAxioms.abs_spec, FloatAxioms.opp_spec.
  apply SFabs_leb_lower.
Qed.

Lemma is_nan_spec (x : float) : is_nan x = true <-> Prim2SF x = S754_nan.
Proof.
  unfold is_nan. rewrite FloatAxioms.eqb_spec.
  destruct (Prim2SF x) as [s|s| |s m e]; try destruct s; cbn;
    try (split; [discriminate | discriminate]); try (split; reflexivity).
  - unfold SFeqb, SFcompare. rewrite Z.compare_refl, Pos.compare_cont_refl.
    split; discriminate.
  - unfold SFeqb, SFcompare. rewrite Z.compare_refl, Pos.compare_cont_refl.
    split; discriminate.
Qed.

Lemma not_nan_total (a b : float) :
  is_nan a = false -> is_nan b = false -> (b <? a) = false -> (a <=? b) = true.
Proof.
  intros Ha Hb. rewrite FloatAxioms.ltb_spec, FloatAxioms.leb_spec. intros H.
  apply SFleb_total; [exact H | |]; intros E; apply is_nan_spec in E; congruence.
Qed.

(** The clamped cents are the cents themselves between -50 and 50, and the
    nearer bound outside. *)
Lemma clampedCents_cases (cents : float) :
  is_nan cents = false ->
  ((50 <? cents) = true /\ UIController.clampedCents cents = 50)
  \/ ((cents <? -50) = true /\ UIController.clampedCents cents = -50)
  \/ ((-50 <=? cents) = true /\ (cents <=? 50) = true
      /\ UIController.clampedCents cents = cents).
Proof.
  intros Hn. unfold UIController.clampedCents, Math_min.
  change (is_nan 50) with false. rewrite Hn. cbn [orb].
  destruct (50 <? cents) eqn:Hhi.
  - left. split; [reflexivity|]. vm_compute. reflexivity.
  - assert (Hle : (cents <=? 50) = true) by (apply not_nan_total; auto).
    assert (Hx : (if cents <? 50 then cents else if get_sign 50 then 50 else cents) = cents)
      by (destruct (cents <? 50); reflexivity).
    rewrite Hx. unfold UIController.Math_max.
    change (is_nan (-50)) with false. rewrite Hn. cbn [orb].
    destruct (-50 <? cents) eqn:Hlo.
    + right. right. split; [now apply ltb_leb|]. split; [exact Hle | reflexivity].
    + destruct (cents <? -50) eqn:Hlo2.
      * right. left. split; reflexivity.
      * right. right. split; [apply not_nan_total; auto|]. split; [exact Hle | reflexivity].
Qed.

(** X15. The needle of the meter is green exactly when analyzeNote reports
    the note in tune: clamping the cents to [-50, 50] does not change
    whether their magnitude is at most 5. *)
Theorem needle_green_iff_in_tune (Math_log2 : float -> float) (f confidence : float) :
  let noteData := analyzeNote Math_log2 f confidence in
  (UIController.needleColor (nd_cents noteData) = UIController.tuning_perfect
   <-> nd_isInTune noteData = true)
  /\ (UIController.tuningStateOf noteData = UIController.in_tune
      <-> UIController.needleColor (nd_cents noteData) = UIController.tuning_perfect).
Proof.
  intros noteData.
  assert (Htune : nd_isInTune noteData = (Math_abs (nd_cents noteData) <=? 5)) by reflexivity.
  set (cents := nd_cents noteData) in *.
  assert (Hsame : (Math_abs (UIController.clampedCents cents) <=? 5) = (Math_abs cents <=? 5)).
  { destruct (is_nan cents) eqn:Hn.
    - unfold UIController.clampedCents, Math_min. rewrite Hn, orb_true_r.
      apply is_nan_spec in Hn. unfold Math_abs at 2.
      rewrite (FloatAxioms.leb_spec (abs cents)), FloatAxioms.abs_spec, Hn. reflexivity.
    - destruct (clampedCents_cases cents Hn) as [[Hhi ->] | [[Hlo ->] | (_ & _ & ->)]];
        [| |reflexivity].
      + change (Math_abs 50 <=? 5) with false. symmetry.
        destruct (Math_abs cents <=? 5) eqn:Habs; [|reflexivity].
        apply abs_leb_upper in Habs.
        pose proof (leb_ltb_trans cents 5 50 Habs eq_refl) as H1.
        rewrite (ltb_asym _ _ H1) in Hhi. discriminate Hhi.
      + change (Math_abs (-50) <=? 5) with false. symmetry.
        destruct (Math_abs cents <=? 5) eqn:Habs; [|reflexivity].
        apply abs_leb_lower in Habs.
        pose proof (leb_ltb_trans (-5) cents (-50) Habs Hlo) as H1.
        discriminate H1. }
  unfold UIController.needleColor, UIController.tuningStateOf. fold cents.
  rewrite Hsame, Htune. split.
  - destruct (Math_abs cents <=? 5); [tauto|].
    destruct (Math_abs (UIController.clampedCents cents) <=? 15); split; discriminate.
  - destruct (Math_abs cents <=? 5); [tauto|].
    destruct (cents <? 0), (Math_abs (UIController.clampedCents cents) <=? 15);
      split; discriminate.
Qed.

(** *** The position of the needle *)

Local Open Scope Z_scope.

Lemma valid_canon (s : bool) (m : positive) (e : Z) :
  SpecFloat.valid_binary prec emax (S754_finite s m e) = true ->
  canon prec emax (Z.pos m) e /\ e <= emax - prec.
Proof.
  intros Hv. destruct (valid_finite prec emax s m e Hv) as (Hc & Hb & Hmin).
  destruct (Zdigits2_bounds (Z.pos m) ltac:(lia)) as [Hd0 [Hd1 Hd2]].
  unfold SpecFloat.fexp in Hc.
  assert (Hd : Zdigits2 (Z.pos m) <= prec) by lia.
  split; [|exact Hb]. unfold canon. split; [|split; [exact Hmin|]].
  - split; [lia|]. apply Z.lt_le_trans with (2 ^ Zdigits2 (Z.pos m)); [lia|].
    apply Z.pow_le_mono_r; lia.
  - destruct (Z.eq_dec e (SpecFloat.emin prec emax)) as [He|He]; [now right | left].
    replace (prec - 1) with (Zdigits2 (Z.pos m) - 1) by lia. exact Hd1.
Qed.

Lemma pack_finite (s : bool) (m : positive) (e : Z) :
  e <= emax - prec -> pack prec emax s (Z.pos m) e = S754_finite s m e.
Proof. intros H. unfold pack. apply Z.leb_le in H. now rewrite H. Qed.

(** The order of two finite positive numbers is the order of their
    values. *)
Lemma SFleb_dle (m1 m2 : positive) (e1 e2 : Z) :
  SpecFloat.valid_binary prec emax (S754_finite false m1 e1) = true ->
  SpecFloat.valid_binary prec emax (S754_finite false m2 e2) = true ->
  SFleb (S754_finite false m1 e1) (S754_finite false m2 e2) = true ->
  dle (Z.pos m1) e1 (Z.pos m2) e2.
Proof.
  intros H1 H2 Hle.
  destruct (dle_total (Z.pos m1) e1 (Z.pos m2) e2) as [H|H]; [exact H|].
  destruct (valid_canon _ _ _ H1) as [C1 B1]. destruct (valid_canon _ _ _ H2) as [C2 B2].
  pose proof (canon_order prec emax prec_pos (Z.pos m2) e2 (Z.pos m1) e1 (Z.min e2 e1)
                C2 C1 ltac:(lia) ltac:(lia) H) as Hge.
  rewrite !pack_finite in Hge by assumption.
  injection (SFleb_antisym_positive _ _ _ _ Hle Hge) as -> ->.
  unfold dle. lia.
Qed.

Lemma dle_SFleb (m1 m2 : positive) (e1 e2 : Z) :
  SpecFloat.valid_binary prec emax (S754_finite false m1 e1) = true ->
  SpecFloat.valid_binary prec emax (S754_finite false m2 e2) = true ->
  dle (Z.pos m1) e1 (Z.pos m2) e2 ->
  SFleb (S754_finite false m1 e1) (S754_finite false m2 e2) = true.
Proof.
  intros H1 H2 H.
  destruct (valid_canon _ _ _ H1) as [C1 B1]. destruct (valid_canon _ _ _ H2) as [C2 B2].
  pose proof (canon_order prec emax prec_pos (Z.pos m1) e1 (Z.pos m2) e2 (Z.min e1 e2)
                C1 C2 ltac:(lia) ltac:(lia) H) as Hle.
  now rewrite !pack_finite in Hle by assumption.
Qed.

Lemma binary_round_nonneg (m : positive) (e : Z) :
  SFleb (S754_zero false) (binary_round prec emax false m e) = true.
Proof.
  destruct (binary_round_ra prec emax false m e) as (M & e' & -> & HM & _ & _ & Hn).
  destruct (ra_shape prec emax prec_pos false M e' loc_Exact ltac:(lia) Hn)
    as (m3 & e3 & -> & [[H0 _] _] & _).
  now apply pack_nonneg.
Qed.

Lemma binary_round_le (m mT : positive) (e eT : Z) :
  SpecFloat.valid_binary prec emax (S754_finite false mT eT) = true ->
  dle (Z.pos m) e (Z.pos mT) eT ->
  SFleb (binary_round prec emax false m e) (S754_finite false mT eT) = true.
Proof.
  intros Hv H.
  rewrite <- (binary_round_exact prec emax false mT mT eT eT (Z.min e eT) Hv
                ltac:(lia) ltac:(lia) eq_refl).
  apply (binary_round_mono prec emax prec_pos m mT e eT (Z.min e eT)); [lia | lia | exact H].
Qed.

Lemma SFleb_negative (a b : positive) (ea eb : Z) :
  SFleb (S754_finite true a ea) (S754_finite true b eb)
  = SFleb (S754_finite false b eb) (S754_finite false a ea).
Proof.
  unfold SFleb, SFcompare. rewrite (Z.compare_antisym ea eb).
  destruct (ea ?= eb); cbn [CompOpp]; try reflexivity.
  now rewrite (Pos.compare_cont_antisym a b Eq).
Qed.

(** A number between -k and k, plus k, lies between 0 and 2k. *)
Lemma SFadd_range (Y : spec_float) (mk : positive) (ek : Z) :
  SpecFloat.valid_binary prec emax Y = true ->
  SpecFloat.valid_binary prec emax (S754_finite false mk ek) = true ->
  SpecFloat.valid_binary prec emax (S754_finite false mk (ek + 1)) = true ->
  SFleb (S754_finite true mk ek) Y = true ->
  SFleb Y (S754_finite false mk ek) = true ->
  SFleb (S754_zero false) (SF64add Y (S754_finite false mk ek)) = true
  /\ SFleb (SF64add Y (S754_finite false mk ek)) (S754_finite false mk (ek + 1)) = true.
Proof.
  intros HvY Hvk Hv2 Hlo Hhi.
  assert (Hk2 : SFleb (S754_finite false mk ek) (S754_finite false mk (ek + 1)) = true).
  { apply dle_SFleb; try assumption. unfold dle.
    replace (Z.min ek (ek + 1)) with ek by lia. rewrite Z.sub_diag.
    replace (ek + 1 - ek) with 1 by lia. lia. }
  destruct Y as [s|s| |s my ey].
  - (* a zero *) cbn [SF64add SFadd]. split; [reflexivity | exact Hk2].
  - destruct s; [discriminate Hlo | discriminate Hhi].
  - discriminate Hlo.
  - unfold SF64add, SFadd. set (ez := Z.min ey ek).
    assert (Hez : ez <= ey /\ ez <= ek) by (unfold ez; lia).
    clearbody ez.
    destruct (shl_align_spec my ey ez) as [_ Ey].
    destruct (shl_align_spec mk ek ez) as [_ Ek].
    replace (Z.min ey ez) with ez in Ey by lia.
    replace (Z.min ek ez) with ez in Ek by lia.
    assert (Hd : dle (Z.pos my) ey (Z.pos mk) ek).
    { destruct s.
      - rewrite SFleb_negative in Hlo. now apply SFleb_dle.
      - now apply SFleb_dle. }
    apply (proj1 (dle_shift (Z.pos my) ey (Z.pos mk) ek ez ltac:(lia) ltac:(lia))) in Hd.
    assert (P : 0 < 2 ^ (ek - ez)) by (apply Z.pow_pos_nonneg; lia).
    destruct s; cbn [cond_Zopp].
    + (* negative: the sum is k - |y| *)
      set (z := - Z.pos (fst (shl_align my ey ez)) + Z.pos (fst (shl_align mk ek ez))).
      assert (Hz : z = Z.pos mk * 2 ^ (ek - ez) - Z.pos my * 2 ^ (ey - ez))
        by (unfold z; rewrite <- Ey, <- Ek; lia).
      unfold binary_normalize. destruct z as [|p|p]; [split; [reflexivity|] | | lia].
      * reflexivity.
      * split; [apply binary_round_nonneg|].
        apply binary_round_le; [exact Hv2|].
        apply (dle_shift _ _ _ _ ez); [lia | lia |].
        rewrite Z.sub_diag, Z.mul_1_r.
        replace (ek + 1 - ez) with (ek - ez + 1) by lia.
        rewrite Z.pow_add_r, Z.pow_1_r by lia. nia.
    + (* positive: the sum is |y| + k *)
      change (Z.pos (fst (shl_align my ey ez)) + Z.pos (fst (shl_align mk ek ez)))
        with (Z.pos (fst (shl_align my ey ez) + fst (shl_align mk ek ez))).
      unfold binary_normalize. split; [apply binary_round_nonneg|].
      apply binary_round_le; [exact Hv2|].
      apply (dle_shift _ _ _ _ ez); [lia | lia |].
      rewrite Z.sub_diag, Z.mul_1_r, Pos2Z.inj_add, Ey, Ek.
      replace (ek + 1 - ez) with (ek - ez + 1) by lia.
      rewrite Z.pow_add_r, Z.pow_1_r by lia. nia.
Qed.

(** A number between 0 and K, divided by K, lies between 0 and 1;
    [(m1, e1)] is the number 1. *)
Lemma SFdiv_range (S : spec_float) (mK m1 : positive) (eK e1 : Z) :
  SpecFloat.valid_binary prec emax S = true ->
  SpecFloat.valid_binary prec emax (S754_finite false mK eK) = true ->
  SpecFloat.valid_binary prec emax (S754_finite false m1 e1) = true ->
  e1 <= 0 -> Z.pos m1 = 2 ^ (- e1) ->
  SFleb (S754_zero false) S = true ->
  SFleb S (S754_finite false mK eK) = true ->
  SFleb (S754_zero false) (SF64div S (S754_finite false mK eK)) = true
  /\ SFleb (SF64div S (S754_finite false mK eK)) (S754_finite false m1 e1) = true.
Proof.
  intros HvS HvK Hv1 He1 Hm1 Hlo Hhi.
  destruct S as [s|s| |s ms es].
  - destruct s; split; reflexivity.
  - destruct s; [discriminate Hlo | discriminate Hhi].
  - discriminate Hlo.
  - destruct s; [discriminate Hlo|]. split.
    + destruct (SFdiv_shape false false ms mK es eK) as (m3 & e3 & -> & H0).
      now apply pack_nonneg.
    + apply (SFdiv_le_repr prec emax prec_pos ms mK m1 es eK e1 Hv1).
      pose proof (SFleb_dle ms mK es eK HvS HvK Hhi) as Hd.
      set (c := Z.min es (e1 + eK)).
      assert (Hc : c <= es /\ c <= e1 + eK) by (unfold c; lia). clearbody c.
      apply (proj1 (dle_shift (Z.pos ms) es (Z.pos mK) eK c ltac:(lia) ltac:(lia))) in Hd.
      apply (dle_shift (Z.pos ms) es (Z.pos m1 * Z.pos mK) (e1 + eK) c); [lia | lia |].
      replace (Z.pos m1 * Z.pos mK * 2 ^ (e1 + eK - c)) with (Z.pos mK * 2 ^ (eK - c));
        [exact Hd|].
      rewrite Hm1. replace (eK - c) with (- e1 + (e1 + eK - c)) by lia.
      rewrite Z.pow_add_r by lia. ring.
Qed.

Lemma mul_shift_nonneg (mx my : positive) (ex ey : Z) (sx sy : bool) :
  SpecFloat.valid_binary prec emax (S754_finite sx mx ex) = true ->
  SpecFloat.valid_binary prec emax (S754_finite sy my ey) = true ->
  0 <= SpecFloat.fexp prec emax (Zdigits2 (Z.pos mx * Z.pos my) + (ex + ey)) - (ex + ey).
Proof.
  intros Hx Hy.
  destruct (valid_finite prec emax sx mx ex Hx) as (Hcx & _ & Hex).
  destruct (valid_finite prec emax sy my ey Hy) as (Hcy & _ & Hey).
  pose proof (Zdigits2_mul_ge (Z.pos mx) (Z.pos my) ltac:(lia) ltac:(lia)) as Hd.
  pose proof (Zdigits2_bounds (Z.pos mx) ltac:(lia)) as [Hdx _].
  pose proof (Zdigits2_bounds (Z.pos my) ltac:(lia)) as [Hdy _].
  unfold SpecFloat.fexp, SpecFloat.emin in *.
  change prec with 53 in *. change emax with 1024 in *. lia.
Qed.

(** A number between 0 and 1, times K, lies between 0 and K. *)
Lemma SFmul_range (Q : spec_float) (mK m1 : positive) (eK e1 : Z) :
  SpecFloat.valid_binary prec emax Q = true ->
  SpecFloat.valid_binary prec emax (S754_finite false mK eK) = true ->
  SpecFloat.valid_binary prec emax (S754_finite false m1 e1) = true ->
  e1 <= 0 -> Z.pos m1 = 2 ^ (- e1) ->
  SFleb (S754_zero false) Q = true ->
  SFleb Q (S754_finite false m1 e1) = true ->
  SFleb (S754_zero false) (SF64mul Q (S754_finite false mK eK)) = true
  /\ SFleb (SF64mul Q (S754_finite false mK eK)) (S754_finite false mK eK) = true.
Proof.
  intros HvQ HvK Hv1 He1 Hm1 Hlo Hhi.
  destruct Q as [s|s| |s mq eq].
  - destruct s; split; reflexivity.
  - destruct s; [discriminate Hlo | discriminate Hhi].
  - discriminate Hlo.
  - destruct s; [discriminate Hlo|]. split.
    + destruct (SFmul_shape false false mq mK eq eK HvQ HvK) as (m3 & e3 & -> & H0).
      now apply pack_nonneg.
    + pose proof (SFleb_dle mq m1 eq e1 HvQ Hv1 Hhi) as Hd.
      pose proof (dle_digits (Z.pos mq) eq (Z.pos m1) e1 ltac:(lia) ltac:(lia) Hd) as Hdig.
      assert (Hd1 : Zdigits2 (Z.pos m1) = - e1 + 1)
        by (rewrite Hm1; apply Zdigits2_pow2; lia).
      pose proof (Zdigits2_bounds (Z.pos mq) ltac:(lia)) as [Hdq _].
      assert (Heq : eq <= 0) by lia.
      unfold SF64mul, SFmul. cbn [xorb].
      change (Z.pos (mq * mK)) with (Z.pos mq * Z.pos mK).
      rewrite <- (ra_exact prec emax false mK eK (eq + eK) HvK ltac:(lia)).
      apply (ra_mono prec emax prec_pos); [lia | now apply (mul_shift_nonneg mq mK eq eK false false) |].
      unfold code. cbn [loc_code]. rewrite !Z.add_0_r.
      replace (eK - (eq + eK)) with (- eq) by lia.
      apply (proj1 (dle_shift (Z.pos mq) eq (Z.pos m1) e1 (Z.min eq e1)
                      ltac:(lia) ltac:(lia))) in Hd.
      assert (Hq : Z.pos mq <= 2 ^ (- eq)).
      { rewrite Hm1, <- Z.pow_add_r in Hd by lia.
        replace (- e1 + (e1 - Z.min eq e1)) with (- eq + (eq - Z.min eq e1)) in Hd by lia.
        rewrite Z.pow_add_r in Hd by lia.
        apply (Z.mul_le_mono_pos_r _ _ (2 ^ (eq - Z.min eq e1)));
          [apply Z.pow_pos_nonneg; lia | exact Hd]. }
      nia.
Qed.

Local Close Scope Z_scope.

Lemma clampedCents_range (cents : float) :
  is_nan cents = false ->
  (-50 <=? UIController.clampedCents cents) = true
  /\ (UIController.clampedCents cents <=? 50) = true.
Proof.
  intros Hn.
  destruct (clampedCents_cases cents Hn) as [[_ ->] | [[_ ->] | (H1 & H2 & ->)]];
    [split; reflexivity | split; reflexivity | split; assumption].
Qed.

(** X16. For cents that are a number (any number, also an infinity), the
    needle stays on the meter: its position is between 0% and 100%. *)
Theorem needle_on_the_meter (cents : float) :
  is_nan cents = false ->
  (0 <=? UIController.percentage cents) = true
  /\ (UIController.percentage cents <=? 100) = true.
Proof.
  intros Hn. destruct (clampedCents_range cents Hn) as [Hlo Hhi].
  unfold UIController.percentage. set (y := UIController.clampedCents cents) in *.
  assert (E50 : Prim2SF 50 = S754_finite false 7036874417766400 (-47)) by reflexivity.
  assert (E50n : Prim2SF (-50) = S754_finite true 7036874417766400 (-47)) by reflexivity.
  assert (E100 : Prim2SF 100 = S754_finite false 7036874417766400 (-47 + 1)) by reflexivity.
  assert (E1 : Prim2SF 1 = S754_finite false 4503599627370496 (-52)) by reflexivity.
  assert (P1 : Z.pos 4503599627370496 = (2 ^ (- -52))%Z) by reflexivity.
  pose proof (Prim2SF_valid 50) as V50. pose proof (Prim2SF_valid 100) as V100.
  pose proof (Prim2SF_valid 1) as V1.
  pose proof (Prim2SF_valid y) as Vy.
  pose proof (Prim2SF_valid (y + 50)) as Vs.
  pose proof (Prim2SF_valid ((y + 50) / 100)) as Vq.
  rewrite FloatAxioms.leb_spec in Hlo, Hhi.
  rewrite !FloatAxioms.leb_spec, FloatAxioms.mul_spec.
  rewrite FloatAxioms.div_spec in Vq |- *. rewrite FloatAxioms.add_spec in Vs, Vq |- *.
  change (Prim2SF 0) with (S754_zero false).
  rewrite E50 in *. rewrite E100 in *. rewrite E1 in *. rewrite E50n in *.
  revert P1 V50 V100 V1 Hlo Hhi Vs Vq.
  generalize 7036874417766400%positive as M, 4503599627370496%positive as U.
  intros M U P1 V50 V100 V1 Hlo Hhi Vs Vq.
  destruct (SFadd_range (Prim2SF y) M (-47) Vy V50 V100 Hlo Hhi) as [S0 S1].
  destruct (SFdiv_range _ M U (-47 + 1) (-52) Vs V100 V1 ltac:(lia) P1 S0 S1) as [Q0 Q1].
  exact (SFmul_range _ M U (-47 + 1) (-52) Vq V100 V1 ltac:(lia) P1 Q0 Q1).
Qed.

Lemma needle_on_the_meter_witness :
  (0 <=? UIController.percentage 7) = true
  /\ (UIController.percentage 7 <=? 100) = true
  /\ (0 <=? UIController.percentage neg_infinity) = true.
Proof.
  destruct (needle_on_the_meter 7 eq_refl) as [H1 H2].
  destruct (needle_on_the_meter neg_infinity eq_refl) as [H3 _].
  split; [exact H1|]. split; [exact H2 | exact H3].
Defined.
